(** * TypingGame: a shallow embedding of [src/components/TypingGame.tsx]

    The component's React state is a record, its event handlers are
    computations in a small state-and-exception monad that reads the render
    snapshot its closure captured and queues state updates, writes
    [localStorage], speaks and arms timeouts.  JavaScript strings are lists of
    UTF-16 code units; dictionaries are [gmap]s. *)

From Stdlib Require Import ZArith NArith List Bool Ascii String DecimalString Lia.
From Stdlib Require DecimalPos.
From stdpp Require Import base option list gmap.

Set Default Proof Using "Type".
Local Open Scope Z_scope.

(* ===================================================================== *)
(** ** JavaScript values *)
(* ===================================================================== *)

(** A JavaScript string is a sequence of UTF-16 code units. *)
Abbreviation jsstring := (list N).

(** The code units of a literal written in Basic Latin. *)
Definition js (s : string) : jsstring :=
  List.map N_of_ascii (list_ascii_of_string s).

Arguments js : simpl never.

(** [s[i]]: a one-unit string, or [undefined] ([None]) out of range. *)
Definition charAt (s : jsstring) (i : nat) : option jsstring :=
  (fun c => [c]) <$> s !! i.

(** [s.substring(a, b)] for [0 <= a], [0 <= b]; JavaScript swaps the
    arguments when [a > b] and clamps both to the length. *)
Definition substring (s : jsstring) (a b : nat) : jsstring :=
  let lo := Nat.min a b in
  let hi := Nat.max a b in
  take (hi - lo) (drop lo s).

(** [s.split("")]: the list of one-unit strings. *)
Definition split_chars (s : jsstring) : list jsstring :=
  List.map (fun c => [c]) s.

(** Truthiness of a string: every string but the empty one. *)
Definition truthy_string (s : jsstring) : bool :=
  match s with [] => false | _ => true end.

(** White space and line terminators, as [String.prototype.trim] and
    [parseInt] strip them. *)
Definition is_whitespace (c : N) : bool :=
  (((9 <=? c) && (c <=? 13)) || (c =? 32) || (c =? 160) || (c =? 5760)
   || ((8192 <=? c) && (c <=? 8202)) || (c =? 8232) || (c =? 8233)
   || (c =? 8239) || (c =? 8287) || (c =? 12288) || (c =? 65279))%N.

Fixpoint trimStart (s : jsstring) : jsstring :=
  match s with
  | c :: s' => if is_whitespace c then trimStart s' else s
  | [] => []
  end.

Definition trimEnd (s : jsstring) : jsstring := rev (trimStart (rev s)).

Definition trim (s : jsstring) : jsstring := trimEnd (trimStart s).

(** A JavaScript number, as far as the component computes with them: an
    integer or [NaN]. *)
Inductive number : Type :=
| Num (z : Z)
| NaN.

Global Instance number_eq_dec : EqDecision number.
Proof. solve_decision. Defined.

(** [a + b], [a - b], [a % b] and [Math.abs a]. *)
Definition number_add (a b : number) : number :=
  match a, b with Num x, Num y => Num (x + y) | _, _ => NaN end.

Definition number_sub (a b : number) : number :=
  match a, b with Num x, Num y => Num (x - y) | _, _ => NaN end.

(** The remainder takes the sign of the dividend; a zero divisor gives NaN. *)
Definition number_rem (a b : number) : number :=
  match a, b with
  | Num x, Num y => if y =? 0 then NaN else Num (Z.rem x y)
  | _, _ => NaN
  end.

Definition number_abs (a : number) : number :=
  match a with Num x => Num (Z.abs x) | NaN => NaN end.

(** [a > 0] and [a < 0]; both are false on NaN. *)
Definition number_gt0 (a : number) : bool :=
  match a with Num x => 0 <? x | NaN => false end.

Definition number_lt0 (a : number) : bool :=
  match a with Num x => x <? 0 | NaN => false end.

(** [n.toString()] and the rendering of a number in a template literal. *)
Definition Z_toString (z : Z) : jsstring :=
  js (NilZero.string_of_int (Z.to_int z)).

Arguments Z_toString : simpl never.

Definition number_toString (a : number) : jsstring :=
  match a with Num z => Z_toString z | NaN => js "NaN" end.

(** [parseInt(s, 10)]: leading white space is skipped, a sign is read, then
    the longest run of decimal digits; no digit at all gives NaN. *)
Definition is_digit (c : N) : bool := ((48 <=? c) && (c <=? 57))%N.

Fixpoint parse_digits (acc : option Z) (s : jsstring) : option Z :=
  match s with
  | c :: s' =>
      if is_digit c
      then parse_digits (Some (10 * default 0 acc + (Z.of_N c - 48))) s'
      else acc
  | [] => acc
  end.

Definition parseInt10 (s : jsstring) : number :=
  let s1 := trimStart s in
  let '(sign, s2) :=
    match s1 with
    | 45%N :: r => (-1, r)
    | 43%N :: r => (1, r)
    | _ => (1, s1)
    end in
  match parse_digits None s2 with
  | Some v => Num (sign * v)
  | None => NaN
  end.

(* ===================================================================== *)
(** ** Constants of the component *)
(* ===================================================================== *)

(** [specialCharMap], in the order [Object.entries] lists it (insertion
    order: no key is an array index).  Every key is a single code unit, so it
    is kept as that unit: subscript 2, 3, 4 and 1, en dash, em dash, degree,
    greater-or-equal, less-or-equal, plus-minus, multiplication sign, Greek mu,
    trade mark, registered, copyright. *)
Definition specialCharMap : list (N * jsstring) :=
  [ (8322%N, js "2"); (8323%N, js "3"); (8324%N, js "4"); (8321%N, js "1");
    (8211%N, js "-"); (8212%N, js "-"); (176%N, js "o"); (8805%N, js ">");
    (8804%N, js "<"); (177%N, js "+"); (215%N, js "x"); (956%N, js "u");
    (8482%N, []); (174%N, []); (169%N, []) ].

Definition keyboardLayout : list (list jsstring) :=
  [ List.map js ["1"; "2"; "3"; "4"; "5"; "6"; "7"; "8"; "9"; "0"; "-"; "="];
    List.map js ["q"; "w"; "e"; "r"; "t"; "y"; "u"; "i"; "o"; "p"; "["; "]"];
    List.map js ["a"; "s"; "d"; "f"; "g"; "h"; "j"; "k"; "l"; ";"; "'"];
    List.map js ["z"; "x"; "c"; "v"; "b"; "n"; "m"; ","; "."; "/"];
    [js " "] ]%string.

(** [Object.entries(shiftSymbols)]: the keys that are array indices come
    first, in ascending order, then the others in insertion order.  The shift
    of the apostrophe key is the double quote, code unit 34. *)
Definition shiftSymbolEntries : list (jsstring * jsstring) :=
  [ (js "0", js ")"); (js "1", js "!"); (js "2", js "@"); (js "3", js "#");
    (js "4", js "$"); (js "5", js "%"); (js "6", js "^"); (js "7", js "&");
    (js "8", js "*"); (js "9", js "(");
    (js "-", js "_"); (js "=", js "+"); (js ";", js ":"); (js "'", [34%N]);
    (js ",", js "<"); (js ".", js ">"); (js "/", js "?"); (js "[", js "{");
    (js "]", js "}") ]%string.

Definition space : jsstring := [32%N].

(* ===================================================================== *)
(** ** setupPhrase *)
(* ===================================================================== *)

Record Phrase : Type := { display : jsstring; typing : jsstring }.

(** [s.replace(new RegExp(pat, 'g'), by)] for a pattern of one literal code
    unit: every occurrence is replaced, scanning left to right. *)
Definition replace_all (pat : N) (by_ : jsstring) (s : jsstring) : jsstring :=
  flat_map (fun c => if (c =? pat)%N then by_ else [c]) s.

Definition setupPhrase (originalPhrase : jsstring) : Phrase :=
  let typingVersion :=
    fold_left (fun typingVersion '(display, typing) =>
                 replace_all display typing typingVersion)
              specialCharMap originalPhrase in
  {| display := originalPhrase; typing := typingVersion |}.

Arguments setupPhrase : simpl never.

(* ===================================================================== *)
(** ** getCurrentWordInfo *)
(* ===================================================================== *)

Record WordInfo : Type :=
  { currentWord : jsstring; remainingLetters : list jsstring }.

(** [while (wordStart > 0 && typingPhrase[wordStart - 1] !== " ") wordStart--] *)
Fixpoint scanWordStart (typingPhrase : jsstring) (wordStart : nat) : nat :=
  match wordStart with
  | O => O
  | S before =>
      if decide (charAt typingPhrase before ≠ Some space)
      then scanWordStart typingPhrase before
      else wordStart
  end.

(** [while (wordEnd < typingPhrase.length && typingPhrase[wordEnd] !== " ")
    wordEnd++], with the number of iterations left as fuel. *)
Fixpoint scanWordEnd (fuel : nat) (typingPhrase : jsstring) (wordEnd : nat) : nat :=
  match fuel with
  | O => wordEnd
  | S fuel' =>
      if (wordEnd <? length typingPhrase)%nat
         && bool_decide (charAt typingPhrase wordEnd ≠ Some space)
      then scanWordEnd fuel' typingPhrase (S wordEnd)
      else wordEnd
  end.

Definition getCurrentWordInfo (typingPhrase : jsstring) (currentIndex : nat)
  : WordInfo :=
  if (length typingPhrase <=? currentIndex)%nat
  then {| currentWord := []; remainingLetters := [] |}
  else
    let wordStart := scanWordStart typingPhrase currentIndex in
    let wordEnd :=
      scanWordEnd (length typingPhrase - currentIndex) typingPhrase currentIndex in
    {| currentWord := substring typingPhrase wordStart wordEnd;
       remainingLetters :=
         if (currentIndex <? wordEnd)%nat
         then split_chars (substring typingPhrase (currentIndex + 1) wordEnd)
         else [] |}.

(* ===================================================================== *)
(** ** findKeyPosition *)
(* ===================================================================== *)

Record KeyPosition : Type := { rowIndex : nat; keyIndex : nat }.

(** [row.indexOf(x)]; [None] stands for -1. *)
Fixpoint indexOf (row : list jsstring) (x : jsstring) : option nat :=
  match row with
  | [] => None
  | key :: row' => if decide (key = x) then Some O else S <$> indexOf row' x
  end.

(** The loop over the rows of the layout, from row [rowIndex] on. *)
Fixpoint findInRows (rows : list (list jsstring)) (rowIndex : nat) (x : jsstring)
  : option KeyPosition :=
  match rows with
  | [] => None
  | row :: rows' =>
      match indexOf row x with
      | Some keyIndex => Some {| rowIndex := rowIndex; keyIndex := keyIndex |}
      | None => findInRows rows' (S rowIndex) x
      end
  end.

(** The loop over the shift symbols: an entry whose symbol is [char] returns
    the position of its base key when the layout has it, and the loop goes on
    otherwise. *)
Fixpoint findShifted (entries : list (jsstring * jsstring)) (char : jsstring)
  : option KeyPosition :=
  match entries with
  | [] => None
  | (baseKey, shiftSymbol) :: entries' =>
      if decide (shiftSymbol = char)
      then match findInRows keyboardLayout 0 baseKey with
           | Some pos => Some pos
           | None => findShifted entries' char
           end
      else findShifted entries' char
  end.

Section KeyboardLocator.

(** [String.prototype.toLowerCase], the built-in of the host. *)
Variable toLowerCase : jsstring -> jsstring.

Definition findKeyPosition (char : jsstring) : option KeyPosition :=
  let lowerChar := toLowerCase char in
  match findInRows keyboardLayout 0 lowerChar with
  | Some pos => Some pos
  | None => findShifted shiftSymbolEntries char
  end.

End KeyboardLocator.

(** The built-in on strings of Basic Latin: [A]..[Z] go to [a]..[z], every
    other unit below 128 is kept.  Used where a concrete string is run. *)
Definition toLowerCase_latin (s : jsstring) : jsstring :=
  List.map (fun c => if ((65 <=? c) && (c <=? 90))%N then (c + 32)%N else c) s.

(* ===================================================================== *)
(** ** The state of the component *)
(* ===================================================================== *)

Record PhraseSet : Type := { name : jsstring; phrases : list jsstring }.

(** The [useState] cells the handlers read or write.  [currentIndex] is the
    cursor: it starts at 0 and is only ever set to 0 or to itself plus one, so
    it is a natural number.  The two preferences that only the rendering
    reads (show keyboard, show space glyph) are left out. *)
Record Session : Type := {
  currentSetKey : jsstring;
  currentPhraseIndex : number;
  displayPhrase : jsstring;
  typingPhrase : jsstring;
  userInput : jsstring;
  currentIndex : nat;
  customPhrase : jsstring;
  startTime : option Z;
  elapsedTime : Z;
  isTimerRunning : bool;
  previousTime : option number;
  enableKeyTTS : bool;
}.

(** One function per [useState] setter's effect on the record. *)
Definition with_currentSetKey (v : jsstring) (s : Session) : Session :=
  {| currentSetKey := v;
     currentPhraseIndex := currentPhraseIndex s;
     displayPhrase := displayPhrase s;
     typingPhrase := typingPhrase s;
     userInput := userInput s;
     currentIndex := currentIndex s;
     customPhrase := customPhrase s;
     startTime := startTime s;
     elapsedTime := elapsedTime s;
     isTimerRunning := isTimerRunning s;
     previousTime := previousTime s;
     enableKeyTTS := enableKeyTTS s |}.

Definition with_currentPhraseIndex (v : number) (s : Session) : Session :=
  {| currentSetKey := currentSetKey s;
     currentPhraseIndex := v;
     displayPhrase := displayPhrase s;
     typingPhrase := typingPhrase s;
     userInput := userInput s;
     currentIndex := currentIndex s;
     customPhrase := customPhrase s;
     startTime := startTime s;
     elapsedTime := elapsedTime s;
     isTimerRunning := isTimerRunning s;
     previousTime := previousTime s;
     enableKeyTTS := enableKeyTTS s |}.

Definition with_displayPhrase (v : jsstring) (s : Session) : Session :=
  {| currentSetKey := currentSetKey s;
     currentPhraseIndex := currentPhraseIndex s;
     displayPhrase := v;
     typingPhrase := typingPhrase s;
     userInput := userInput s;
     currentIndex := currentIndex s;
     customPhrase := customPhrase s;
     startTime := startTime s;
     elapsedTime := elapsedTime s;
     isTimerRunning := isTimerRunning s;
     previousTime := previousTime s;
     enableKeyTTS := enableKeyTTS s |}.

Definition with_typingPhrase (v : jsstring) (s : Session) : Session :=
  {| currentSetKey := currentSetKey s;
     currentPhraseIndex := currentPhraseIndex s;
     displayPhrase := displayPhrase s;
     typingPhrase := v;
     userInput := userInput s;
     currentIndex := currentIndex s;
     customPhrase := customPhrase s;
     startTime := startTime s;
     elapsedTime := elapsedTime s;
     isTimerRunning := isTimerRunning s;
     previousTime := previousTime s;
     enableKeyTTS := enableKeyTTS s |}.

Definition with_userInput (v : jsstring) (s : Session) : Session :=
  {| currentSetKey := currentSetKey s;
     currentPhraseIndex := currentPhraseIndex s;
     displayPhrase := displayPhrase s;
     typingPhrase := typingPhrase s;
     userInput := v;
     currentIndex := currentIndex s;
     customPhrase := customPhrase s;
     startTime := startTime s;
     elapsedTime := elapsedTime s;
     isTimerRunning := isTimerRunning s;
     previousTime := previousTime s;
     enableKeyTTS := enableKeyTTS s |}.

Definition with_currentIndex (v : nat) (s : Session) : Session :=
  {| currentSetKey := currentSetKey s;
     currentPhraseIndex := currentPhraseIndex s;
     displayPhrase := displayPhrase s;
     typingPhrase := typingPhrase s;
     userInput := userInput s;
     currentIndex := v;
     customPhrase := customPhrase s;
     startTime := startTime s;
     elapsedTime := elapsedTime s;
     isTimerRunning := isTimerRunning s;
     previousTime := previousTime s;
     enableKeyTTS := enableKeyTTS s |}.

Definition with_customPhrase (v : jsstring) (s : Session) : Session :=
  {| currentSetKey := currentSetKey s;
     currentPhraseIndex := currentPhraseIndex s;
     displayPhrase := displayPhrase s;
     typingPhrase := typingPhrase s;
     userInput := userInput s;
     currentIndex := currentIndex s;
     customPhrase := v;
     startTime := startTime s;
     elapsedTime := elapsedTime s;
     isTimerRunning := isTimerRunning s;
     previousTime := previousTime s;
     enableKeyTTS := enableKeyTTS s |}.

Definition with_startTime (v : option Z) (s : Session) : Session :=
  {| currentSetKey := currentSetKey s;
     currentPhraseIndex := currentPhraseIndex s;
     displayPhrase := displayPhrase s;
     typingPhrase := typingPhrase s;
     userInput := userInput s;
     currentIndex := currentIndex s;
     customPhrase := customPhrase s;
     startTime := v;
     elapsedTime := elapsedTime s;
     isTimerRunning := isTimerRunning s;
     previousTime := previousTime s;
     enableKeyTTS := enableKeyTTS s |}.

Definition with_elapsedTime (v : Z) (s : Session) : Session :=
  {| currentSetKey := currentSetKey s;
     currentPhraseIndex := currentPhraseIndex s;
     displayPhrase := displayPhrase s;
     typingPhrase := typingPhrase s;
     userInput := userInput s;
     currentIndex := currentIndex s;
     customPhrase := customPhrase s;
     startTime := startTime s;
     elapsedTime := v;
     isTimerRunning := isTimerRunning s;
     previousTime := previousTime s;
     enableKeyTTS := enableKeyTTS s |}.

Definition with_isTimerRunning (v : bool) (s : Session) : Session :=
  {| currentSetKey := currentSetKey s;
     currentPhraseIndex := currentPhraseIndex s;
     displayPhrase := displayPhrase s;
     typingPhrase := typingPhrase s;
     userInput := userInput s;
     currentIndex := currentIndex s;
     customPhrase := customPhrase s;
     startTime := startTime s;
     elapsedTime := elapsedTime s;
     isTimerRunning := v;
     previousTime := previousTime s;
     enableKeyTTS := enableKeyTTS s |}.

Definition with_previousTime (v : option number) (s : Session) : Session :=
  {| currentSetKey := currentSetKey s;
     currentPhraseIndex := currentPhraseIndex s;
     displayPhrase := displayPhrase s;
     typingPhrase := typingPhrase s;
     userInput := userInput s;
     currentIndex := currentIndex s;
     customPhrase := customPhrase s;
     startTime := startTime s;
     elapsedTime := elapsedTime s;
     isTimerRunning := isTimerRunning s;
     previousTime := v;
     enableKeyTTS := enableKeyTTS s |}.

Definition with_enableKeyTTS (v : bool) (s : Session) : Session :=
  {| currentSetKey := currentSetKey s;
     currentPhraseIndex := currentPhraseIndex s;
     displayPhrase := displayPhrase s;
     typingPhrase := typingPhrase s;
     userInput := userInput s;
     currentIndex := currentIndex s;
     customPhrase := customPhrase s;
     startTime := startTime s;
     elapsedTime := elapsedTime s;
     isTimerRunning := isTimerRunning s;
     previousTime := previousTime s;
     enableKeyTTS := v |}.

(** [useState] initial values; the letter-sound preference is restored from
    storage by the host and arrives as [tts]. *)
Definition initialSession (tts : bool) : Session :=
  {| currentSetKey := js "familySet";
     currentPhraseIndex := Num 0;
     displayPhrase := [];
     typingPhrase := [];
     userInput := [];
     currentIndex := 0%nat;
     customPhrase := [];
     startTime := None;
     elapsedTime := 0;
     isTimerRunning := false;
     previousTime := None;
     enableKeyTTS := tts |}.

(** What [speechSynthesis.speak] is given: [speakLetter] builds an utterance
    of rate 1.0 and pitch 1.2, [speakPhrase] one of rate 0.8. *)
Inductive Utterance : Type :=
| LetterUtterance (text : jsstring)
| PhraseUtterance (text : jsstring).

(** A pending [setTimeout]: the callback is [goToNextPhrase] of the render
    whose state it closed over, kept as that state. *)
Record Timeout : Type := { closure : Session; delay : Z }.

(** Everything a handler can touch: the state the next render will see,
    [localStorage] (the entries of the best times; the preference keys
    [typing-game-...] never collide with them), the utterances spoken so far
    and the timeouts not yet fired, oldest first. *)
Record World : Type := {
  state : Session;
  localStorage : gmap jsstring jsstring;
  spoken : list Utterance;
  timeouts : list Timeout;
}.

Definition with_state (f : Session -> Session) (w : World) : World :=
  {| state := f (state w); localStorage := localStorage w;
     spoken := spoken w; timeouts := timeouts w |}.

Definition with_localStorage (m : gmap jsstring jsstring) (w : World) : World :=
  {| state := state w; localStorage := m;
     spoken := spoken w; timeouts := timeouts w |}.

Definition with_spoken (l : list Utterance) (w : World) : World :=
  {| state := state w; localStorage := localStorage w;
     spoken := l; timeouts := timeouts w |}.

Definition with_timeouts (l : list Timeout) (w : World) : World :=
  {| state := state w; localStorage := localStorage w;
     spoken := spoken w; timeouts := l |}.

(** What can happen to the component. *)
Inductive Event : Type :=
| KeyDown (key : jsstring) (now : Z)   (* a key goes down in the hidden input *)
| ClickNext                            (* the Next button *)
| ClickPrevious                        (* the Previous button *)
| SelectSet (value : jsstring)         (* the set selector changes *)
| EditCustomPhrase (value : jsstring)  (* typing in the custom phrase field *)
| SubmitPhrase                         (* the custom phrase form is submitted *)
| ToggleKeyTTS                         (* the letter-sound switch *)
| IntervalTick (now : Z)               (* the 100 ms interval fires *)
| TimeoutFires.                        (* the oldest pending timeout fires *)

(* ===================================================================== *)
(** ** Handlers as effectful computations *)
(* ===================================================================== *)

Inductive Error : Type := TypeError.

Inductive Completion (A : Type) : Type :=
| Normal (a : A)
| Throw (e : Error).
Arguments Normal {A} a.
Arguments Throw {A} e.

(** A computation runs on a world and completes normally or throws; what it
    wrote before throwing stays written. *)
Definition Eff (A : Type) : Type := World -> Completion A * World.

Definition ret {A} (a : A) : Eff A := fun w => (Normal a, w).

Definition bind {A B} (m : Eff A) (k : A -> Eff B) : Eff B :=
  fun w =>
    match m w with
    | (Normal a, w') => k a w'
    | (Throw e, w') => (Throw e, w')
    end.

Definition throw {A} (e : Error) : Eff A := fun w => (Throw e, w).

Declare Scope eff_scope.
Delimit Scope eff_scope with eff.
Bind Scope eff_scope with Eff.
Notation "x <- m ;; k" := (bind m (fun x => k))
  (at level 100, m at next level, right associativity) : eff_scope.
Notation "m ;; k" := (bind m (fun _ => k))
  (at level 100, right associativity) : eff_scope.
Notation "'when' b 'then' m" := (if b then m else ret tt)
  (at level 99, b at level 9, m at level 99) : eff_scope.
Local Open Scope eff_scope.

Definition setState (f : Session -> Session) : Eff unit :=
  fun w => (Normal tt, with_state f w).

Definition setCurrentSetKey v := setState (with_currentSetKey v).
Definition setCurrentPhraseIndex v := setState (with_currentPhraseIndex v).
Definition setDisplayPhrase v := setState (with_displayPhrase v).
Definition setTypingPhrase v := setState (with_typingPhrase v).
Definition setUserInput v := setState (with_userInput v).
Definition setCurrentIndex v := setState (with_currentIndex v).
Definition setCustomPhrase v := setState (with_customPhrase v).
Definition setStartTime v := setState (with_startTime v).
Definition setElapsedTime v := setState (with_elapsedTime v).
Definition setIsTimerRunning v := setState (with_isTimerRunning v).
Definition setPreviousTime v := setState (with_previousTime v).
Definition setEnableKeyTTS v := setState (with_enableKeyTTS v).

Definition localStorage_getItem (key : jsstring) : Eff (option jsstring) :=
  fun w => (Normal (localStorage w !! key), w).

Definition localStorage_setItem (key value : jsstring) : Eff unit :=
  fun w => (Normal tt, with_localStorage (<[key := value]> (localStorage w)) w).

Definition speechSynthesis_speak (u : Utterance) : Eff unit :=
  fun w => (Normal tt, with_spoken (spoken w ++ [u]) w).

Definition setTimeout (callback : Session) (ms : Z) : Eff unit :=
  fun w => (Normal tt,
            with_timeouts (timeouts w ++ [{| closure := callback; delay := ms |}]) w).

(** Truthiness of [startTime : number | null]. *)
Definition truthy_time (t : option Z) : bool :=
  match t with Some z => negb (z =? 0) | None => false end.

(** The key a best time is stored under: [`typingTime-${typingPhrase}`]. *)
Definition typingTimeKey (typingPhrase : jsstring) : jsstring :=
  js "typingTime-" ++ typingPhrase.

(** [phrases[i]] for a number [i]: [undefined] unless [i] is an index. *)
Definition phraseAt (phrases : list jsstring) (i : number) : option jsstring :=
  match i with
  | Num z => if 0 <=? z then phrases !! Z.to_nat z else None
  | NaN => None
  end.

(* ===================================================================== *)
(** ** Reference definitions and sample data *)
(* ===================================================================== *)

(** The keys of the layout with their positions, row by row. *)
Fixpoint number_row (r k : nat) (row : list jsstring)
  : list (KeyPosition * jsstring) :=
  match row with
  | [] => []
  | key :: row' =>
      ({| rowIndex := r; keyIndex := k |}, key) :: number_row r (S k) row'
  end.

Fixpoint number_rows (r : nat) (rows : list (list jsstring))
  : list (KeyPosition * jsstring) :=
  match rows with
  | [] => []
  | row :: rows' => number_row r 0 row ++ number_rows (S r) rows'
  end.

Definition layout_cells : list (KeyPosition * jsstring) :=
  number_rows 0 keyboardLayout.

(** The first position, in row-major order, of a key labelled [x]. *)
Definition first_cell (x : jsstring) : option KeyPosition :=
  fst <$> List.find (fun cell => bool_decide (snd cell = x)) layout_cells.

(** The locator as the specification words it: the first cell labelled
    [lower c]; failing that, the cell of the base key of the entry of the shift
    table whose shifted value is [c]; failing that, nothing. *)
Definition locate_spec (lower : jsstring -> jsstring) (c : jsstring)
  : option KeyPosition :=
  match first_cell (lower c) with
  | Some pos => Some pos
  | None =>
      match List.find (fun entry => bool_decide (snd entry = c)) shiftSymbolEntries with
      | Some entry => first_cell (fst entry)
      | None => None
      end
  end.

(** The units of [s] up to its first space. *)
Fixpoint up_to_space (s : jsstring) : jsstring :=
  match s with
  | c :: s' => if (c =? 32)%N then [] else c :: up_to_space s'
  | [] => []
  end.

(** Every character of the word under the cursor that is not typed yet: the
    units from the cursor to the next space or to the end. *)
Definition untyped_of_current_word (typingPhrase : jsstring) (cursor : nat)
  : list jsstring :=
  split_chars (up_to_space (drop cursor typingPhrase)).

(** A small collection of phrase sets to run the component on. *)
Definition sampleSets : gmap jsstring PhraseSet :=
  {[ js "familySet" :=
       {| name := js "Family"; phrases := [js "Hi!"; js "cat"; js "a b"] |} ]}.

(** Keys going down one after the other, all at time 1000. *)
Definition typed (keys : list string) : list Event :=
  List.map (fun key => KeyDown (js key) 1000) keys.

(* ===================================================================== *)
(** ** Reference definitions for the other functions *)
(* ===================================================================== *)

(** What one code unit of a phrase becomes when typed: the value of its entry
    in [specialCharMap], or itself. *)
Definition typable (c : N) : jsstring :=
  match List.find (fun entry => (fst entry =? c)%N) specialCharMap with
  | Some entry => snd entry
  | None => [c]
  end.

(** The code units that have an entry in [specialCharMap]. *)
Definition is_special (c : N) : bool :=
  existsb (fun entry => (fst entry =? c)%N) specialCharMap.

(** The code units the table maps to nothing: trade mark, registered and
    copyright. *)
Definition is_erased (c : N) : bool :=
  ((c =? 8482) || (c =? 174) || (c =? 169))%N.

(** The best time [localStorage] holds for a typing phrase, as the component
    reads it: no entry or an empty entry is no time. *)
Definition storedTime (storage : gmap jsstring jsstring) (typingPhrase : jsstring)
  : option number :=
  match storage !! typingTimeKey typingPhrase with
  | Some saved => if truthy_string saved then Some (parseInt10 saved) else None
  | None => None
  end.

(** Two phrase sets of different lengths. *)
Definition twoSets : gmap jsstring PhraseSet :=
  <[ js "short" := {| name := js "Short"; phrases := [js "ok"] |} ]> sampleSets.

Global Instance KeyPosition_eq_dec : EqDecision KeyPosition.
Proof. solve_decision. Defined.

(** [shiftSymbols[key]]: the shifted symbol of a key, [undefined] ([None])
    for a key that has none. *)
Definition shiftVersion (key : jsstring) : option jsstring :=
  snd <$> List.find (fun entry => bool_decide (fst entry = key)) shiftSymbolEntries.

(* ===================================================================== *)
(** ** What the render shows: the time and the phrase *)
(* ===================================================================== *)

(** [s.padStart(2, '0')]. *)
Definition padStart2 (s : jsstring) : jsstring :=
  if (length s <? 2)%nat then repeat 48%N (2 - length s) ++ s else s.

(** [Number.isSafeInteger]: the integers a double holds exactly, those of
    absolute value below 2^53. *)
Definition isSafeInteger (t : Z) : bool := Z.abs t <? 2 ^ 53.

(** [formatTime]: minutes and seconds, each padded to two digits.  A NaN
    renders as [NaN] on both sides.  The source computes on doubles: on a
    safe integer [Math.floor(t / 60)], [t % 60] and [toString] are the
    integer quotient, the remainder and the decimal digits written here (the
    quotient is below 2^48, where a double is rounded by at most 2^-6, less
    than the 1/60 that separates [t / 60] from the next integer).  Beyond,
    the double arithmetic rounds and prints otherwise, and the embedding gives
    no string ([None]). *)
Definition formatTime (timeInSeconds : number) : option jsstring :=
  match timeInSeconds with
  | Num t =>
      if isSafeInteger t then
        let minutes := t / 60 in
        let seconds := Z.rem t 60 in
        Some (padStart2 (Z_toString minutes) ++ js ":"
                ++ padStart2 (Z_toString seconds))
      else None
  | NaN => Some (js "NaN:NaN")
  end.

(** [s.split(' ')]: the pieces between the spaces, at least one. *)
Fixpoint split_space (s : jsstring) : list jsstring :=
  match s with
  | [] => [[]]
  | c :: s' =>
      if (c =? 32)%N then [] :: split_space s'
      else match split_space s' with
           | word :: words => (c :: word) :: words
           | [] => [[c]]
           end
  end.

(** The spans of the phrase on display: one per character, carrying the
    index that is compared with the cursor, and one for the space after each
    word but the last. *)
Inductive Span : Type :=
| CharSpan (index : nat) (char : jsstring)
| SpaceSpan (index : nat).

(** The body of [words.map] with its running [charIndex]. *)
Fixpoint renderWords (words : list jsstring) (charIndex : nat) : list (list Span) :=
  match words with
  | [] => []
  | word :: words' =>
      let wordCharElements :=
        imap (fun i char => CharSpan (charIndex + i) [char]) word in
      let hasSpace := match words' with [] => false | _ => true end in
      let spaceIndex := (charIndex + length word)%nat in
      let charIndex' :=
        (charIndex + (length word + (if hasSpace then 1 else 0)))%nat in
      (wordCharElements ++ (if hasSpace then [SpaceSpan spaceIndex] else []))
        :: renderWords words' charIndex'
  end.

Definition renderPhrase (displayPhrase : jsstring) : list (list Span) :=
  renderWords (split_space displayPhrase) 0.

(** The index a span is painted by, with the character it stands for. *)
Definition span_cell (s : Span) : nat * jsstring :=
  match s with
  | CharSpan index char => (index, char)
  | SpaceSpan index => (index, space)
  end.

(* ===================================================================== *)
(** ** The first version of the component ([src/unnamed/part_000]) *)
(* ===================================================================== *)

(** The first version has one phrase, no timer, no storage and no phrase
    sets.  Its handlers set state from the values of the render and its
    timeout sets constants, so a handler is a function on worlds. *)
Module FirstVersion.

Record Session : Type := {
  phrase : jsstring;
  userInput : jsstring;
  currentIndex : nat;
  customPhrase : jsstring;
  showKeyboard : bool;
}.

(** The state, the utterances spoken so far and the delays of the timeouts
    not yet fired, oldest first. *)
Record World : Type := {
  state : Session;
  spoken : list Utterance;
  timeouts : list Z;
}.

Inductive Event : Type :=
| KeyDown (key : jsstring)
| EditCustomPhrase (value : jsstring)
| SubmitPhrase
| ToggleKeyboard
| TimeoutFires.

Definition initialSession : Session :=
  {| phrase := js "the quick brown fox jumps over the lazy dog";
     userInput := [];
     currentIndex := 0;
     customPhrase := [];
     showKeyboard := true |}.

Definition keyboardLayout : list (list jsstring) :=
  [ List.map js ["q"; "w"; "e"; "r"; "t"; "y"; "u"; "i"; "o"; "p"]%string;
    List.map js ["a"; "s"; "d"; "f"; "g"; "h"; "j"; "k"; "l"]%string;
    List.map js ["z"; "x"; "c"; "v"; "b"; "n"; "m"]%string;
    [js " "] ].

(** [findKeyPosition]: the first row that holds [char], as it is given. *)
Definition findKeyPosition (char : jsstring) : option KeyPosition :=
  findInRows keyboardLayout 0 char.

Definition nextChar (r : Session) : option jsstring :=
  if (currentIndex r <? length (phrase r))%nat
  then charAt (phrase r) (currentIndex r)
  else None.

Definition keyPosition (r : Session) : option KeyPosition :=
  match nextChar r with
  | Some char => if truthy_string char then findKeyPosition char else None
  | None => None
  end.

Definition with_state (f : Session -> Session) (w : World) : World :=
  {| state := f (state w); spoken := spoken w; timeouts := timeouts w |}.

Definition setTimeout (delay : Z) (w : World) : World :=
  {| state := state w; spoken := spoken w; timeouts := timeouts w ++ [delay] |}.

Section Component.

Variable toLowerCase : jsstring -> jsstring.
Variable speechSynthesis_in_window : bool.

Definition speak (u : Utterance) (w : World) : World :=
  if speechSynthesis_in_window
  then {| state := state w; spoken := spoken w ++ [u]; timeouts := timeouts w |}
  else w.

Definition speakLetter (letter : jsstring) : World -> World :=
  speak (LetterUtterance (if decide (letter = space) then js "space" else letter)).

Definition speakPhrase (text : jsstring) : World -> World :=
  speak (PhraseUtterance text).

(** [handleKeyPress]: [char === phrase[currentIndex]] is false out of range,
    where [phrase[currentIndex]] is [undefined]. *)
Definition handleKeyPress (key : jsstring) (w : World) : World :=
  let r := state w in
  let char := toLowerCase key in
  if decide (Some char = charAt (phrase r) (currentIndex r)) then
    let w1 := speakLetter char w in
    let newUserInput := userInput r ++ char in
    let newIndex := (currentIndex r + 1)%nat in
    let w2 :=
      with_state (fun s => {| phrase := phrase s;
                              userInput := newUserInput;
                              currentIndex := newIndex;
                              customPhrase := customPhrase s;
                              showKeyboard := showKeyboard s |}) w1 in
    if (newIndex =? length (phrase r))%nat
    then setTimeout 3000 (speakPhrase (js "Great job! You finished the phrase!") w2)
    else w2
  else w.

Definition handlePhraseSubmit (w : World) : World :=
  let r := state w in
  if truthy_string (trim (customPhrase r))
  then with_state (fun s => {| phrase := toLowerCase (trim (customPhrase r));
                               userInput := [];
                               currentIndex := 0;
                               customPhrase := [];
                               showKeyboard := showKeyboard s |}) w
  else w.

(** The callback of the timeout sets constants. *)
Definition timeoutCallback (w : World) : World :=
  with_state (fun s => {| phrase := phrase s;
                          userInput := [];
                          currentIndex := 0;
                          customPhrase := customPhrase s;
                          showKeyboard := showKeyboard s |}) w.

Definition step (w : World) (e : Event) : World :=
  match e with
  | KeyDown key => handleKeyPress key w
  | EditCustomPhrase value =>
      with_state (fun s => {| phrase := phrase s;
                              userInput := userInput s;
                              currentIndex := currentIndex s;
                              customPhrase := value;
                              showKeyboard := showKeyboard s |}) w
  | SubmitPhrase => handlePhraseSubmit w
  | ToggleKeyboard =>
      with_state (fun s => {| phrase := phrase s;
                              userInput := userInput s;
                              currentIndex := currentIndex s;
                              customPhrase := customPhrase s;
                              showKeyboard := negb (showKeyboard s) |}) w
  | TimeoutFires =>
      match timeouts w with
      | _ :: pending =>
          timeoutCallback
            {| state := state w; spoken := spoken w; timeouts := pending |}
      | [] => w
      end
  end.

Definition mount : World :=
  {| state := initialSession; spoken := []; timeouts := [] |}.

Inductive reachable : World -> Prop :=
| reachable_mount : reachable mount
| reachable_step w e : reachable w -> reachable (step w e).

End Component.

End FirstVersion.

Section TypingGame.

(** [String.prototype.toLowerCase], the built-in of the host. *)
Variable toLowerCase : jsstring -> jsstring.

(** The phrase sets of [data/phraseSets.json]; [setAvailableSets] is never
    called, so they are fixed for the life of the component. *)
Variable availableSets : gmap jsstring PhraseSet.

(** ['speechSynthesis' in window]. *)
Variable speechSynthesis_in_window : bool.

Definition speakLetter (letter : jsstring) : Eff unit :=
  when speechSynthesis_in_window then
    speechSynthesis_speak
      (LetterUtterance (if decide (letter = space) then js "space" else letter)).

Definition speakPhrase (text : jsstring) : Eff unit :=
  when speechSynthesis_in_window then
    speechSynthesis_speak (PhraseUtterance text).

(** *** Closures of one render

    Every function below is created anew by each render and reads the state
    [r] of that render. *)

Definition goToNextPhrase (r : Session) : Eff unit :=
  match availableSets !! currentSetKey r with
  | Some currentSet =>
      let nextPhraseIndex :=
        number_rem (number_add (currentPhraseIndex r) (Num 1))
                   (Num (Z.of_nat (length (phrases currentSet)))) in
      setCurrentPhraseIndex nextPhraseIndex ;;
      setUserInput [] ;;
      setCurrentIndex 0%nat ;;
      setStartTime None ;;
      setElapsedTime 0 ;;
      setIsTimerRunning false ;;
      setPreviousTime None
  | None => ret tt
  end.

Definition goToPrevPhrase (r : Session) : Eff unit :=
  match availableSets !! currentSetKey r with
  | Some currentSet =>
      let len := Num (Z.of_nat (length (phrases currentSet))) in
      let prevPhraseIndex :=
        number_rem (number_add (number_sub (currentPhraseIndex r) (Num 1)) len)
                   len in
      setCurrentPhraseIndex prevPhraseIndex ;;
      setUserInput [] ;;
      setCurrentIndex 0%nat ;;
      setStartTime None ;;
      setElapsedTime 0 ;;
      setIsTimerRunning false ;;
      setPreviousTime None
  | None => ret tt
  end.

(** The local [timeDifference] of [handleKeyPress]. *)
Definition timeDifference (previousTime : option number) (finalTime : Z)
  : option number :=
  match previousTime with
  | Some previous => Some (number_sub previous (Num finalTime))
  | None => None
  end.

(** The sentence spoken on completion. *)
Definition completionText (finalTime : Z) (timeDifference : option number)
  : jsstring :=
  match timeDifference with
  | Some difference =>
      let improvementText :=
        if number_gt0 difference
        then js "You were " ++ number_toString (number_abs difference)
               ++ js " seconds faster!"
        else if number_lt0 difference
        then js "You were " ++ number_toString (number_abs difference)
               ++ js " seconds slower."
        else js "You matched your previous time exactly!" in
      js "Great job! You finished in " ++ Z_toString finalTime
        ++ js " seconds. " ++ improvementText
  | None =>
      js "Great job! You finished in " ++ Z_toString finalTime
        ++ js " seconds. That's your first attempt with this phrase."
  end.

(** [handleKeyPress]: [key] is [event.key] and [now] what [Date.now()]
    returns.  Reading [typingPhrase[currentIndex]] out of range gives
    [undefined], and calling [toLowerCase] on it throws. *)
Definition handleKeyPress (r : Session) (key : jsstring) (now : Z) : Eff unit :=
  let char := key in
  (when ((currentIndex r =? 0)%nat && negb (truthy_time (startTime r))) then
     (setStartTime (Some now) ;;
      setIsTimerRunning true)) ;;
  match charAt (typingPhrase r) (currentIndex r) with
  | None => throw TypeError
  | Some expectedChar =>
      let isMatch := bool_decide (toLowerCase char = toLowerCase expectedChar) in
      when isMatch then
        ((when (enableKeyTTS r) then speakLetter char) ;;
         let newUserInput := userInput r ++ expectedChar in
         setUserInput newUserInput ;;
         let newIndex := (currentIndex r + 1)%nat in
         setCurrentIndex newIndex ;;
         when (newIndex =? length (typingPhrase r))%nat then
           (setIsTimerRunning false ;;
            let finalTime := elapsedTime r in
            let timeDifference := timeDifference (previousTime r) finalTime in
            localStorage_setItem (typingTimeKey (typingPhrase r))
                                 (Z_toString finalTime) ;;
            speakPhrase (completionText finalTime timeDifference) ;;
            setTimeout r 3000))
  end.

(** Loading a stored best time: an absent or empty entry is no time, any
    other is parsed. *)
Definition loadPreviousTime (typingPhrase : jsstring) : Eff unit :=
  savedTime <- localStorage_getItem (typingTimeKey typingPhrase) ;;
  match savedTime with
  | Some saved =>
      if truthy_string saved
      then setPreviousTime (Some (parseInt10 saved))
      else setPreviousTime None
  | None => setPreviousTime None
  end.

Definition handlePhraseSubmit (r : Session) : Eff unit :=
  when (truthy_string (trim (customPhrase r))) then
    (let phraseData := setupPhrase (trim (customPhrase r)) in
     setDisplayPhrase (display phraseData) ;;
     setTypingPhrase (typing phraseData) ;;
     setUserInput [] ;;
     setCurrentIndex 0%nat ;;
     setCustomPhrase [] ;;
     setStartTime None ;;
     setElapsedTime 0 ;;
     setIsTimerRunning false ;;
     loadPreviousTime (typing phraseData)).

Definition handleSetChange (r : Session) (newSetKey : jsstring) : Eff unit :=
  setCurrentSetKey newSetKey ;;
  setCurrentPhraseIndex (Num 0) ;;
  setUserInput [] ;;
  setCurrentIndex 0%nat ;;
  setStartTime None ;;
  setElapsedTime 0 ;;
  setIsTimerRunning false.

(** The callback of the polling interval. *)
Definition intervalCallback (r : Session) (now : Z) : Eff unit :=
  when (truthy_time (startTime r)) then
    (let current := now in
     let elapsed := (current - default 0 (startTime r)) / 1000 in
     setElapsedTime elapsed).

(** *** Effects

    The effect on [availableSets, currentSetKey, currentPhraseIndex]: it
    loads the phrase of the current set.  [setupPhrase] of [undefined]
    throws at its first [replace]. *)
Definition effect_loadPhrase (r : Session) : Eff unit :=
  if truthy_string (currentSetKey r) then
    match availableSets !! currentSetKey r with
    | Some currentSet =>
        when (0 <? length (phrases currentSet))%nat then
          match phraseAt (phrases currentSet) (currentPhraseIndex r) with
          | Some phrase =>
              let phraseData := setupPhrase phrase in
              setDisplayPhrase (display phraseData) ;;
              setTypingPhrase (typing phraseData)
          | None => throw TypeError
          end
    | None => ret tt
    end
  else ret tt.

(** The effect on [typingPhrase]. *)
Definition effect_loadPreviousTime (r : Session) : Eff unit :=
  loadPreviousTime (typingPhrase r).

(** *** Events and the render cycle *)

(** The callback an event runs; [r] is the state of the latest render.  The
    interval exists while [isTimerRunning]; a timeout runs the
    [goToNextPhrase] of the render that armed it.  [IntervalTick] is a tick
    of the interval of the latest render: a tick of an interval armed by an
    earlier render, which can still arrive before React has run the cleanup
    of the effect, is not among the events; it writes [elapsedTime] and
    nothing else. *)
Definition handle (r : Session) (e : Event) : Eff unit :=
  match e with
  | KeyDown key now => handleKeyPress r key now
  | ClickNext => goToNextPhrase r
  | ClickPrevious => goToPrevPhrase r
  | SelectSet value => handleSetChange r value
  | EditCustomPhrase value => setCustomPhrase value
  | SubmitPhrase => handlePhraseSubmit r
  | ToggleKeyTTS => setEnableKeyTTS (negb (enableKeyTTS r))
  | IntervalTick now => when (isTimerRunning r) then intervalCallback r now
  | TimeoutFires =>
      fun w =>
        match timeouts w with
        | t :: pending => goToNextPhrase (closure t) (with_timeouts pending w)
        | [] => (Normal tt, w)
        end
  end.

(** The effects of the render of [r] that follows the render of [prev]:
    each runs when one of its dependencies differs. *)
Definition runEffects (prev r : Session) : Eff unit :=
  (when (negb (bool_decide (currentSetKey r = currentSetKey prev
                            /\ currentPhraseIndex r = currentPhraseIndex prev)))
     then effect_loadPhrase r) ;;
  (when (negb (bool_decide (typingPhrase r = typingPhrase prev)))
     then effect_loadPreviousTime r).

(** Rendering until the state is stable.  The effects write neither the set
    key nor the phrase index, and the second one writes only
    [previousTime], so the render after the second pass has no effect to
    run.  An error thrown by an effect is not caught and React unmounts the
    component: the world returned with the throw holds what was written
    before it, not what is on the page afterwards. *)
Definition commit (prev : Session) : Eff unit :=
  fun w =>
    let r1 := state w in
    match runEffects prev r1 w with
    | (Normal _, w1) => runEffects r1 (state w1) w1
    | thrown => thrown
    end.

(** One event: the callback runs, then React renders; the updates a
    callback queued before it threw are rendered too. *)
Definition dispatch (e : Event) : Eff unit :=
  fun w =>
    let r := state w in
    match handle r e w with
    | (Normal _, w1) => commit r w1
    | (Throw err, w1) => (Throw err, snd (commit r w1))
    end.

Definition step (w : World) (e : Event) : World := snd (dispatch e w).

(** Mounting: the first render runs both effects, then renders again. *)
Definition mount (storage : gmap jsstring jsstring) (tts : bool) : World :=
  let r0 := initialSession tts in
  let w0 := {| state := r0; localStorage := storage;
               spoken := []; timeouts := [] |} in
  let w1 := snd ((effect_loadPhrase r0 ;; effect_loadPreviousTime r0) w0) in
  snd (runEffects r0 (state w1) w1).

(** The worlds the component can be in. *)
Inductive reachable : World -> Prop :=
| reachable_mount storage tts : reachable (mount storage tts)
| reachable_step w e : reachable w -> reachable (step w e).

(* =================================================================== *)
(** ** Vocabulary of the statements *)
(* =================================================================== *)

(** The first statement of [handleKeyPress] on its own: the timer is
    started when the cursor is 0 and no start time is set. *)
Definition startTimerOnFirstKey (r : Session) (now : Z) (w : World) : World :=
  if (currentIndex r =? 0)%nat && negb (truthy_time (startTime r))
  then with_state (fun s => with_isTimerRunning true (with_startTime (Some now) s)) w
  else w.

(** The effects write [displayPhrase], [typingPhrase] and [previousTime]
    and nothing else. *)
Record effects_frame (w w' : World) : Prop := {
  frame_currentSetKey : currentSetKey (state w') = currentSetKey (state w);
  frame_currentPhraseIndex :
    currentPhraseIndex (state w') = currentPhraseIndex (state w);
  frame_userInput : userInput (state w') = userInput (state w);
  frame_currentIndex : currentIndex (state w') = currentIndex (state w);
  frame_customPhrase : customPhrase (state w') = customPhrase (state w);
  frame_startTime : startTime (state w') = startTime (state w);
  frame_elapsedTime : elapsedTime (state w') = elapsedTime (state w);
  frame_isTimerRunning : isTimerRunning (state w') = isTimerRunning (state w);
  frame_enableKeyTTS : enableKeyTTS (state w') = enableKeyTTS (state w);
  frame_localStorage : localStorage w' = localStorage w;
  frame_spoken : spoken w' = spoken w;
  frame_timeouts : timeouts w' = timeouts w;
}.

(** The state a reset by navigation writes. *)
Definition navigated (index : number) (s : Session) : Session :=
  with_previousTime None
    (with_isTimerRunning false
       (with_elapsedTime 0
          (with_startTime None
             (with_currentIndex 0%nat
                (with_userInput [] (with_currentPhraseIndex index s)))))).

(** What has been typed is the part of the typing phrase before the cursor,
    and the cursor is within the phrase. *)
Definition typed_prefix (r : Session) : Prop :=
  userInput r = take (currentIndex r) (typingPhrase r)
  /\ (currentIndex r <= length (typingPhrase r))%nat.

(** What [speakLetter] adds to the speech for a key, and [speakPhrase] on
    completion. *)
Definition letterSpoken (r : Session) (key : jsstring) : list Utterance :=
  if enableKeyTTS r && speechSynthesis_in_window
  then [LetterUtterance (if decide (key = space) then js "space" else key)]
  else [].

Definition completionSpoken (r : Session) : list Utterance :=
  if speechSynthesis_in_window
  then [PhraseUtterance
          (completionText (elapsedTime r)
             (timeDifference (previousTime r) (elapsedTime r)))]
  else [].

(** The state [handleSetChange] and [handlePhraseSubmit] write. *)
Definition selected (newSetKey : jsstring) (s : Session) : Session :=
  with_isTimerRunning false
    (with_elapsedTime 0
       (with_startTime None
          (with_currentIndex 0%nat
             (with_userInput []
                (with_currentPhraseIndex (Num 0)
                   (with_currentSetKey newSetKey s)))))).

Definition submitted (phraseData : Phrase) (previous : option number)
  (s : Session) : Session :=
  with_previousTime previous
    (with_isTimerRunning false
       (with_elapsedTime 0
          (with_startTime None
             (with_customPhrase []
                (with_currentIndex 0%nat
                   (with_userInput []
                      (with_typingPhrase (typing phraseData)
                         (with_displayPhrase (display phraseData) s)))))))).

(** The world each callback leaves, case by case. *)
Inductive handled (w : World) : Event -> World -> Prop :=
| handled_key_undefined key now :
    typingPhrase (state w) !! currentIndex (state w) = None ->
    handled w (KeyDown key now) (startTimerOnFirstKey (state w) now w)
| handled_key_rejected key now c :
    typingPhrase (state w) !! currentIndex (state w) = Some c ->
    toLowerCase key <> toLowerCase [c] ->
    handled w (KeyDown key now) (startTimerOnFirstKey (state w) now w)
| handled_key_accepted key now c :
    typingPhrase (state w) !! currentIndex (state w) = Some c ->
    toLowerCase key = toLowerCase [c] ->
    (currentIndex (state w) + 1)%nat <> length (typingPhrase (state w)) ->
    handled w (KeyDown key now)
      (let w0 := startTimerOnFirstKey (state w) now w in
       {| state := with_currentIndex (currentIndex (state w) + 1)%nat
                     (with_userInput (userInput (state w) ++ [c]) (state w0));
          localStorage := localStorage w0;
          spoken := spoken w0 ++ letterSpoken (state w) key;
          timeouts := timeouts w0 |})
| handled_key_completed key now c :
    typingPhrase (state w) !! currentIndex (state w) = Some c ->
    toLowerCase key = toLowerCase [c] ->
    (currentIndex (state w) + 1)%nat = length (typingPhrase (state w)) ->
    handled w (KeyDown key now)
      (let w0 := startTimerOnFirstKey (state w) now w in
       {| state := with_isTimerRunning false
                     (with_currentIndex (currentIndex (state w) + 1)%nat
                        (with_userInput (userInput (state w) ++ [c]) (state w0)));
          localStorage :=
            <[typingTimeKey (typingPhrase (state w))
                := Z_toString (elapsedTime (state w))]> (localStorage w0);
          spoken := (spoken w0 ++ letterSpoken (state w) key)
                      ++ completionSpoken (state w);
          timeouts := timeouts w0 ++ [{| closure := state w; delay := 3000 |}] |})
| handled_next_unknown :
    availableSets !! currentSetKey (state w) = None ->
    handled w ClickNext w
| handled_next currentSet :
    availableSets !! currentSetKey (state w) = Some currentSet ->
    handled w ClickNext
      (with_state
         (navigated (number_rem (number_add (currentPhraseIndex (state w)) (Num 1))
                       (Num (Z.of_nat (length (phrases currentSet)))))) w)
| handled_previous_unknown :
    availableSets !! currentSetKey (state w) = None ->
    handled w ClickPrevious w
| handled_previous currentSet :
    availableSets !! currentSetKey (state w) = Some currentSet ->
    handled w ClickPrevious
      (with_state
         (navigated
            (number_rem
               (number_add (number_sub (currentPhraseIndex (state w)) (Num 1))
                  (Num (Z.of_nat (length (phrases currentSet)))))
               (Num (Z.of_nat (length (phrases currentSet)))))) w)
| handled_select value :
    handled w (SelectSet value) (with_state (selected value) w)
| handled_edit value :
    handled w (EditCustomPhrase value) (with_state (with_customPhrase value) w)
| handled_submit_blank :
    trim (customPhrase (state w)) = [] ->
    handled w SubmitPhrase w
| handled_submit :
    trim (customPhrase (state w)) <> [] ->
    handled w SubmitPhrase
      (with_state
         (submitted (setupPhrase (trim (customPhrase (state w))))
            (storedTime (localStorage w)
               (typing (setupPhrase (trim (customPhrase (state w))))))) w)
| handled_toggle :
    handled w ToggleKeyTTS
      (with_state (with_enableKeyTTS (negb (enableKeyTTS (state w)))) w)
| handled_tick_idle now :
    isTimerRunning (state w) = false \/ truthy_time (startTime (state w)) = false ->
    handled w (IntervalTick now) w
| handled_tick now start :
    isTimerRunning (state w) = true ->
    startTime (state w) = Some start ->
    start <> 0 ->
    handled w (IntervalTick now)
      (with_state (with_elapsedTime ((now - start) / 1000)) w)
| handled_timeout_none :
    timeouts w = [] ->
    handled w TimeoutFires w
| handled_timeout_unknown t pending :
    timeouts w = t :: pending ->
    availableSets !! currentSetKey (closure t) = None ->
    handled w TimeoutFires (with_timeouts pending w)
| handled_timeout t pending currentSet :
    timeouts w = t :: pending ->
    availableSets !! currentSetKey (closure t) = Some currentSet ->
    handled w TimeoutFires
      (with_state
         (navigated (number_rem (number_add (currentPhraseIndex (closure t)) (Num 1))
                       (Num (Z.of_nat (length (phrases currentSet))))))
         (with_timeouts pending w)).

(** The display form and the typing form belong together. *)
Definition phrases_agree (r : Session) : Prop :=
  typingPhrase r = typing (setupPhrase (displayPhrase r)).

(** What holds of the session in every world the component can be in: the
    two forms of the phrase belong together; while the timer runs there is a
    start time and a character left to type (unless the typing phrase is
    empty); without a start time the session is untouched; every pending
    timeout waits 3000 ms and was armed one character before the end. *)
Record session_invariant (w : World) : Prop := {
  inv_phrases : phrases_agree (state w);
  inv_prefix : typed_prefix (state w);
  inv_running :
    isTimerRunning (state w) = true ->
    is_Some (startTime (state w))
    /\ ((currentIndex (state w) < length (typingPhrase (state w)))%nat
        \/ typingPhrase (state w) = []);
  inv_idle :
    startTime (state w) = None ->
    currentIndex (state w) = 0%nat /\ userInput (state w) = []
    /\ elapsedTime (state w) = 0 /\ isTimerRunning (state w) = false;
  inv_timeouts :
    Forall (fun t => delay t = 3000
                     /\ S (currentIndex (closure t))
                        = length (typingPhrase (closure t)))
           (timeouts w);
}.

(** *** What the render computes for the keyboard

    [nextChar] and [keyPosition] of the component body, and the two tests of
    [renderKey] that paint a key as the active one. *)
Definition nextChar (r : Session) : option jsstring :=
  if (currentIndex r <? length (typingPhrase r))%nat
  then charAt (typingPhrase r) (currentIndex r)
  else None.

Definition keyPosition (r : Session) : option KeyPosition :=
  match nextChar r with
  | Some char => if truthy_string char then findKeyPosition toLowerCase char else None
  | None => None
  end.

Definition isActive (r : Session) (row column : nat) : bool :=
  match keyPosition r with
  | Some pos => (rowIndex pos =? row)%nat && (keyIndex pos =? column)%nat
  | None => false
  end.

Definition isShiftActive (r : Session) (key : jsstring) : bool :=
  match nextChar r, shiftVersion key with
  | Some char, Some shifted => bool_decide (char = shifted)
  | _, _ => false
  end.

(** The events the page produces: the selector lists the keys of
    [availableSets] as its options, so a change of set names one of them. *)
Definition offered (e : Event) : Prop :=
  match e with
  | SelectSet value => is_Some (availableSets !! value)
  | _ => True
  end.

(** The worlds the page leads to. *)
Inductive reachable_by_page : World -> Prop :=
| page_mount storage tts : reachable_by_page (mount storage tts)
| page_step w e :
    reachable_by_page w -> offered e -> reachable_by_page (step w e).

(* =================================================================== *)
(** ** What the render cycle leaves alone *)
(* =================================================================== *)

Lemma effects_frame_refl w : effects_frame w w.
Proof. by split. Qed.

Lemma effects_frame_trans w1 w2 w3 :
  effects_frame w1 w2 -> effects_frame w2 w3 -> effects_frame w1 w3.
Proof. intros [] []; split; congruence. Qed.

Ltac run_eff :=
  unfold loadPreviousTime, effect_loadPreviousTime, effect_loadPhrase,
    speakLetter, speakPhrase, speechSynthesis_speak, setTimeout,
    localStorage_getItem, localStorage_setItem,
    setCurrentSetKey, setCurrentPhraseIndex, setDisplayPhrase,
    setTypingPhrase, setUserInput, setCurrentIndex, setCustomPhrase,
    setStartTime, setElapsedTime, setIsTimerRunning, setPreviousTime,
    setEnableKeyTTS, setState, bind, ret, throw in *;
  cbv beta iota zeta in *;
  cbn [fst snd state localStorage spoken timeouts
       with_state with_localStorage with_spoken with_timeouts] in *.

Lemma loadPreviousTime_frame p w :
  effects_frame w (snd (loadPreviousTime p w))
  /\ typingPhrase (state (snd (loadPreviousTime p w))) = typingPhrase (state w).
Proof.
  run_eff. destruct (localStorage w !! typingTimeKey p) as [saved|]; simpl.
  - destruct (truthy_string saved); simpl; by split.
  - by split.
Qed.

Lemma effect_loadPhrase_frame r w :
  effects_frame w (snd (effect_loadPhrase r w)).
Proof.
  unfold effect_loadPhrase.
  destruct (truthy_string (currentSetKey r)); [|apply effects_frame_refl].
  destruct (availableSets !! currentSetKey r) as [currentSet|];
    [|apply effects_frame_refl].
  destruct (0 <? length (phrases currentSet))%nat; [|apply effects_frame_refl].
  destruct (phraseAt _ _); [|apply effects_frame_refl].
  unfold setDisplayPhrase, setTypingPhrase, setState, bind.
  cbn [snd fst]. split; reflexivity.
Qed.

Lemma runEffects_frame prev r w :
  effects_frame w (snd (runEffects prev r w)).
Proof.
  unfold runEffects, bind.
  destruct (negb (bool_decide (_ /\ _))).
  - pose proof (effect_loadPhrase_frame r w) as H1.
    destruct (effect_loadPhrase r w) as [[[]|err] w1]; simpl in *; [|done].
    destruct (negb (bool_decide (typingPhrase r = _))); simpl; [|done].
    eapply effects_frame_trans; [done|]. apply loadPreviousTime_frame.
  - unfold ret. simpl.
    destruct (negb (bool_decide (typingPhrase r = _))); simpl.
    + apply loadPreviousTime_frame.
    + apply effects_frame_refl.
Qed.

Lemma commit_frame prev w : effects_frame w (snd (commit prev w)).
Proof.
  unfold commit.
  pose proof (runEffects_frame prev (state w) w) as H1.
  destruct (runEffects prev (state w) w) as [[[]|err] w1]; simpl in *; [|done].
  eapply effects_frame_trans; [done|]. apply runEffects_frame.
Qed.

(** When no dependency changed, the render runs no effect. *)
Lemma commit_nothing prev w :
  currentSetKey (state w) = currentSetKey prev ->
  currentPhraseIndex (state w) = currentPhraseIndex prev ->
  typingPhrase (state w) = typingPhrase prev ->
  commit prev w = (Normal tt, w).
Proof.
  intros Hk Hi Ht. unfold commit, runEffects, bind, ret.
  rewrite !bool_decide_eq_true_2 by done. simpl.
  by rewrite !bool_decide_eq_true_2 by done.
Qed.

(* =================================================================== *)
(** ** Keystrokes *)
(* =================================================================== *)

Ltac run_key :=
  unfold handleKeyPress, startTimerOnFirstKey; run_eff.

Lemma handleKeyPress_undefined r key now w :
  charAt (typingPhrase r) (currentIndex r) = None ->
  handleKeyPress r key now w = (Throw TypeError, startTimerOnFirstKey r now w).
Proof.
  intros Hc. run_key. rewrite Hc.
  by destruct ((currentIndex r =? 0)%nat && negb (truthy_time (startTime r))).
Qed.

Lemma handleKeyPress_reject r key now w expected :
  charAt (typingPhrase r) (currentIndex r) = Some expected ->
  toLowerCase key <> toLowerCase expected ->
  handleKeyPress r key now w = (Normal tt, startTimerOnFirstKey r now w).
Proof.
  intros Hc Hne. run_key. rewrite Hc.
  rewrite bool_decide_eq_false_2 by done.
  by destruct ((currentIndex r =? 0)%nat && negb (truthy_time (startTime r))).
Qed.

(** An accepted key that does not finish the phrase. *)
Lemma handleKeyPress_accept r key now w expected :
  charAt (typingPhrase r) (currentIndex r) = Some expected ->
  toLowerCase key = toLowerCase expected ->
  (currentIndex r + 1)%nat <> length (typingPhrase r) ->
  handleKeyPress r key now w =
    (Normal tt,
     with_state (fun s => with_currentIndex (currentIndex r + 1)%nat
                            (with_userInput (userInput r ++ expected) s))
       (snd ((when (enableKeyTTS r) then speakLetter key)
               (startTimerOnFirstKey r now w)))).
Proof.
  intros Hc He Hn. run_key. rewrite Hc.
  rewrite bool_decide_eq_true_2 by done.
  apply Nat.eqb_neq in Hn. rewrite Hn.
  destruct ((currentIndex r =? 0)%nat && negb (truthy_time (startTime r)));
    destruct (enableKeyTTS r); destruct speechSynthesis_in_window; reflexivity.
Qed.

(** The accepted key that finishes the phrase. *)
Lemma handleKeyPress_complete r key now w expected :
  charAt (typingPhrase r) (currentIndex r) = Some expected ->
  toLowerCase key = toLowerCase expected ->
  (currentIndex r + 1)%nat = length (typingPhrase r) ->
  handleKeyPress r key now w =
    (Normal tt,
     let w1 := snd ((when (enableKeyTTS r) then speakLetter key)
                      (startTimerOnFirstKey r now w)) in
     let w2 :=
       with_state (fun s => with_isTimerRunning false
                              (with_currentIndex (currentIndex r + 1)%nat
                                 (with_userInput (userInput r ++ expected) s)))
                  w1 in
     let w3 :=
       with_localStorage
         (<[typingTimeKey (typingPhrase r) := Z_toString (elapsedTime r)]>
            (localStorage w2)) w2 in
     let w4 :=
       snd (speakPhrase
              (completionText (elapsedTime r)
                 (timeDifference (previousTime r) (elapsedTime r))) w3) in
     with_timeouts (timeouts w4 ++ [{| closure := r; delay := 3000 |}]) w4).
Proof.
  intros Hc He Hn. run_key. rewrite Hc.
  rewrite bool_decide_eq_true_2 by done.
  apply Nat.eqb_eq in Hn. rewrite Hn.
  destruct ((currentIndex r =? 0)%nat && negb (truthy_time (startTime r)));
    destruct (enableKeyTTS r); destruct speechSynthesis_in_window; reflexivity.
Qed.

(** A keystroke touches neither the current set, nor the phrase index, nor
    the typing phrase, so the render after it runs no effect. *)
Lemma handleKeyPress_keeps_phrase r key now w :
  let w1 := snd (handleKeyPress r key now w) in
  currentSetKey (state w1) = currentSetKey (state w)
  /\ currentPhraseIndex (state w1) = currentPhraseIndex (state w)
  /\ typingPhrase (state w1) = typingPhrase (state w).
Proof.
  run_key.
  destruct ((currentIndex r =? 0)%nat && negb (truthy_time (startTime r)));
    simpl; destruct (charAt _ _); simpl; try done;
    destruct (bool_decide _); simpl; try done;
    destruct (enableKeyTTS r); destruct speechSynthesis_in_window; simpl;
    destruct (_ =? _)%nat; simpl; done.
Qed.

Lemma dispatch_KeyDown key now w :
  dispatch (KeyDown key now) w = handleKeyPress (state w) key now w.
Proof.
  unfold dispatch. simpl.
  pose proof (handleKeyPress_keeps_phrase (state w) key now w) as (Hk & Hi & Ht).
  destruct (handleKeyPress (state w) key now w) as [[[]|[]] w1]; simpl in *.
  - by apply commit_nothing.
  - by rewrite commit_nothing.
Qed.

Lemma step_commit w e :
  step w e = snd (commit (state w) (snd (handle (state w) e w))).
Proof.
  unfold step, dispatch.
  by destruct (handle (state w) e w) as [[[]|err] w1].
Qed.

Lemma charAt_lookup (p : jsstring) (i : nat) (c : N) :
  p !! i = Some c -> charAt p i = Some [c].
Proof. unfold charAt. by intros ->. Qed.

Lemma charAt_past_end (p : jsstring) (i : nat) :
  (length p <= i)%nat -> charAt p i = None.
Proof. intros H. unfold charAt. by rewrite lookup_ge_None_2. Qed.

Lemma with_spoken_nil w : with_spoken (spoken w ++ []) w = w.
Proof. destruct w. unfold with_spoken. simpl. by rewrite app_nil_r. Qed.

(** Speaking only extends the list of utterances. *)
Lemma speakPhrase_world text w :
  snd (speakPhrase text w) =
    with_spoken (spoken w ++ if speechSynthesis_in_window
                             then [PhraseUtterance text] else []) w.
Proof.
  unfold speakPhrase, speechSynthesis_speak, ret.
  destruct speechSynthesis_in_window; simpl; [done|by rewrite with_spoken_nil].
Qed.

Lemma speakLetter_world (enabled : bool) key w :
  snd ((when enabled then speakLetter key) w) =
    with_spoken
      (spoken w ++ if enabled && speechSynthesis_in_window
                   then [LetterUtterance (if decide (key = space)
                                          then js "space" else key)]
                   else []) w.
Proof.
  unfold speakLetter, speechSynthesis_speak, ret.
  destruct enabled, speechSynthesis_in_window; simpl;
    by rewrite ?with_spoken_nil.
Qed.

Lemma startTimerOnFirstKey_keeps r now w :
  let w' := startTimerOnFirstKey r now w in
  userInput (state w') = userInput (state w)
  /\ currentIndex (state w') = currentIndex (state w)
  /\ elapsedTime (state w') = elapsedTime (state w)
  /\ typingPhrase (state w') = typingPhrase (state w)
  /\ localStorage w' = localStorage w
  /\ spoken w' = spoken w
  /\ timeouts w' = timeouts w.
Proof. unfold startTimerOnFirstKey. by destruct (_ && _). Qed.

(** C1. With the cursor inside the typing phrase, a key is accepted exactly
    when its lower-case form equals the lower-case form of the phrase's
    character at the cursor: then that character of the phrase (not the typed
    one) is appended to [userInput] and the cursor goes up by one; otherwise
    neither changes.  The handler returns normally in both cases. *)
Theorem handleKeyPress_accepts_iff_match (w : World) (key : jsstring) (now : Z) :
  let r := state w in
  (currentIndex r < length (typingPhrase r))%nat ->
  exists expected : N,
    typingPhrase r !! currentIndex r = Some expected
    /\ let r' := state (step w (KeyDown key now)) in
       (toLowerCase key = toLowerCase [expected] ->
          userInput r' = userInput r ++ [expected]
          /\ currentIndex r' = S (currentIndex r))
       /\ (toLowerCase key <> toLowerCase [expected] ->
          userInput r' = userInput r /\ currentIndex r' = currentIndex r)
       /\ fst (dispatch (KeyDown key now) w) = Normal tt.
Proof.
  intros r Hlt.
  destruct (lookup_lt_is_Some_2 _ _ Hlt) as [expected Hexp].
  exists expected. split; [done|].
  pose proof (charAt_lookup _ _ _ Hexp) as Hc.
  pose proof (startTimerOnFirstKey_keeps r now w) as (Hu & Hi & _).
  unfold step. rewrite dispatch_KeyDown. fold r.
  destruct (decide (toLowerCase key = toLowerCase [expected])) as [Heq|Hne].
  - destruct (decide ((currentIndex r + 1)%nat = length (typingPhrase r))) as [Hn|Hn].
    + rewrite (handleKeyPress_complete _ _ _ _ _ Hc Heq Hn).
      cbv zeta; cbn [snd fst].
      rewrite speakPhrase_world, speakLetter_world. simpl.
      repeat split; try done. lia.
    + rewrite (handleKeyPress_accept _ _ _ _ _ Hc Heq Hn).
      cbn [snd fst]. rewrite speakLetter_world. simpl.
      repeat split; try done. lia.
  - rewrite (handleKeyPress_reject _ _ _ _ _ Hc Hne). simpl.
    repeat split; try done.
Qed.

(** C2, amended.  A key that does not match the expected character leaves
    the cursor, [userInput], the elapsed time, the storage, the speech and the
    timeouts as they were, and the handler returns normally.  The start time
    and the running flag are as they were too, except when the cursor is 0 and
    no start time is set: then this key, although rejected, starts the timer. *)
Theorem rejected_key_only_starts_timer
  (w : World) (key : jsstring) (now : Z) (expected : N) :
  let r := state w in
  typingPhrase r !! currentIndex r = Some expected ->
  toLowerCase key <> toLowerCase [expected] ->
  let w' := step w (KeyDown key now) in
  fst (dispatch (KeyDown key now) w) = Normal tt
  /\ (currentIndex r = 0%nat /\ truthy_time (startTime r) = false ->
      w' = with_state (fun s => with_isTimerRunning true
                                  (with_startTime (Some now) s)) w)
  /\ (currentIndex r <> 0%nat \/ truthy_time (startTime r) = true -> w' = w)
  /\ currentIndex (state w') = currentIndex r
  /\ userInput (state w') = userInput r
  /\ elapsedTime (state w') = elapsedTime r.
Proof.
  intros r Hexp Hne w'. subst w'. unfold step.
  rewrite dispatch_KeyDown. fold r.
  rewrite (handleKeyPress_reject _ _ _ _ _ (charAt_lookup _ _ _ Hexp) Hne).
  simpl.
  pose proof (startTimerOnFirstKey_keeps r now w) as (Hu & Hi & He & _).
  repeat split; try done.
  - intros [H0 Ht]. unfold startTimerOnFirstKey. by rewrite H0, Ht.
  - intros H. unfold startTimerOnFirstKey.
    destruct (Nat.eqb_spec (currentIndex r) 0); simpl; [|done].
    destruct H as [H|H]; [done|]. by rewrite H.
Qed.

(** A key that is accepted short of the end of the phrase, or rejected,
    stores nothing and arms no timeout. *)
Lemma key_short_of_end_arms_nothing (w : World) (key : jsstring) (now : Z) :
  let r := state w in
  (currentIndex r + 1 < length (typingPhrase r))%nat ->
  let w' := step w (KeyDown key now) in
  timeouts w' = timeouts w /\ localStorage w' = localStorage w.
Proof.
  intros r Hlt w'. subst w'. unfold step. rewrite dispatch_KeyDown. fold r.
  pose proof (startTimerOnFirstKey_keeps r now w) as (_ & _ & _ & _ & Hs & _ & Hto).
  destruct (lookup_lt_is_Some_2 (typingPhrase r) (currentIndex r)) as [c Hexp]; [lia|].
  pose proof (charAt_lookup _ _ _ Hexp) as Hc.
  destruct (decide (toLowerCase key = toLowerCase [c])) as [Heq|Hne].
  - rewrite (handleKeyPress_accept _ _ _ _ _ Hc Heq) by lia.
    cbn [snd fst]. rewrite speakLetter_world. simpl. by split.
  - rewrite (handleKeyPress_reject _ _ _ _ _ Hc Hne). simpl. by split.
Qed.

(** The world after the key that completes the phrase. *)
Lemma step_complete (w : World) (key : jsstring) (now : Z) (expected : N) :
  let r := state w in
  typingPhrase r !! currentIndex r = Some expected ->
  toLowerCase key = toLowerCase [expected] ->
  S (currentIndex r) = length (typingPhrase r) ->
  step w (KeyDown key now) =
    let w0 := startTimerOnFirstKey r now w in
    {| state := with_isTimerRunning false
                  (with_currentIndex (currentIndex r + 1)%nat
                     (with_userInput (userInput r ++ [expected]) (state w0)));
       localStorage :=
         <[typingTimeKey (typingPhrase r) := Z_toString (elapsedTime r)]>
           (localStorage w0);
       spoken :=
         (spoken w0
            ++ (if enableKeyTTS r && speechSynthesis_in_window
                then [LetterUtterance (if decide (key = space)
                                       then js "space" else key)]
                else []))
           ++ (if speechSynthesis_in_window
               then [PhraseUtterance
                       (completionText (elapsedTime r)
                          (timeDifference (previousTime r) (elapsedTime r)))]
               else []);
       timeouts := timeouts w0 ++ [{| closure := r; delay := 3000 |}] |}.
Proof.
  intros r Hexp Heq Hlen. unfold step. rewrite dispatch_KeyDown. fold r.
  assert ((currentIndex r + 1)%nat = length (typingPhrase r)) as Hn by lia.
  rewrite (handleKeyPress_complete _ _ _ _ _ (charAt_lookup _ _ _ Hexp) Heq Hn).
  cbv zeta; cbn [snd fst].
  by rewrite speakPhrase_world, speakLetter_world.
Qed.

(** C10, as the code behaves.  With the cursor at (or past) the end of the
    typing phrase, the handler still reads [typingPhrase[currentIndex]]: the
    read is out of range and yields [undefined], and the call of
    [toLowerCase] on it throws.  Nothing is written when the cursor is not 0;
    on an empty typing phrase with no start time the timer is started before
    the throw. *)
Theorem handleKeyPress_reads_past_end (w : World) (key : jsstring) (now : Z) :
  let r := state w in
  (length (typingPhrase r) <= currentIndex r)%nat ->
  let w' := step w (KeyDown key now) in
  charAt (typingPhrase r) (currentIndex r) = None
  /\ fst (dispatch (KeyDown key now) w) = Throw TypeError
  /\ (currentIndex r <> 0%nat -> w' = w)
  /\ (currentIndex r = 0%nat -> truthy_time (startTime r) = false ->
      startTime (state w') = Some now /\ isTimerRunning (state w') = true).
Proof.
  intros r Hge w'. subst w'. unfold step.
  pose proof (charAt_past_end _ _ Hge) as Hc.
  rewrite dispatch_KeyDown. fold r.
  rewrite (handleKeyPress_undefined _ _ _ _ Hc). simpl.
  unfold startTimerOnFirstKey. repeat split; try done.
  - intros Hnz. apply Nat.eqb_neq in Hnz. by rewrite Hnz.
  - by rewrite H, H0.
  - by rewrite H, H0.
Qed.

(* =================================================================== *)
(** ** Every event *)
(* =================================================================== *)

Lemma goToNextPhrase_world r w :
  goToNextPhrase r w =
    (Normal tt,
     match availableSets !! currentSetKey r with
     | Some currentSet =>
         with_state
           (navigated (number_rem (number_add (currentPhraseIndex r) (Num 1))
                         (Num (Z.of_nat (length (phrases currentSet)))))) w
     | None => w
     end).
Proof. unfold goToNextPhrase. by destruct (availableSets !! _). Qed.

Lemma goToPrevPhrase_world r w :
  goToPrevPhrase r w =
    (Normal tt,
     match availableSets !! currentSetKey r with
     | Some currentSet =>
         let len := Num (Z.of_nat (length (phrases currentSet))) in
         with_state
           (navigated (number_rem
                         (number_add (number_sub (currentPhraseIndex r) (Num 1)) len)
                         len)) w
     | None => w
     end).
Proof. unfold goToPrevPhrase. by destruct (availableSets !! _). Qed.

Lemma handlePhraseSubmit_ignored r w :
  trim (customPhrase r) = [] -> handlePhraseSubmit r w = (Normal tt, w).
Proof. intros H. unfold handlePhraseSubmit. by rewrite H. Qed.

Lemma handlePhraseSubmit_world r w :
  trim (customPhrase r) <> [] ->
  let phraseData := setupPhrase (trim (customPhrase r)) in
  exists previous,
    handlePhraseSubmit r w =
      (Normal tt,
       with_state
         (fun s =>
            with_previousTime previous
              (with_isTimerRunning false
                 (with_elapsedTime 0
                    (with_startTime None
                       (with_customPhrase []
                          (with_currentIndex 0%nat
                             (with_userInput []
                                (with_typingPhrase (typing phraseData)
                                   (with_displayPhrase (display phraseData) s)))))))))
         w).
Proof.
  intros H. unfold handlePhraseSubmit.
  destruct (trim (customPhrase r)) as [|c l] eqn:Ht; [done|].
  change (truthy_string (c :: l)) with true.
  run_eff.
  destruct (localStorage w !! _) as [saved|];
    [destruct (truthy_string saved)|]; eexists; reflexivity.
Qed.

(** What a callback does to the cursor and to what was typed: it resets
    both, or it leaves the phrase alone and then either keeps both or accepts a
    key. *)
Lemma handle_cases w e :
  let r := state w in
  let r1 := state (snd (handle r e w)) in
  (currentIndex r1 = 0%nat /\ userInput r1 = [])
  \/ (currentSetKey r1 = currentSetKey r
      /\ currentPhraseIndex r1 = currentPhraseIndex r
      /\ typingPhrase r1 = typingPhrase r
      /\ ((currentIndex r1 = currentIndex r /\ userInput r1 = userInput r)
          \/ (exists c key now,
                e = KeyDown key now
                /\ typingPhrase r !! currentIndex r = Some c
                /\ toLowerCase key = toLowerCase [c]
                /\ currentIndex r1 = S (currentIndex r)
                /\ userInput r1 = userInput r ++ [c]))).
Proof.
  intros r r1. subst r1. destruct e as [key now| | |v|v| | |now|]; simpl.
  - (* KeyDown *)
    right.
    pose proof (handleKeyPress_keeps_phrase r key now w) as (Hk & Hi & Ht).
    split; [done|]. split; [done|]. split; [done|].
    pose proof (startTimerOnFirstKey_keeps r now w) as (Hu & Hc & _).
    destruct (typingPhrase r !! currentIndex r) as [c|] eqn:Hexp.
    + pose proof (charAt_lookup _ _ _ Hexp) as Hch.
      destruct (decide (toLowerCase key = toLowerCase [c])) as [Heq|Hne].
      * right. exists c, key, now.
        split; [done|]. split; [done|]. split; [done|].
        destruct (decide ((currentIndex r + 1)%nat = length (typingPhrase r))) as [Hn|Hn].
        -- rewrite (handleKeyPress_complete _ _ _ _ _ Hch Heq Hn).
           cbv zeta; cbn [snd fst].
           rewrite speakPhrase_world, speakLetter_world. simpl.
           split; [lia|done].
        -- rewrite (handleKeyPress_accept _ _ _ _ _ Hch Heq Hn).
           cbn [snd fst]. rewrite speakLetter_world. simpl.
           split; [lia|done].
      * left. by rewrite (handleKeyPress_reject _ _ _ _ _ Hch Hne).
    + left. rewrite handleKeyPress_undefined; [done|].
      unfold charAt. by rewrite Hexp.
  - (* ClickNext *)
    rewrite goToNextPhrase_world. simpl.
    destruct (availableSets !! _); [by left|right; tauto].
  - (* ClickPrevious *)
    rewrite goToPrevPhrase_world. simpl.
    destruct (availableSets !! _); [by left|right; tauto].
  - (* SelectSet *) by left.
  - (* EditCustomPhrase *) right; tauto.
  - (* SubmitPhrase *)
    destruct (decide (trim (customPhrase r) = [])) as [He|Hne].
    + rewrite handlePhraseSubmit_ignored by done. right; tauto.
    + destruct (handlePhraseSubmit_world r w Hne) as [previous ->]. by left.
  - (* ToggleKeyTTS *) right; tauto.
  - (* IntervalTick *)
    unfold intervalCallback. run_eff.
    destruct (isTimerRunning r), (truthy_time (startTime r)); right; tauto.
  - (* TimeoutFires *)
    destruct (timeouts w) as [|t pending]; [right; tauto|].
    rewrite goToNextPhrase_world. simpl.
    destruct (availableSets !! _); [by left|right; tauto].
Qed.

(** The same after the render that follows. *)
Lemma step_cases w e :
  let r := state w in
  let r' := state (step w e) in
  (currentIndex r' = 0%nat /\ userInput r' = [])
  \/ (typingPhrase r' = typingPhrase r
      /\ ((currentIndex r' = currentIndex r /\ userInput r' = userInput r)
          \/ (exists c key now,
                e = KeyDown key now
                /\ typingPhrase r !! currentIndex r = Some c
                /\ toLowerCase key = toLowerCase [c]
                /\ currentIndex r' = S (currentIndex r)
                /\ userInput r' = userInput r ++ [c]))).
Proof.
  intros r r'. subst r'. rewrite step_commit.
  destruct (handle_cases w e) as [[Hc Hu]|(Hk & Hi & Ht & Hrest)].
  - left. destruct (commit_frame (state w) (snd (handle (state w) e w))).
    split; congruence.
  - right. rewrite commit_nothing by done. simpl. by split.
Qed.

Lemma mount_fresh storage tts :
  currentIndex (state (mount storage tts)) = 0%nat
  /\ userInput (state (mount storage tts)) = [].
Proof.
  unfold mount.
  set (r0 := initialSession tts).
  set (w0 := {| state := r0; localStorage := storage; spoken := []; timeouts := [] |}).
  set (w1 := snd ((effect_loadPhrase r0;; effect_loadPreviousTime r0) w0)).
  assert (effects_frame w0 w1) as F1.
  { subst w1. unfold bind.
    pose proof (effect_loadPhrase_frame r0 w0) as F.
    destruct (effect_loadPhrase r0 w0) as [[[]|err] wa]; simpl in *; [|done].
    eapply effects_frame_trans; [done|]. apply loadPreviousTime_frame. }
  pose proof (runEffects_frame r0 (state w1) w1) as F2.
  destruct (effects_frame_trans _ _ _ F1 F2). by split.
Qed.

(** What was typed is always the part of the phrase before the cursor. *)
Lemma typed_prefix_step w e :
  typed_prefix (state w) -> typed_prefix (state (step w e)).
Proof.
  intros [Hp Hle]. unfold typed_prefix.
  destruct (step_cases w e) as [[Hc Hu]|[Ht [[Hc Hu]|(c & key & now & _ & Hexp & _ & Hc & Hu)]]].
  - rewrite Hc, Hu. simpl. split; [done|lia].
  - rewrite Ht, Hc, Hu. by split.
  - rewrite Ht, Hc, Hu. split.
    + rewrite (take_S_r _ _ _ Hexp). by rewrite <- Hp.
    + apply lookup_lt_Some in Hexp. lia.
Qed.

Lemma typed_prefix_reachable w : reachable w -> typed_prefix (state w).
Proof.
  induction 1 as [storage tts|w e _ IH].
  - destruct (mount_fresh storage tts) as [Hc Hu]. unfold typed_prefix.
    rewrite Hc, Hu. simpl. split; [done|lia].
  - by apply typed_prefix_step.
Qed.


(** C9. In every reachable world [userInput] is the prefix of the typing
    phrase that ends at the cursor. *)
Theorem userInput_is_typed_prefix (w : World) :
  reachable w ->
  userInput (state w) = take (currentIndex (state w)) (typingPhrase (state w)).
Proof. intros Hr. by destruct (typed_prefix_reachable _ Hr). Qed.

(** C4. When the current set has [n > 0] phrases and the phrase index [i] is
    within [0, n-1], Next moves the index to [(i + 1) mod n] and Previous to
    [(i - 1 + n) mod n]: Next on the last phrase gives 0 and Previous on the
    first gives [n - 1]. *)
Theorem navigation_wraps_around (w : World) (currentSet : PhraseSet) (i : Z) :
  let n := Z.of_nat (length (phrases currentSet)) in
  availableSets !! currentSetKey (state w) = Some currentSet ->
  currentPhraseIndex (state w) = Num i ->
  0 <= i < n ->
  let next := currentPhraseIndex (state (step w ClickNext)) in
  let previous := currentPhraseIndex (state (step w ClickPrevious)) in
  next = Num ((i + 1) mod n)
  /\ previous = Num ((i - 1 + n) mod n)
  /\ (i = n - 1 -> next = Num 0)
  /\ (i = 0 -> previous = Num (n - 1)).
Proof.
  intros n Hset Hidx Hi next previous.
  assert (next = Num ((i + 1) mod n)) as Hnext.
  { subst next. rewrite step_commit.
    rewrite (frame_currentPhraseIndex _ _ (commit_frame _ _)).
    simpl. rewrite goToNextPhrase_world, Hset, Hidx. simpl. fold n.
    destruct (Z.eqb_spec n 0); [lia|].
    by rewrite Z.rem_mod_nonneg by lia. }
  assert (previous = Num ((i - 1 + n) mod n)) as Hprev.
  { subst previous. rewrite step_commit.
    rewrite (frame_currentPhraseIndex _ _ (commit_frame _ _)).
    simpl. rewrite goToPrevPhrase_world, Hset, Hidx. simpl. fold n.
    destruct (Z.eqb_spec n 0); [lia|].
    by rewrite Z.rem_mod_nonneg by lia. }
  split; [done|]. split; [done|]. split.
  - intros ->. rewrite Hnext. f_equal.
    replace (n - 1 + 1) with n by lia. apply Z.mod_same. lia.
  - intros ->. rewrite Hprev. f_equal.
    replace (0 - 1 + n) with (n - 1) by lia. apply Z.mod_small. lia.
Qed.

(* =================================================================== *)
(** ** The keyboard locator *)
(* =================================================================== *)

Lemma find_app_first {A} (f : A -> bool) (l1 l2 : list A) :
  List.find f (l1 ++ l2) =
    match List.find f l1 with Some a => Some a | None => List.find f l2 end.
Proof.
  induction l1 as [|a l1 IH]; simpl; [done|]. by destruct (f a).
Qed.

Lemma indexOf_number_row (row : list jsstring) (r k : nat) (x : jsstring) :
  fst <$> List.find (fun cell => bool_decide (snd cell = x)) (number_row r k row)
  = (fun j => {| rowIndex := r; keyIndex := k + j |}) <$> indexOf row x.
Proof.
  revert k. induction row as [|key row IH]; intros k; simpl; [done|].
  destruct (decide (key = x)) as [->|Hne].
  - rewrite bool_decide_eq_true_2 by done. simpl. by rewrite Nat.add_0_r.
  - rewrite bool_decide_eq_false_2 by done. rewrite IH.
    destruct (indexOf row x) as [j|]; simpl; [|done].
    do 2 f_equal. lia.
Qed.

Lemma findInRows_number_rows (rows : list (list jsstring)) (r : nat) (x : jsstring) :
  findInRows rows r x
  = fst <$> List.find (fun cell => bool_decide (snd cell = x)) (number_rows r rows).
Proof.
  revert r. induction rows as [|row rows IH]; intros r; simpl; [done|].
  rewrite find_app_first.
  pose proof (indexOf_number_row row r 0 x) as Hrow.
  destruct (indexOf row x) as [j|]; simpl in Hrow.
  - destruct (List.find _ (number_row r 0 row)) as [cell|]; simpl in *; [|done].
    by inversion Hrow.
  - destruct (List.find _ (number_row r 0 row)) as [cell|]; simpl in *; [done|].
    apply IH.
Qed.

Lemma findInRows_first_cell (x : jsstring) :
  findInRows keyboardLayout 0 x = first_cell x.
Proof. apply findInRows_number_rows. Qed.

Lemma findShifted_find (entries : list (jsstring * jsstring)) (char : jsstring) :
  Forall (fun entry => is_Some (first_cell (fst entry))) entries ->
  findShifted entries char =
    match List.find (fun entry => bool_decide (snd entry = char)) entries with
    | Some entry => first_cell (fst entry)
    | None => None
    end.
Proof.
  induction 1 as [|[baseKey shiftSymbol] entries [pos Hpos] _ IH]; [done|].
  cbn [findShifted List.find fst snd] in *.
  destruct (decide (shiftSymbol = char)) as [->|Hne].
  - rewrite bool_decide_eq_true_2 by done.
    by rewrite findInRows_first_cell, Hpos.
  - by rewrite bool_decide_eq_false_2 by done.
Qed.

Lemma base_keys_in_layout :
  Forall (fun entry => is_Some (first_cell (fst entry))) shiftSymbolEntries.
Proof.
  unfold shiftSymbolEntries.
  repeat (apply Forall_cons_2; [vm_compute; by eexists|]).
  apply Forall_nil_2.
Qed.

Lemma In_number_row (row : list jsstring) (r k : nat) pos key :
  In (pos, key) (number_row r k row) ->
  rowIndex pos = r /\ (k <= keyIndex pos)%nat
  /\ row !! (keyIndex pos - k)%nat = Some key.
Proof.
  revert k. induction row as [|key' row IH]; intros k; simpl; [done|].
  intros [Heq|Hin].
  - inversion Heq; subst; simpl. by rewrite Nat.sub_diag.
  - destruct (IH _ Hin) as (Hr & Hk & Hl). split; [done|]. split; [lia|].
    by replace (keyIndex pos - k)%nat with (S (keyIndex pos - S k)) by lia.
Qed.

Lemma In_number_rows (rows : list (list jsstring)) (r : nat) pos key :
  In (pos, key) (number_rows r rows) ->
  (r <= rowIndex pos)%nat
  /\ exists row, rows !! (rowIndex pos - r)%nat = Some row
                 /\ row !! keyIndex pos = Some key.
Proof.
  revert r. induction rows as [|row rows IH]; intros r; simpl; [done|].
  intros Hin. apply in_app_or in Hin as [Hin|Hin].
  - destruct (In_number_row _ _ _ _ _ Hin) as (Hr & _ & Hl).
    rewrite Nat.sub_0_r in Hl. split; [lia|]. exists row.
    by rewrite Hr, Nat.sub_diag.
  - destruct (IH _ Hin) as (Hr & row' & Hrow & Hl). split; [lia|].
    exists row'. split; [|done].
    by replace (rowIndex pos - r)%nat with (S (rowIndex pos - S r)) by lia.
Qed.

(** The cell [first_cell] returns does carry the label it was asked for. *)
Lemma first_cell_holds (x : jsstring) pos :
  first_cell x = Some pos ->
  exists row, keyboardLayout !! rowIndex pos = Some row
              /\ row !! keyIndex pos = Some x.
Proof.
  unfold first_cell.
  destruct (List.find _ layout_cells) as [[pos' key]|] eqn:Hfind; [|done].
  simpl. intros [= <-].
  apply find_some in Hfind as [Hin Hkey]. simpl in Hkey.
  apply bool_decide_eq_true_1 in Hkey as ->.
  destruct (In_number_rows _ _ _ _ Hin) as (_ & row & Hrow & Hl).
  rewrite Nat.sub_0_r in Hrow. by exists row.
Qed.

(** C6. The locator returns the first cell, in row-major order, labelled with
    the lower-case form of the character; if there is none, the cell of the
    base key of the shift-table entry whose shifted value is the character
    itself; otherwise nothing.  A position it returns holds that label or
    that base key.  The at sign, which lower-casing leaves alone, is found at
    row 0, column 1, the cell of the key 2. *)
Theorem findKeyPosition_follows_spec (char : jsstring) :
  findKeyPosition toLowerCase char = locate_spec toLowerCase char
  /\ (forall pos, findKeyPosition toLowerCase char = Some pos ->
        exists row key,
          keyboardLayout !! rowIndex pos = Some row
          /\ row !! keyIndex pos = Some key
          /\ (key = toLowerCase char \/ In (key, char) shiftSymbolEntries))
  /\ (toLowerCase (js "@") = js "@" ->
      findKeyPosition toLowerCase (js "@") = Some {| rowIndex := 0; keyIndex := 1 |}
      /\ first_cell (js "2") = Some {| rowIndex := 0; keyIndex := 1 |}).
Proof.
  assert (findKeyPosition toLowerCase char = locate_spec toLowerCase char) as Hspec.
  { unfold findKeyPosition, locate_spec.
    rewrite findInRows_first_cell.
    destruct (first_cell (toLowerCase char)); [done|].
    apply findShifted_find, base_keys_in_layout. }
  split; [done|]. split.
  - intros pos. rewrite Hspec. unfold locate_spec.
    destruct (first_cell (toLowerCase char)) as [pos'|] eqn:Hfirst.
    + intros [= <-]. destruct (first_cell_holds _ _ Hfirst) as (row & Hrow & Hl).
      exists row, (toLowerCase char). by eauto.
    + destruct (List.find _ shiftSymbolEntries) as [[baseKey shiftSymbol]|] eqn:Hfind;
        [|done].
      apply find_some in Hfind as [Hin Hsym]. simpl in Hsym.
      apply bool_decide_eq_true_1 in Hsym as ->. simpl. intros Hbase.
      destruct (first_cell_holds _ _ Hbase) as (row & Hrow & Hl).
      exists row, baseKey. by eauto.
  - intros Hat. unfold findKeyPosition. rewrite Hat. by vm_compute.
Qed.

(* =================================================================== *)
(** ** The word under the cursor *)
(* =================================================================== *)

Lemma charAt_space (p : jsstring) (j : nat) :
  charAt p j = Some space <-> p !! j = Some 32%N.
Proof.
  unfold charAt, space. destruct (p !! j) as [c|]; simpl; [|done].
  split; intros H; inversion H; done.
Qed.

Lemma scanWordStart_spec (p : jsstring) (i : nat) :
  let wordStart := scanWordStart p i in
  (wordStart <= i)%nat
  /\ (wordStart = 0%nat \/ p !! (wordStart - 1)%nat = Some 32%N)
  /\ (forall j, (wordStart <= j < i)%nat -> p !! j <> Some 32%N).
Proof.
  induction i as [|i IH]; simpl.
  - split; [done|]. split; [by left|]. intros j Hj. lia.
  - destruct (decide (charAt p i <> Some space)) as [Hns|Hs].
    + destruct IH as (Hle & Hb & Hin). split; [lia|]. split; [done|].
      intros j Hj. destruct (decide (j = i)) as [->|Hne].
      * by rewrite <- charAt_space.
      * apply Hin. lia.
    + apply dec_stable in Hs. split; [done|]. split.
      * right. simpl. rewrite Nat.sub_0_r. by apply charAt_space.
      * intros j Hj. lia.
Qed.

Lemma scanWordEnd_spec (fuel : nat) (p : jsstring) (e : nat) :
  (length p - e <= fuel)%nat ->
  let wordEnd := scanWordEnd fuel p e in
  (e <= wordEnd)%nat
  /\ (wordEnd <= Nat.max e (length p))%nat
  /\ ((length p <= wordEnd)%nat \/ p !! wordEnd = Some 32%N)
  /\ (forall j, (e <= j < wordEnd)%nat -> p !! j <> Some 32%N).
Proof.
  revert e. induction fuel as [|fuel IH]; intros e Hfuel; simpl.
  - split; [done|]. split; [lia|]. split; [left; lia|]. intros j Hj. lia.
  - destruct (Nat.ltb_spec e (length p)) as [Hlt|Hge]; simpl.
    + destruct (bool_decide_reflect (charAt p e <> Some space)) as [Hns|Hs].
      * destruct (IH (S e)) as (Hle & Hmax & Hstop & Hin); [lia|].
        split; [lia|]. split; [lia|]. split; [done|].
        intros j Hj. destruct (decide (j = e)) as [->|Hne].
        -- by rewrite <- charAt_space.
        -- apply Hin. lia.
      * apply dec_stable in Hs. split; [done|]. split; [lia|]. split.
        -- right. by apply charAt_space.
        -- intros j Hj. lia.
    + split; [done|]. split; [lia|]. split; [by left|]. intros j Hj. lia.
Qed.

(** C7, amended.  With the cursor at or past the end, the word and the
    letters are empty.  Otherwise the word runs from the position after the
    space that precedes the cursor (or from the start) to the next space at or
    after the cursor (or to the end), and the letters are the characters of
    that word strictly after the cursor: the character under the cursor,
    although not typed yet, is not among them. *)
Theorem getCurrentWordInfo_scans_word (p : jsstring) (i : nat) :
  let info := getCurrentWordInfo p i in
  ((length p <= i)%nat -> currentWord info = [] /\ remainingLetters info = [])
  /\ ((i < length p)%nat ->
      exists wordStart wordEnd : nat,
        (wordStart <= i <= wordEnd)%nat /\ (wordEnd <= length p)%nat
        /\ (wordStart = 0%nat \/ p !! (wordStart - 1)%nat = Some 32%N)
        /\ (forall j, (wordStart <= j < i)%nat -> p !! j <> Some 32%N)
        /\ (wordEnd = length p \/ p !! wordEnd = Some 32%N)
        /\ (forall j, (i <= j < wordEnd)%nat -> p !! j <> Some 32%N)
        /\ currentWord info = take (wordEnd - wordStart) (drop wordStart p)
        /\ remainingLetters info =
             split_chars (take (wordEnd - (i + 1)) (drop (i + 1) p))).
Proof.
  intros info. subst info. unfold getCurrentWordInfo. split.
  - intros Hge. apply Nat.leb_le in Hge. by rewrite Hge.
  - intros Hlt. destruct (Nat.leb_spec (length p) i) as [Hge|_]; [lia|].
    destruct (scanWordStart_spec p i) as (Hs1 & Hs2 & Hs3).
    destruct (scanWordEnd_spec (length p - i) p i) as (He1 & He2 & He3 & He4);
      [done|].
    exists (scanWordStart p i), (scanWordEnd (length p - i) p i). simpl.
    split; [lia|]. split; [lia|]. split; [done|]. split; [done|].
    split; [destruct He3; [left; lia|by right]|]. split; [done|].
    unfold substring. split.
    + by rewrite Nat.min_l, Nat.max_r by lia.
    + destruct (Nat.ltb_spec i (scanWordEnd (length p - i) p i)) as [Hi|Hi].
      * by rewrite Nat.min_l, Nat.max_r by lia.
      * by replace (scanWordEnd (length p - i) p i - (i + 1))%nat with 0%nat by lia.
Qed.

(* =================================================================== *)
(** ** setupPhrase *)
(* =================================================================== *)

Lemma replace_all_app pat by_ (s1 s2 : jsstring) :
  replace_all pat by_ (s1 ++ s2) = replace_all pat by_ s1 ++ replace_all pat by_ s2.
Proof. unfold replace_all. apply flat_map_app. Qed.

(** The successive replacements on a whole phrase are the successive
    replacements on each of its code units. *)
Lemma replacements_unitwise (table : list (N * jsstring)) (p : jsstring) :
  fold_left (fun typingVersion '(display, typing) =>
               replace_all display typing typingVersion) table p
  = flat_map (fun c => fold_left (fun typingVersion '(display, typing) =>
                                    replace_all display typing typingVersion)
                         table [c]) p.
Proof.
  revert p. induction table as [|[k v] table IH]; intros p.
  - cbn [fold_left]. induction p as [|c p IHp]; [done|].
    cbn [flat_map]. by rewrite <- IHp.
  - cbn [fold_left]. rewrite IH.
    induction p as [|c p IHp]; [done|].
    change (c :: p) with ([c] ++ p).
    rewrite replace_all_app, !flat_map_app, IHp. f_equal.
    change (flat_map _ [c]) with
      (fold_left (fun typingVersion '(display, typing) =>
                    replace_all display typing typingVersion)
                 table (replace_all k v [c]) ++ []).
    rewrite app_nil_r. by rewrite (IH (replace_all k v [c])).
Qed.

Lemma replacements_miss (table : list (N * jsstring)) (c : N) :
  Forall (fun entry => fst entry <> c) table ->
  fold_left (fun typingVersion '(display, typing) =>
               replace_all display typing typingVersion) table [c] = [c].
Proof.
  induction 1 as [|[k v] table Hk _ IH]; [done|].
  cbn [fold_left]. simpl in Hk.
  replace (replace_all k v [c]) with [c]; [done|].
  unfold replace_all. cbn [flat_map].
  destruct (N.eqb_spec c k); [congruence|done].
Qed.

Lemma typable_miss (c : N) :
  Forall (fun entry => fst entry <> c) specialCharMap -> typable c = [c].
Proof.
  intros H. unfold typable.
  replace (List.find _ specialCharMap) with (@None (N * jsstring)); [done|].
  symmetry. induction H as [|[k v] table Hk _ IH]; [done|].
  cbn [List.find fst]. simpl in Hk.
  destruct (N.eqb_spec k c); [congruence|done].
Qed.

Lemma special_or_not (c : N) :
  In c (List.map fst specialCharMap)
  \/ Forall (fun entry => fst entry <> c) specialCharMap.
Proof.
  destruct (in_dec N.eq_dec c (List.map fst specialCharMap)) as [Hin|Hnin];
    [by left|right].
  apply List.Forall_forall. intros [k v] Hentry Heq. simpl in Heq. subst k.
  apply Hnin. by apply (in_map fst) in Hentry.
Qed.

Lemma is_special_false (c : N) :
  is_special c = false <-> Forall (fun entry => fst entry <> c) specialCharMap.
Proof.
  unfold is_special. split.
  - intros H. apply List.Forall_forall. intros entry Hin Heq.
    assert (existsb (fun entry => (fst entry =? c)%N) specialCharMap = true) as Ht.
    { apply existsb_exists. exists entry. split; [done|]. by apply N.eqb_eq. }
    congruence.
  - intros H. apply not_true_is_false. intros Ht.
    apply existsb_exists in Ht as (entry & Hin & Heq).
    apply N.eqb_eq in Heq.
    by apply (proj1 (List.Forall_forall _ _) H entry Hin).
Qed.

(** The fifteen replacements of [setupPhrase], one after the other, are one
    pass over the phrase. *)
Lemma setupPhrase_typing (p : jsstring) :
  typing (setupPhrase p) = flat_map typable p.
Proof.
  unfold setupPhrase. cbn [typing].
  rewrite replacements_unitwise.
  apply flat_map_ext. intros c.
  destruct (special_or_not c) as [Hin|Hmiss].
  - cbn in Hin. repeat (destruct Hin as [<-|Hin]; [by vm_compute|]). done.
  - by rewrite replacements_miss, typable_miss.
Qed.

(** X1. [setupPhrase] keeps the phrase as the display form, and its fifteen
    successive global replacements amount to one pass over the phrase in which
    every code unit is replaced by the value of its own table entry, or kept:
    no replacement is touched again by a later one. *)
Theorem setupPhrase_is_one_pass (p : jsstring) :
  display (setupPhrase p) = p
  /\ typing (setupPhrase p) = flat_map typable p.
Proof.
  split.
  - reflexivity.
  - apply setupPhrase_typing.
Qed.

Lemma typable_plain (c : N) :
  Forall (fun u => is_special u = false) (typable c)
  /\ length (typable c) = (if is_erased c then 0 else 1)%nat.
Proof.
  destruct (special_or_not c) as [Hin|Hmiss].
  - cbn in Hin.
    repeat (destruct Hin as [<-|Hin];
            [split; [vm_compute; repeat constructor|reflexivity]|]).
    done.
  - rewrite typable_miss by done. split.
    + constructor; [|constructor]. by apply is_special_false.
    + assert (is_erased c = false) as ->; [|done].
      apply is_special_false in Hmiss.
      unfold is_erased.
      destruct (N.eqb_spec c 8482) as [->|_]; [by vm_compute in Hmiss|].
      destruct (N.eqb_spec c 174) as [->|_]; [by vm_compute in Hmiss|].
      destruct (N.eqb_spec c 169) as [->|_]; [by vm_compute in Hmiss|].
      done.
Qed.

Lemma flat_map_typable_no_special (p : jsstring) :
  Forall (fun c => is_special c = false) (flat_map typable p).
Proof.
  induction p as [|c p IH]; [constructor|].
  cbn [flat_map]. apply Forall_app. split; [apply typable_plain|done].
Qed.

Lemma flat_map_typable_length (p : jsstring) :
  length (flat_map typable p)
  = length (List.filter (fun c => negb (is_erased c)) p).
Proof.
  induction p as [|c p IH]; [done|].
  cbn [flat_map List.filter]. rewrite length_app, IH.
  rewrite (proj2 (typable_plain c)).
  by destruct (is_erased c).
Qed.

(** X2. The typing form holds no code unit of the table any more, so setting
    it up again changes nothing; a phrase that holds none to begin with is
    its own typing form. *)
Theorem setupPhrase_leaves_no_special (p : jsstring) :
  Forall (fun c => is_special c = false) (typing (setupPhrase p))
  /\ typing (setupPhrase (typing (setupPhrase p))) = typing (setupPhrase p)
  /\ (Forall (fun c => is_special c = false) p -> typing (setupPhrase p) = p).
Proof.
  assert (forall q : jsstring,
            Forall (fun c => is_special c = false) q -> flat_map typable q = q)
    as Hplain.
  { induction 1 as [|c q Hc _ IH]; [done|].
    cbn [flat_map]. rewrite IH, typable_miss; [done|].
    by apply is_special_false. }
  assert (Forall (fun c => is_special c = false) (typing (setupPhrase p))) as Hno.
  { rewrite setupPhrase_typing. apply flat_map_typable_no_special. }
  split; [done|]. split.
  - rewrite (setupPhrase_typing (typing (setupPhrase p))).
    by apply Hplain.
  - intros Hp. rewrite setupPhrase_typing. by apply Hplain.
Qed.

(** X3. The typing form has one code unit for every code unit of the display
    form that is not a trade mark, registered or copyright sign: it is never
    longer than the display form, and as long exactly when the phrase holds
    none of the three.  Then the two forms agree position by position up to
    the table. *)
Theorem setupPhrase_length (p : jsstring) :
  length (typing (setupPhrase p))
    = length (List.filter (fun c => negb (is_erased c)) p)
  /\ (length (typing (setupPhrase p)) <= length (display (setupPhrase p)))%nat
  /\ (length (typing (setupPhrase p)) = length (display (setupPhrase p))
      <-> Forall (fun c => is_erased c = false) p)
  /\ (Forall (fun c => is_erased c = false) p ->
      forall i c, p !! i = Some c ->
                  charAt (typing (setupPhrase p)) i = Some (typable c)).
Proof.
  rewrite setupPhrase_typing.
  change (display (setupPhrase p)) with p.
  pose proof (flat_map_typable_length p) as Hlen.
  assert (length (List.filter (fun c => negb (is_erased c)) p) <= length p)%nat
    as Hle by apply List.filter_length_le.
  split; [done|]. split; [lia|]. split.
  - rewrite Hlen. clear Hlen Hle. induction p as [|c p IH]; [by split|].
    cbn [List.filter length].
    pose proof (List.filter_length_le (fun c => negb (is_erased c)) p) as Hle.
    destruct (is_erased c) eqn:Hc; cbn [negb length].
    + split; [lia|]. intros H. inversion H; congruence.
    + split.
      * intros H. constructor; [done|]. apply IH. lia.
      * intros H. inversion H; subst. f_equal. by apply IH.
  - clear Hlen Hle. induction 1 as [|c0 p Hc0 _ IH]; intros i c Hi; [done|].
    cbn [flat_map].
    pose proof (proj2 (typable_plain c0)) as Hl. rewrite Hc0 in Hl.
    destruct (typable c0) as [|u [|u' l]] eqn:Hty; try done.
    destruct i as [|i]; simpl in Hi.
    + injection Hi as <-. by rewrite Hty.
    + unfold charAt. simpl. by apply IH.
Qed.

(* =================================================================== *)
(** ** Every callback, case by case *)
(* =================================================================== *)

Lemma handle_handled (w : World) (e : Event) :
  handled w e (snd (handle (state w) e w)).
Proof.
  destruct e as [key now| | |value|value| | |now|]; cbn [handle].
  - destruct (typingPhrase (state w) !! currentIndex (state w)) as [c|] eqn:Hexp.
    + pose proof (charAt_lookup _ _ _ Hexp) as Hc.
      destruct (decide (toLowerCase key = toLowerCase [c])) as [Heq|Hne].
      * destruct (decide ((currentIndex (state w) + 1)%nat
                          = length (typingPhrase (state w)))) as [Hn|Hn].
        -- rewrite (handleKeyPress_complete _ _ _ _ _ Hc Heq Hn).
           cbv zeta; cbn [snd fst].
           rewrite speakPhrase_world, speakLetter_world.
           by apply (handled_key_completed w key now c).
        -- rewrite (handleKeyPress_accept _ _ _ _ _ Hc Heq Hn).
           cbn [snd fst]. rewrite speakLetter_world.
           by apply (handled_key_accepted w key now c).
      * rewrite (handleKeyPress_reject _ _ _ _ _ Hc Hne).
        by apply (handled_key_rejected w key now c).
    + rewrite handleKeyPress_undefined by (unfold charAt; by rewrite Hexp).
      by apply handled_key_undefined.
  - rewrite goToNextPhrase_world. cbn [snd].
    destruct (availableSets !! currentSetKey (state w)) as [currentSet|] eqn:Hset.
    + by apply handled_next.
    + by apply handled_next_unknown.
  - rewrite goToPrevPhrase_world. cbn [snd].
    destruct (availableSets !! currentSetKey (state w)) as [currentSet|] eqn:Hset.
    + by apply handled_previous.
    + by apply handled_previous_unknown.
  - apply handled_select.
  - apply handled_edit.
  - destruct (decide (trim (customPhrase (state w)) = [])) as [He|Hne].
    + rewrite handlePhraseSubmit_ignored by done. by apply handled_submit_blank.
    + unfold handlePhraseSubmit.
      destruct (trim (customPhrase (state w))) as [|c l] eqn:Ht; [done|].
      change (truthy_string (c :: l)) with true.
      run_eff. rewrite <- Ht in *.
      pose proof (handled_submit w Hne) as H.
      unfold storedTime in H.
      destruct (localStorage w !! _) as [saved|];
        [destruct (truthy_string saved)|]; exact H.
  - apply handled_toggle.
  - unfold intervalCallback. run_eff.
    destruct (isTimerRunning (state w)) eqn:Hrun; cbn [snd];
      [|apply handled_tick_idle; by left].
    destruct (startTime (state w)) as [start|] eqn:Hstart;
      cbn [truthy_time negb snd default];
      [|apply handled_tick_idle; right; by rewrite Hstart].
    destruct (Z.eqb_spec start 0) as [->|Hnz]; cbn [negb snd default].
    + apply handled_tick_idle. right. by rewrite Hstart.
    + by apply handled_tick.
  - destruct (timeouts w) as [|t pending] eqn:Ht.
    + by apply handled_timeout_none.
    + rewrite goToNextPhrase_world. cbn [snd].
      destruct (availableSets !! currentSetKey (closure t)) as [currentSet|] eqn:Hset.
      * by apply (handled_timeout w t pending).
      * by apply (handled_timeout_unknown w t pending).
Qed.

Lemma step_handled (w : World) (e : Event) :
  exists w1, handled w e w1 /\ step w e = snd (commit (state w) w1).
Proof.
  exists (snd (handle (state w) e w)). split; [apply handle_handled|].
  apply step_commit.
Qed.

Lemma loadPreviousTime_world (p : jsstring) (w : World) :
  loadPreviousTime p w =
    (Normal tt, with_state (with_previousTime (storedTime (localStorage w) p)) w).
Proof.
  unfold storedTime. run_eff.
  destruct (localStorage w !! typingTimeKey p) as [saved|];
    [destruct (truthy_string saved)|]; reflexivity.
Qed.

Lemma effect_loadPhrase_loads (r : Session) (w : World) currentSet phrase :
  currentSetKey r <> [] ->
  availableSets !! currentSetKey r = Some currentSet ->
  phraseAt (phrases currentSet) (currentPhraseIndex r) = Some phrase ->
  effect_loadPhrase r w =
    (Normal tt,
     with_state (fun s => with_typingPhrase (typing (setupPhrase phrase))
                            (with_displayPhrase phrase s)) w).
Proof.
  intros Hkey Hset Hphrase. unfold effect_loadPhrase.
  destruct (currentSetKey r) as [|c l] eqn:Hk; [done|].
  cbn [truthy_string]. rewrite Hset.
  destruct (phrases currentSet) as [|p0 ps] eqn:Hps.
  - destruct (currentPhraseIndex r) as [z|]; [|done].
    simpl in Hphrase. destruct (0 <=? z); [|done].
    by rewrite lookup_nil in Hphrase.
  - rewrite Hphrase. reflexivity.
Qed.

Lemma effect_loadPhrase_throws (r : Session) (w : World) currentSet :
  currentSetKey r <> [] ->
  availableSets !! currentSetKey r = Some currentSet ->
  phrases currentSet <> [] ->
  phraseAt (phrases currentSet) (currentPhraseIndex r) = None ->
  effect_loadPhrase r w = (Throw TypeError, w).
Proof.
  intros Hkey Hset Hne Hphrase. unfold effect_loadPhrase.
  destruct (currentSetKey r) as [|c l] eqn:Hk; [done|].
  cbn [truthy_string]. rewrite Hset.
  destruct (phrases currentSet) as [|p0 ps] eqn:Hps; [done|].
  by rewrite Hphrase.
Qed.

Lemma effect_loadPhrase_cases (r : Session) (w : World) :
  effect_loadPhrase r w = (Normal tt, w)
  \/ effect_loadPhrase r w = (Throw TypeError, w)
  \/ exists phrase,
       effect_loadPhrase r w =
         (Normal tt,
          with_state (fun s => with_typingPhrase (typing (setupPhrase phrase))
                                 (with_displayPhrase phrase s)) w).
Proof.
  unfold effect_loadPhrase.
  destruct (truthy_string (currentSetKey r)); [|by left].
  destruct (availableSets !! currentSetKey r) as [currentSet|]; [|by left].
  destruct (0 <? length (phrases currentSet))%nat; [|by left].
  destruct (phraseAt _ _) as [phrase|]; [|right; by left].
  right. right. by exists phrase.
Qed.

Lemma runEffects_phrases_agree (prev r : Session) (w : World) :
  phrases_agree (state w) -> phrases_agree (state (snd (runEffects prev r w))).
Proof.
  intros Hw. unfold runEffects, bind, effect_loadPreviousTime.
  destruct (negb (bool_decide (_ /\ _))).
  - destruct (effect_loadPhrase_cases r w) as [->|[->|[phrase ->]]];
      cbn [fst snd]; try done.
    + destruct (negb (bool_decide (typingPhrase r = _))); [|done].
      by rewrite loadPreviousTime_world.
    + destruct (negb (bool_decide (typingPhrase r = _)));
        [rewrite loadPreviousTime_world|]; by cbn.
  - unfold ret. destruct (negb (bool_decide (typingPhrase r = _))); [|done].
    by rewrite loadPreviousTime_world.
Qed.

Lemma commit_phrases_agree (prev : Session) (w : World) :
  phrases_agree (state w) -> phrases_agree (state (snd (commit prev w))).
Proof.
  intros Hw. unfold commit.
  pose proof (runEffects_phrases_agree prev (state w) w Hw) as H1.
  destruct (runEffects prev (state w) w) as [[[]|err] w1]; cbn [snd] in *; [|done].
  by apply runEffects_phrases_agree.
Qed.

Lemma startTimerOnFirstKey_state (r : Session) (now : Z) (w : World) :
  startTimerOnFirstKey r now w = w
  \/ (currentIndex r = 0%nat
      /\ startTimerOnFirstKey r now w
         = with_state (fun s => with_isTimerRunning true
                                  (with_startTime (Some now) s)) w).
Proof.
  unfold startTimerOnFirstKey.
  destruct (Nat.eqb_spec (currentIndex r) 0); cbn [andb]; [|by left].
  destruct (negb (truthy_time (startTime r))); [by right|by left].
Qed.

(** A callback either leaves the set, the index and both forms of the phrase
    alone, and then the render runs no effect, or it resets the session. *)
Lemma handled_quiet_or_reset (w : World) (e : Event) :
  let w1 := snd (handle (state w) e w) in
  (currentSetKey (state w1) = currentSetKey (state w)
   /\ currentPhraseIndex (state w1) = currentPhraseIndex (state w)
   /\ displayPhrase (state w1) = displayPhrase (state w)
   /\ typingPhrase (state w1) = typingPhrase (state w)
   /\ previousTime (state w1) = previousTime (state w)
   /\ step w e = w1)
  \/ (currentIndex (state w1) = 0%nat /\ userInput (state w1) = []
      /\ startTime (state w1) = None /\ elapsedTime (state w1) = 0
      /\ isTimerRunning (state w1) = false
      /\ (e = SubmitPhrase \/ e = ClickNext \/ e = ClickPrevious
          \/ e = TimeoutFires \/ exists value, e = SelectSet value)).
Proof.
  intros w1.
  assert (currentSetKey (state w1) = currentSetKey (state w)
          /\ currentPhraseIndex (state w1) = currentPhraseIndex (state w)
          /\ displayPhrase (state w1) = displayPhrase (state w)
          /\ typingPhrase (state w1) = typingPhrase (state w)
          /\ previousTime (state w1) = previousTime (state w) ->
          currentSetKey (state w1) = currentSetKey (state w)
          /\ currentPhraseIndex (state w1) = currentPhraseIndex (state w)
          /\ displayPhrase (state w1) = displayPhrase (state w)
          /\ typingPhrase (state w1) = typingPhrase (state w)
          /\ previousTime (state w1) = previousTime (state w)
          /\ step w e = w1) as Hquiet.
  { intros (Hk & Hi & Hd & Ht & Hp). repeat (split; [done|]).
    rewrite step_commit. fold w1. by rewrite commit_nothing. }
  pose proof (handle_handled w e) as H. fold w1 in H.
  clearbody w1. destruct H.
  all: try (left; apply Hquiet; cbn [state with_state with_timeouts];
            try (destruct (startTimerOnFirstKey_state (state w) now w)
                   as [->|[_ ->]]; cbn [state with_state]);
            by repeat split).
  all: right; repeat (split; [done|]); eauto 10.
Qed.

Lemma handled_phrases_agree (w : World) (e : Event) :
  phrases_agree (state w) ->
  phrases_agree (state (snd (handle (state w) e w))).
Proof.
  intros Hw. pose proof (handle_handled w e) as H.
  destruct H; try done.
  all: try (destruct (startTimerOnFirstKey_state (state w) now w)
              as [Hw0|[_ Hw0]]; cbv zeta; rewrite Hw0; done).
Qed.

(** Timeouts are armed by the completing key alone, one at a time, and leave
    only by firing, oldest first. *)
Lemma step_timeouts (w : World) (e : Event) :
  (timeouts (step w e) = timeouts w
   /\ (e = TimeoutFires -> timeouts w = []))
  \/ (e = TimeoutFires /\ exists t, timeouts w = t :: timeouts (step w e))
  \/ (timeouts (step w e)
        = timeouts w ++ [{| closure := state w; delay := 3000 |}]
      /\ exists key now c,
           e = KeyDown key now
           /\ typingPhrase (state w) !! currentIndex (state w) = Some c
           /\ toLowerCase key = toLowerCase [c]
           /\ S (currentIndex (state w)) = length (typingPhrase (state w))).
Proof.
  rewrite step_commit.
  rewrite (frame_timeouts _ _ (commit_frame _ _)).
  pose proof (handle_handled w e) as H.
  destruct H; cbn [timeouts with_state with_timeouts].
  all: try (destruct (startTimerOnFirstKey_state (state w) now w)
              as [Hw0|[_ Hw0]]; cbv zeta; rewrite Hw0;
            cbn [timeouts with_state with_timeouts]).
  all: try (left; split; [reflexivity|intros; done]).
  all: try (right; right; split; [reflexivity|];
            exists key, now, c; repeat split; try done; lia).
  all: try (right; left; split; [reflexivity|]; eexists; eassumption).
Qed.

Lemma startTimerOnFirstKey_cases (r : Session) (now : Z) (w : World) :
  (startTimerOnFirstKey r now w = w
   /\ (currentIndex r <> 0%nat \/ truthy_time (startTime r) = true))
  \/ (currentIndex r = 0%nat
      /\ startTimerOnFirstKey r now w
         = with_state (fun s => with_isTimerRunning true
                                  (with_startTime (Some now) s)) w).
Proof.
  unfold startTimerOnFirstKey.
  destruct (Nat.eqb_spec (currentIndex r) 0); cbn [andb]; [|left; tauto].
  destruct (truthy_time (startTime r)); cbn [negb]; [left; tauto|by right].
Qed.

Ltac timer_fields :=
  cbn [state with_state with_timeouts
       isTimerRunning startTime currentIndex userInput elapsedTime typingPhrase
       with_isTimerRunning with_startTime with_currentIndex
       with_userInput with_elapsedTime with_customPhrase
       with_enableKeyTTS with_previousTime with_typingPhrase
       with_displayPhrase with_currentPhraseIndex with_currentSetKey
       navigated selected submitted] in *.

Lemma step_timer_invariants (w : World) (e : Event) :
  session_invariant w ->
  (isTimerRunning (state (step w e)) = true ->
   is_Some (startTime (state (step w e)))
   /\ ((currentIndex (state (step w e)) < length (typingPhrase (state (step w e))))%nat
       \/ typingPhrase (state (step w e)) = []))
  /\ (startTime (state (step w e)) = None ->
      currentIndex (state (step w e)) = 0%nat /\ userInput (state (step w e)) = []
      /\ elapsedTime (state (step w e)) = 0
      /\ isTimerRunning (state (step w e)) = false).
Proof.
  intros [_ [_ Hle] Hrun Hidle _].
  destruct (handled_quiet_or_reset w e)
    as [(_ & _ & _ & _ & _ & ->)|(Hc & Hu & Hs & He & Hr & _)].
  - pose proof (handle_handled w e) as H.
    destruct H; cbv zeta.
    all: try (destruct (startTimerOnFirstKey_cases (state w) now w)
                as [[Hw0 Hwhy]|[Hzero Hw0]]; rewrite Hw0).
    all: timer_fields.
    all: try match goal with
           | Hl : typingPhrase _ !! _ = Some _ |- _ =>
               apply lookup_lt_Some in Hl
           | Hl : typingPhrase _ !! _ = None |- _ =>
               apply lookup_ge_None in Hl
           end.
    all: split;
      [ intros Ht;
        first [ discriminate Ht
              | split; [by eexists|]; first [left; lia|idtac]
              | destruct (Hrun Ht) as [? [?|?]]; split;
                [done|left; lia|done|by right] ]
      | intros Hn;
        first [ discriminate Hn
              | done
              | by apply Hidle
              | exfalso; destruct (Hidle Hn) as (? & ? & ? & ?);
                destruct Hwhy as [?|Hwhy]; [lia|];
                rewrite Hn in Hwhy; discriminate Hwhy
              | congruence ] ].
    + right. destruct (typingPhrase (state w)); [done|]. simpl in H. lia.
    + by destruct (Hrun Ht).
  - destruct (commit_frame (state w) (snd (handle (state w) e w)))
      as [_ _ Fu Fc _ Fs Fe Fr _ _ _ _].
    rewrite step_commit, Fu, Fc, Fs, Fe, Fr, Hc, Hu, Hs, He, Hr.
    split; [intros; done|intros; done].
Qed.

Lemma mount_frame (storage : gmap jsstring jsstring) (tts : bool) :
  effects_frame {| state := initialSession tts; localStorage := storage;
                   spoken := []; timeouts := [] |}
                (mount storage tts).
Proof.
  unfold mount.
  set (r0 := initialSession tts).
  set (w0 := {| state := r0; localStorage := storage; spoken := []; timeouts := [] |}).
  set (w1 := snd ((effect_loadPhrase r0;; effect_loadPreviousTime r0) w0)).
  assert (effects_frame w0 w1) as F1.
  { subst w1. unfold bind.
    pose proof (effect_loadPhrase_frame r0 w0) as F.
    destruct (effect_loadPhrase r0 w0) as [[[]|err] wa]; simpl in *; [|done].
    eapply effects_frame_trans; [done|]. apply loadPreviousTime_frame. }
  pose proof (runEffects_frame r0 (state w1) w1) as F2.
  by apply (effects_frame_trans _ _ _ F1 F2).
Qed.

Lemma mount_phrases_agree (storage : gmap jsstring jsstring) (tts : bool) :
  phrases_agree (state (mount storage tts)).
Proof.
  unfold mount. apply runEffects_phrases_agree.
  unfold bind, effect_loadPreviousTime.
  destruct (effect_loadPhrase_cases (initialSession tts)
              {| state := initialSession tts; localStorage := storage;
                 spoken := []; timeouts := [] |}) as [->|[->|[phrase ->]]];
    cbn [fst snd]; rewrite ?loadPreviousTime_world; by cbn.
Qed.

Lemma session_invariant_step (w : World) (e : Event) :
  session_invariant w -> session_invariant (step w e).
Proof.
  intros Inv.
  destruct (step_timer_invariants w e Inv) as [Hrun Hidle].
  split; [| |done|done|].
  - rewrite step_commit. apply commit_phrases_agree, handled_phrases_agree.
    apply Inv.
  - apply typed_prefix_step, Inv.
  - pose proof (inv_timeouts _ Inv) as Hto.
    destruct (step_timeouts w e) as [[-> _]|[[_ [t Ht]]|[-> (key & now & c & _ & _ & _ & Hend)]]].
    + done.
    + rewrite Ht in Hto. by inversion Hto.
    + apply Forall_app. split; [done|]. by repeat constructor.
Qed.

Lemma session_invariant_reachable (w : World) :
  reachable w -> session_invariant w.
Proof.
  induction 1 as [storage tts|w e _ IH]; [|by apply session_invariant_step].
  pose proof (typed_prefix_reachable _ (reachable_mount storage tts)) as Hp.
  destruct (mount_frame storage tts) as [_ _ Fu Fc _ Fs Fe Fr _ _ _ Fto].
  cbn in Fu, Fc, Fs, Fe, Fr, Fto.
  split; [apply mount_phrases_agree|done| | |].
  - rewrite Fr. intros; done.
  - by rewrite Fu, Fc, Fe, Fr.
  - rewrite Fto. constructor.
Qed.

(** The set key changes with the selector only. *)
Lemma step_currentSetKey (w : World) (e : Event) :
  currentSetKey (state (step w e)) = currentSetKey (state w)
  \/ e = SelectSet (currentSetKey (state (step w e))).
Proof.
  rewrite step_commit.
  rewrite (frame_currentSetKey _ _ (commit_frame _ _)).
  pose proof (handle_handled w e) as H.
  destruct H; cbv zeta; cbn [state with_state with_timeouts].
  all: try (destruct (startTimerOnFirstKey_state (state w) now w)
              as [Hw0|[_ Hw0]]; rewrite Hw0;
            cbn [state with_state with_timeouts]).
  all: first [by left | by right].
Qed.

(** On the page, when [familySet] is one of the sets, the set key of the
    state and the set key of every pending timeout name a set. *)
Lemma sets_known_by_page (w : World) :
  is_Some (availableSets !! js "familySet") ->
  reachable_by_page w ->
  is_Some (availableSets !! currentSetKey (state w))
  /\ Forall (fun t => is_Some (availableSets !! currentSetKey (closure t)))
            (timeouts w).
Proof.
  intros Hfamily. induction 1 as [storage tts|w e _ [Hkey Hpending] He].
  - destruct (mount_frame storage tts) as [-> _ _ _ _ _ _ _ _ _ _ ->].
    split; [exact Hfamily|constructor].
  - split.
    + destruct (step_currentSetKey w e) as [->|Hsel]; [done|].
      rewrite Hsel in He. exact He.
    + destruct (step_timeouts w e)
        as [[-> _]|[(_ & t & Ht)|[-> _]]]; [done| |].
      * rewrite Ht in Hpending. by apply Forall_cons in Hpending as [_ ?].
      * apply Forall_app_2; [done|]. by repeat constructor.
Qed.

(** C5.  A change of set always resets the session; Next, Previous and the
    automatic advance reset it when the set key they read names an available
    set; the submission of a custom phrase resets it when the phrase is not
    empty once trimmed.  Afterwards the cursor is 0, [userInput] is empty,
    there is no start time, the elapsed time is 0 and the timer is not
    running, whatever the state was.  On the page, where [familySet] is one
    of the sets and the selector offers the sets only, the set keys always
    name a set: there Next, Previous and the automatic advance reset the
    session in every state. *)
Theorem resets_clear_session (w : World) (e : Event) :
  let r' := state (step w e) in
  let cleared :=
    currentIndex r' = 0%nat
    /\ userInput r' = []
    /\ startTime r' = None
    /\ elapsedTime r' = 0
    /\ isTimerRunning r' = false in
  ((exists value, e = SelectSet value)
   \/ ((e = ClickNext \/ e = ClickPrevious)
       /\ is_Some (availableSets !! currentSetKey (state w)))
   \/ (e = SubmitPhrase /\ trim (customPhrase (state w)) <> [])
   \/ (e = TimeoutFires
       /\ exists t pending,
            timeouts w = t :: pending
            /\ is_Some (availableSets !! currentSetKey (closure t))) ->
   cleared)
  /\ (is_Some (availableSets !! js "familySet") ->
      reachable_by_page w ->
      (exists value, e = SelectSet value)
      \/ e = ClickNext \/ e = ClickPrevious
      \/ (e = SubmitPhrase /\ trim (customPhrase (state w)) <> [])
      \/ (e = TimeoutFires /\ timeouts w <> []) ->
      cleared).
Proof.
  intros r' cleared.
  assert ((exists value, e = SelectSet value)
          \/ ((e = ClickNext \/ e = ClickPrevious)
              /\ is_Some (availableSets !! currentSetKey (state w)))
          \/ (e = SubmitPhrase /\ trim (customPhrase (state w)) <> [])
          \/ (e = TimeoutFires
              /\ exists t pending,
                   timeouts w = t :: pending
                   /\ is_Some (availableSets !! currentSetKey (closure t))) ->
          cleared) as Hguarded.
  { intros He. subst cleared r'. rewrite step_commit.
    destruct (commit_frame (state w) (snd (handle (state w) e w)))
      as [_ _ -> -> _ -> -> -> _ _ _ _].
    destruct He as [[value ->]|[[[-> | ->] [currentSet Hset]]|[[-> Hne]|[-> (t & pending & Ht & [currentSet Hset])]]]];
      simpl.
    - done.
    - by rewrite goToNextPhrase_world, Hset.
    - by rewrite goToPrevPhrase_world, Hset.
    - by destruct (handlePhraseSubmit_world _ w Hne) as [previous ->].
    - by rewrite Ht, goToNextPhrase_world, Hset. }
  split; [exact Hguarded|].
  intros Hfamily Hpage He. apply Hguarded.
  destruct (sets_known_by_page w Hfamily Hpage) as [Hkey Hpending].
  destruct He as [Hsel|[->|[->|[Hsub|[-> Hto]]]]].
  - by left.
  - right. left. split; [by left|done].
  - right. left. split; [by right|done].
  - right. right. by left.
  - right. right. right. split; [done|].
    destruct (timeouts w) as [|t pending]; [done|].
    exists t, pending. split; [done|].
    by apply Forall_cons in Hpending as [? _].
Qed.

(** X4. In every world the component can be in, the typing phrase is the
    typing form of the phrase on display: it holds no code unit of the special
    character table and is never longer than the phrase on display. *)
Theorem typing_phrase_is_setup_of_display (w : World) :
  reachable w ->
  typingPhrase (state w) = typing (setupPhrase (displayPhrase (state w)))
  /\ Forall (fun c => is_special c = false) (typingPhrase (state w))
  /\ (length (typingPhrase (state w)) <= length (displayPhrase (state w)))%nat.
Proof.
  intros Hr. pose proof (inv_phrases _ (session_invariant_reachable _ Hr)) as H.
  unfold phrases_agree in H. rewrite H. split; [done|]. split.
  - rewrite setupPhrase_typing. apply flat_map_typable_no_special.
  - rewrite setupPhrase_typing, flat_map_typable_length.
    apply List.filter_length_le.
Qed.

(** X5. The timer never runs on a finished phrase: in every reachable world
    where it runs there is a start time and, unless the typing phrase is
    empty, a character left to type. *)
Theorem timer_runs_only_while_typing (w : World) :
  reachable w ->
  isTimerRunning (state w) = true ->
  is_Some (startTime (state w))
  /\ ((currentIndex (state w) < length (typingPhrase (state w)))%nat
      \/ typingPhrase (state w) = []).
Proof. intros Hr. apply (inv_running _ (session_invariant_reachable _ Hr)). Qed.

(** X6. In every reachable world without a start time nothing has been
    typed and the timer does not run; so once a character has been typed there
    is a start time.  Nothing is said of the elapsed time, which a tick of an
    interval armed by an earlier render may still write. *)
Theorem no_start_time_means_untouched (w : World) :
  reachable w ->
  (startTime (state w) = None ->
   currentIndex (state w) = 0%nat /\ userInput (state w) = []
   /\ isTimerRunning (state w) = false)
  /\ ((0 < currentIndex (state w))%nat -> is_Some (startTime (state w))).
Proof.
  intros Hr. pose proof (inv_idle _ (session_invariant_reachable _ Hr)) as H.
  split; [intros Hnone; by destruct (H Hnone) as (? & ? & _ & ?)|]. intros Hpos.
  destruct (startTime (state w)) as [t|]; [by eexists|].
  destruct (H eq_refl) as [Hc _]. lia.
Qed.

(** X7. Timeouts are armed by the completing key alone, one per completion,
    with the state of that render, and they leave by firing, oldest first: an
    event keeps the pending timeouts, or fires the oldest, or is the
    completing key and appends one.  In every reachable world each pending
    timeout waits 3000 ms and was armed one character before the end of its
    phrase. *)
Theorem timeouts_come_from_completions (w : World) (e : Event) :
  reachable w ->
  Forall (fun t => delay t = 3000
                   /\ S (currentIndex (closure t))
                      = length (typingPhrase (closure t)))
         (timeouts w)
  /\ ((timeouts (step w e) = timeouts w
       /\ (e = TimeoutFires -> timeouts w = []))
      \/ (e = TimeoutFires /\ exists t, timeouts w = t :: timeouts (step w e))
      \/ (timeouts (step w e)
            = timeouts w ++ [{| closure := state w; delay := 3000 |}]
          /\ exists key now c,
               e = KeyDown key now
               /\ typingPhrase (state w) !! currentIndex (state w) = Some c
               /\ toLowerCase key = toLowerCase [c]
               /\ S (currentIndex (state w)) = length (typingPhrase (state w)))).
Proof.
  intros Hr. split.
  - apply (inv_timeouts _ (session_invariant_reachable _ Hr)).
  - apply step_timeouts.
Qed.

(* =================================================================== *)
(** ** Stored times *)
(* =================================================================== *)

Lemma js_cons (c : ascii) (s : string) : js (String c s) = N_of_ascii c :: js s.
Proof. reflexivity. Qed.

Lemma parse_digits_acc (d : Decimal.uint) (acc : positive) :
  parse_digits (Some (Z.pos acc)) (js (NilEmpty.string_of_uint d))
  = Some (Z.pos (Pos.of_uint_acc d acc)).
Proof.
  revert acc. induction d; intros acc; [reflexivity|..];
    cbn [NilEmpty.string_of_uint Pos.of_uint_acc]; rewrite js_cons;
    cbn [parse_digits]; change (is_digit (N_of_ascii _)) with true; cbv iota;
    rewrite <- IHd; do 2 f_equal; cbn [default]; unfold id;
    match goal with
    | |- context [N_of_ascii ?c] =>
        let v := eval vm_compute in (Z.of_N (N_of_ascii c)) in
        change (Z.of_N (N_of_ascii c)) with v
    end; lia.
Qed.

Lemma parse_digits_uint (d : Decimal.uint) (acc : option Z) :
  default 0 acc = 0 ->
  parse_digits acc (js (NilEmpty.string_of_uint d))
  = match d with
    | Decimal.Nil => acc
    | _ => Some (Z.of_N (Pos.of_uint d))
    end.
Proof.
  revert acc. induction d; intros acc Hacc; [reflexivity|..];
    cbn [NilEmpty.string_of_uint Pos.of_uint]; rewrite js_cons;
    cbn [parse_digits]; change (is_digit (N_of_ascii _)) with true; cbv iota;
    rewrite Hacc.
  - rewrite (IHd (Some (10 * 0 + (Z.of_N (N_of_ascii "0") - 48)))) by reflexivity.
    by destruct d.
  - apply (parse_digits_acc d 1).
  - apply (parse_digits_acc d 2).
  - apply (parse_digits_acc d 3).
  - apply (parse_digits_acc d 4).
  - apply (parse_digits_acc d 5).
  - apply (parse_digits_acc d 6).
  - apply (parse_digits_acc d 7).
  - apply (parse_digits_acc d 8).
  - apply (parse_digits_acc d 9).
Qed.

Lemma digits_of_positive (p : positive) :
  exists c s, js (NilEmpty.string_of_uint (Pos.to_uint p)) = c :: s
              /\ is_digit c = true
              /\ NilZero.string_of_uint (Pos.to_uint p)
                 = NilEmpty.string_of_uint (Pos.to_uint p)
              /\ parse_digits None (c :: s) = Some (Z.pos p).
Proof.
  pose proof (DecimalPos.Unsigned.to_uint_nonnil p) as Hnil.
  pose proof (DecimalPos.Unsigned.of_to p) as Hof.
  pose proof (parse_digits_uint (Pos.to_uint p) None eq_refl) as Hparse.
  destruct (Pos.to_uint p) as [|d|d|d|d|d|d|d|d|d|d] eqn:Hd; [done|..];
    rewrite Hof in Hparse;
    cbn [NilEmpty.string_of_uint] in *; rewrite js_cons in *;
    eexists _, _; (split; [reflexivity|]); (split; [reflexivity|]);
    (split; [reflexivity|]); exact Hparse.
Qed.

Lemma parseInt10_digits (c : N) (s : jsstring) :
  is_digit c = true ->
  parseInt10 (c :: s)
  = match parse_digits None (c :: s) with Some v => Num v | None => NaN end.
Proof.
  intros Hc. unfold is_digit in Hc.
  apply andb_prop in Hc as [Hlo Hhi].
  apply N.leb_le in Hlo. apply N.leb_le in Hhi.
  assert (c = 48 \/ c = 49 \/ c = 50 \/ c = 51 \/ c = 52 \/ c = 53 \/ c = 54
          \/ c = 55 \/ c = 56 \/ c = 57)%N as Hcases by lia.
  unfold parseInt10.
  repeat (destruct Hcases as [->|Hcases]);
    try subst c; cbn [trimStart]; (change (is_whitespace _) with false); cbv iota;
    destruct (parse_digits None _) as [v|]; try reflexivity;
    f_equal; lia.
Qed.

(** A time written with [toString] is read back by [parseInt] as the same
    number, and the written string is never empty. *)
Lemma Z_toString_parses (z : Z) :
  parseInt10 (Z_toString z) = Num z /\ Z_toString z <> [].
Proof.
  destruct z as [|p|p]; [by vm_compute|..]; unfold Z_toString;
    cbn [Z.to_int NilZero.string_of_int];
    destruct (digits_of_positive p) as (c & s & Hs & Hc & Hz & Hparse);
    rewrite Hz, ?js_cons, Hs.
  - rewrite (parseInt10_digits c s Hc), Hparse. by split.
  - split; [|done].
    change (N_of_ascii "-") with 45%N.
    unfold parseInt10. cbn [trimStart].
    change (is_whitespace 45) with false. cbv iota.
    by rewrite Hparse.
Qed.

(** The second pass of the render runs nothing when the first changed neither
    the set, nor the index, nor the typing phrase. *)
Lemma commit_nothing_second (r : Session) (w : World) :
  currentSetKey (state w) = currentSetKey r ->
  currentPhraseIndex (state w) = currentPhraseIndex r ->
  typingPhrase (state w) = typingPhrase r ->
  runEffects r (state w) w = (Normal tt, w).
Proof.
  intros Hk Hi Ht. unfold runEffects, bind, ret.
  by rewrite !bool_decide_eq_true_2 by done.
Qed.

Lemma typingTimeKey_inj (p q : jsstring) :
  typingTimeKey p = typingTimeKey q -> p = q.
Proof. unfold typingTimeKey. apply app_inv_head. Qed.



(** X8. The time stored by the completing key is the time the component
    reads back for that typing phrase, whatever the elapsed time is; the
    times stored for other typing phrases are not touched. *)
Theorem completion_time_reads_back
  (w : World) (key : jsstring) (now : Z) (expected : N) :
  let r := state w in
  typingPhrase r !! currentIndex r = Some expected ->
  toLowerCase key = toLowerCase [expected] ->
  S (currentIndex r) = length (typingPhrase r) ->
  let w' := step w (KeyDown key now) in
  storedTime (localStorage w') (typingPhrase r) = Some (Num (elapsedTime r))
  /\ (forall p, p <> typingPhrase r ->
        storedTime (localStorage w') p = storedTime (localStorage w) p).
Proof.
  intros r Hexp Heq Hlen w'.
  pose proof (step_complete w key now expected Hexp Heq Hlen) as Hw'.
  fold r w' in Hw'. cbv zeta in Hw'.
  pose proof (startTimerOnFirstKey_keeps r now w) as (_ & _ & _ & _ & Hs & _ & _).
  rewrite Hw'. cbn [localStorage]. rewrite Hs.
  destruct (Z_toString_parses (elapsedTime r)) as [Hparse Hne].
  unfold storedTime. split.
  - rewrite lookup_insert_eq.
    destruct (Z_toString (elapsedTime r)) as [|c s] eqn:Hz; [done|].
    cbn [truthy_string]. by rewrite Hparse.
  - intros p Hp. rewrite lookup_insert_ne; [done|].
    intros Hk. apply typingTimeKey_inj in Hk. congruence.
Qed.

(** The first pass of the render: the phrase effect throws, or it leaves the
    world or loads a phrase, and then the previous time is read again when the
    typing phrase of the render differs from the one before. *)
Lemma runEffects_cases (prev r : Session) (w : World) :
  runEffects prev r w = (Throw TypeError, w)
  \/ exists wa,
       (wa = w
        \/ exists phrase,
             wa = with_state (fun s => with_typingPhrase (typing (setupPhrase phrase))
                                         (with_displayPhrase phrase s)) w)
       /\ runEffects prev r w =
            (Normal tt,
             if bool_decide (typingPhrase r = typingPhrase prev) then wa
             else with_state
                    (with_previousTime (storedTime (localStorage wa) (typingPhrase r)))
                    wa).
Proof.
  unfold runEffects, bind, ret, effect_loadPreviousTime.
  destruct (negb (bool_decide (_ /\ _))).
  - destruct (effect_loadPhrase_cases r w) as [->|[->|[phrase ->]]]; cbn [fst snd].
    + right. exists w. split; [by left|].
      destruct (bool_decide (typingPhrase r = typingPhrase prev)); cbn [negb];
        [done|by rewrite loadPreviousTime_world].
    + by left.
    + right. eexists. split; [right; by eexists|].
      destruct (bool_decide (typingPhrase r = typingPhrase prev)); cbn [negb];
        [done|by rewrite loadPreviousTime_world].
  - right. exists w. split; [by left|].
    destruct (bool_decide (typingPhrase r = typingPhrase prev)); cbn [negb];
      [done|by rewrite loadPreviousTime_world].
Qed.

(** The second pass: only the previous time can be read again. *)
Lemma runEffects_same_deps (r : Session) (w : World) :
  currentSetKey (state w) = currentSetKey r ->
  currentPhraseIndex (state w) = currentPhraseIndex r ->
  runEffects r (state w) w =
    (Normal tt,
     if bool_decide (typingPhrase (state w) = typingPhrase r) then w
     else with_state
            (with_previousTime
               (storedTime (localStorage w) (typingPhrase (state w)))) w).
Proof.
  intros Hk Hi. unfold runEffects, bind, ret, effect_loadPreviousTime.
  rewrite (bool_decide_eq_true_2 (_ /\ _)) by done. cbn [negb].
  destruct (bool_decide (typingPhrase (state w) = typingPhrase r)); cbn [negb];
    [done|by rewrite loadPreviousTime_world].
Qed.

(** After the render, the previous time is the stored one whenever the
    typing phrase is not the one of the render before. *)
Lemma commit_previousTime (prev : Session) (w : World) :
  typingPhrase (state w) = typingPhrase prev
  \/ previousTime (state w) = storedTime (localStorage w) (typingPhrase (state w)) ->
  typingPhrase (state (snd (commit prev w))) <> typingPhrase prev ->
  previousTime (state (snd (commit prev w)))
  = storedTime (localStorage (snd (commit prev w)))
               (typingPhrase (state (snd (commit prev w)))).
Proof.
  intros Hw. unfold commit.
  destruct (runEffects_cases prev (state w) w) as [->|(wa & Hwa & ->)].
  - cbn [snd]. intros Hchanged. destruct Hw as [Hw|Hw]; [congruence|done].
  - assert (currentSetKey (state wa) = currentSetKey (state w)
            /\ currentPhraseIndex (state wa) = currentPhraseIndex (state w)
            /\ localStorage wa = localStorage w) as (Hk & Hi & Hs).
    { destruct Hwa as [->|[phrase ->]]; by cbn. }
    destruct (bool_decide_reflect (typingPhrase (state w) = typingPhrase prev))
      as [Hsame|Hdiff].
    + rewrite (runEffects_same_deps (state w) wa Hk Hi).
      destruct (bool_decide_reflect (typingPhrase (state wa) = typingPhrase (state w)))
        as [Hsame2|Hdiff2]; cbn [snd].
      * intros Hchanged. congruence.
      * intros _. by cbn.
    + rewrite runEffects_same_deps by (by cbn).
      cbn [state with_state typingPhrase with_previousTime localStorage].
      destruct (bool_decide_reflect (typingPhrase (state wa) = typingPhrase (state w)))
        as [Hsame2|Hdiff2]; cbn [snd]; intros _.
      * cbn. by rewrite Hsame2.
      * by cbn.
Qed.

(** X9. Whenever an event changes the typing phrase, the previous time the
    session holds afterwards is the time stored for the new typing phrase (or
    none when none is stored), and the event has written nothing to the
    storage. *)
Theorem previous_time_follows_phrase (w : World) (e : Event) :
  typingPhrase (state (step w e)) <> typingPhrase (state w) ->
  previousTime (state (step w e))
  = storedTime (localStorage (step w e)) (typingPhrase (state (step w e)))
  /\ localStorage (step w e) = localStorage w.
Proof.
  intros Hchanged.
  destruct (handled_quiet_or_reset w e)
    as [(_ & _ & _ & Ht & _ & Hstep)|(_ & _ & _ & _ & _ & He)].
  { rewrite Hstep in Hchanged. congruence. }
  rewrite step_commit in *.
  pose proof (handle_handled w e) as H.
  set (w1 := snd (handle (state w) e w)) in *. clearbody w1.
  assert ((typingPhrase (state w1) = typingPhrase (state w)
           \/ previousTime (state w1)
              = storedTime (localStorage w1) (typingPhrase (state w1)))
          /\ localStorage w1 = localStorage w) as [Hw1 Hs].
  { destruct H;
      try (exfalso; destruct He as [He|[He|[He|[He|[? He]]]]]; discriminate He).
    all: split; [|reflexivity].
    all: first [left; reflexivity|right; reflexivity]. }
  split.
  - by apply commit_previousTime.
  - by rewrite (frame_localStorage _ _ (commit_frame _ _)).
Qed.

(** X10. Of the entries of the best times, which are what [localStorage]
    holds here, only the completing key writes one, the elapsed time under the
    key of the typing phrase: every other event leaves them as they are, and
    no event removes an entry. *)
Theorem storage_written_only_on_completion (w : World) (e : Event) :
  (localStorage (step w e) = localStorage w
   \/ exists key now c,
        e = KeyDown key now
        /\ typingPhrase (state w) !! currentIndex (state w) = Some c
        /\ toLowerCase key = toLowerCase [c]
        /\ S (currentIndex (state w)) = length (typingPhrase (state w))
        /\ localStorage (step w e)
           = <[typingTimeKey (typingPhrase (state w))
                 := Z_toString (elapsedTime (state w))]> (localStorage w))
  /\ (forall k, is_Some (localStorage w !! k) ->
                is_Some (localStorage (step w e) !! k)).
Proof.
  assert (localStorage (step w e) = localStorage w
          \/ exists key now c,
               e = KeyDown key now
               /\ typingPhrase (state w) !! currentIndex (state w) = Some c
               /\ toLowerCase key = toLowerCase [c]
               /\ S (currentIndex (state w)) = length (typingPhrase (state w))
               /\ localStorage (step w e)
                  = <[typingTimeKey (typingPhrase (state w))
                        := Z_toString (elapsedTime (state w))]> (localStorage w))
    as Hcases.
  { rewrite step_commit.
    rewrite (frame_localStorage _ _ (commit_frame _ _)).
    pose proof (handle_handled w e) as H.
    set (w1 := snd (handle (state w) e w)) in *. clearbody w1.
    destruct H; cbv zeta.
    all: try (destruct (startTimerOnFirstKey_state (state w) now w)
                as [Hw0|[_ Hw0]]; rewrite Hw0).
    all: cbn [localStorage with_state with_timeouts].
    all: first [left; reflexivity
               |right; exists key, now, c; repeat (split; [done|]);
                split; [lia|reflexivity]]. }
  split; [done|].
  intros k Hk. destruct Hcases as [->|(_ & _ & _ & _ & _ & _ & _ & ->)]; [done|].
  destruct (decide (typingTimeKey (typingPhrase (state w)) = k)) as [<-|Hne].
  - rewrite lookup_insert_eq. by eexists.
  - by rewrite lookup_insert_ne.
Qed.

(** X11. The component speaks only when a key is accepted: the letter, when
    the letter sound is on and the host can speak, and after it the completion
    sentence when the key finishes the phrase.  Every other event, a rejected
    key and a key past the end included, adds nothing to the speech. *)
Theorem speech_only_on_accepted_keys (w : World) (e : Event) :
  (forall key now c,
     e = KeyDown key now ->
     typingPhrase (state w) !! currentIndex (state w) = Some c ->
     toLowerCase key = toLowerCase [c] ->
     spoken (step w e)
     = spoken w ++ letterSpoken (state w) key
         ++ (if decide (S (currentIndex (state w)) = length (typingPhrase (state w)))
             then completionSpoken (state w) else []))
  /\ ((forall key now c,
         e = KeyDown key now ->
         typingPhrase (state w) !! currentIndex (state w) = Some c ->
         toLowerCase key <> toLowerCase [c]) ->
      spoken (step w e) = spoken w)
  /\ (speechSynthesis_in_window = false -> spoken (step w e) = spoken w).
Proof.
  rewrite step_commit.
  rewrite (frame_spoken _ _ (commit_frame _ _)).
  pose proof (handle_handled w e) as H.
  set (w1 := snd (handle (state w) e w)) in *. clearbody w1.
  destruct H; cbv zeta.
  all: try (destruct (startTimerOnFirstKey_state (state w) now w)
              as [Hw0|[_ Hw0]]; rewrite Hw0).
  all: cbn [spoken with_state with_timeouts].
  all: split; [|split].
  all: try (intros; reflexivity).
  all: try (intros key' now' c' [= <- <-] Hl Hm; congruence).
  all: try (intros key' now' c' [= <- <-] Hl Hm;
            case_decide; [lia|]; by rewrite app_nil_r).
  all: try (intros key' now' c' [= <- <-] Hl Hm;
            case_decide; [|lia]; by rewrite app_assoc).
  all: try (intros Hno; exfalso; by eapply Hno).
  all: try (intros Hsy; unfold letterSpoken, completionSpoken; rewrite Hsy;
            rewrite andb_false_r; by rewrite ?app_nil_r).
Qed.

(* =================================================================== *)
(** ** Navigation and the phrase on display *)
(* =================================================================== *)

Lemma step_ClickNext_index (w : World) (currentSet : PhraseSet) (i : Z) :
  let n := Z.of_nat (length (phrases currentSet)) in
  availableSets !! currentSetKey (state w) = Some currentSet ->
  currentPhraseIndex (state w) = Num i ->
  0 <= i < n ->
  currentPhraseIndex (state (step w ClickNext)) = Num ((i + 1) mod n)
  /\ currentSetKey (state (step w ClickNext)) = currentSetKey (state w).
Proof.
  intros n Hset Hidx Hi. rewrite step_commit.
  destruct (commit_frame (state w) (snd (handle (state w) ClickNext w)))
    as [-> -> _ _ _ _ _ _ _ _ _ _].
  cbn [handle]. rewrite goToNextPhrase_world, Hset, Hidx. cbn. fold n.
  destruct (Z.eqb_spec n 0); [lia|].
  by rewrite Z.rem_mod_nonneg by lia.
Qed.

Lemma step_ClickPrevious_index (w : World) (currentSet : PhraseSet) (i : Z) :
  let n := Z.of_nat (length (phrases currentSet)) in
  availableSets !! currentSetKey (state w) = Some currentSet ->
  currentPhraseIndex (state w) = Num i ->
  0 <= i < n ->
  currentPhraseIndex (state (step w ClickPrevious)) = Num ((i - 1 + n) mod n)
  /\ currentSetKey (state (step w ClickPrevious)) = currentSetKey (state w).
Proof.
  intros n Hset Hidx Hi. rewrite step_commit.
  destruct (commit_frame (state w) (snd (handle (state w) ClickPrevious w)))
    as [-> -> _ _ _ _ _ _ _ _ _ _].
  cbn [handle]. rewrite goToPrevPhrase_world, Hset, Hidx. cbn. fold n.
  destruct (Z.eqb_spec n 0); [lia|].
  by rewrite Z.rem_mod_nonneg by lia.
Qed.

(** X12. Within a set of [n > 0] phrases, Previous undoes Next and Next
    undoes Previous on the phrase index, [k] clicks on Next move the index from
    [i] to [(i + k) mod n], and [n] clicks bring it back to [i]. *)
Theorem next_and_previous_are_inverse
  (w : World) (currentSet : PhraseSet) (i : Z) :
  let n := Z.of_nat (length (phrases currentSet)) in
  availableSets !! currentSetKey (state w) = Some currentSet ->
  currentPhraseIndex (state w) = Num i ->
  0 <= i < n ->
  currentPhraseIndex (state (step (step w ClickNext) ClickPrevious)) = Num i
  /\ currentPhraseIndex (state (step (step w ClickPrevious) ClickNext)) = Num i
  /\ (forall k : nat,
        currentPhraseIndex (state (Nat.iter k (fun v => step v ClickNext) w))
        = Num ((i + Z.of_nat k) mod n))
  /\ currentPhraseIndex
       (state (Nat.iter (length (phrases currentSet)) (fun v => step v ClickNext) w))
     = Num i.
Proof.
  intros n Hset Hidx Hi.
  assert (forall k : nat,
            currentPhraseIndex (state (Nat.iter k (fun v => step v ClickNext) w))
            = Num ((i + Z.of_nat k) mod n)
            /\ currentSetKey (state (Nat.iter k (fun v => step v ClickNext) w))
               = currentSetKey (state w)) as Hiter.
  { induction k as [|k [IHi IHk]].
    - cbn. rewrite Z.add_0_r, Z.mod_small by lia. by split.
    - rewrite Nat.iter_succ.
      destruct (step_ClickNext_index
                  (Nat.iter k (fun v => step v ClickNext) w) currentSet
                  ((i + Z.of_nat k) mod n)) as [-> ->].
      + by rewrite IHk.
      + done.
      + apply Z.mod_pos_bound. lia.
      + split; [|done]. f_equal. fold n.
        rewrite Z.add_mod_idemp_l by lia. f_equal. lia. }
  destruct (step_ClickNext_index w currentSet i Hset Hidx Hi) as [Hn Hnk].
  destruct (step_ClickPrevious_index w currentSet i Hset Hidx Hi) as [Hp Hpk].
  fold n in Hn, Hp.
  repeat apply conj.
  - destruct (step_ClickPrevious_index (step w ClickNext) currentSet ((i + 1) mod n))
      as [-> _]; [by rewrite Hnk|done|apply Z.mod_pos_bound; lia|].
    f_equal. fold n.
    destruct (decide (i = n - 1)) as [->|Hne].
    + replace (n - 1 + 1) with n by lia. rewrite Z.mod_same by lia.
      replace (0 - 1 + n) with (n - 1) by lia. apply Z.mod_small. lia.
    + rewrite (Z.mod_small (i + 1)) by lia.
      replace (i + 1 - 1 + n) with (i + 1 * n) by lia.
      rewrite Z.mod_add by lia. apply Z.mod_small. lia.
  - destruct (step_ClickNext_index (step w ClickPrevious) currentSet ((i - 1 + n) mod n))
      as [-> _]; [by rewrite Hpk|done|apply Z.mod_pos_bound; lia|].
    f_equal. fold n.
    destruct (decide (i = 0)) as [->|Hne].
    + replace (0 - 1 + n) with (n - 1) by lia. rewrite (Z.mod_small (n - 1)) by lia.
      replace (n - 1 + 1) with n by lia. apply Z.mod_same. lia.
    + replace (i - 1 + n) with (i - 1 + 1 * n) by lia.
      rewrite Z.mod_add by lia. rewrite (Z.mod_small (i - 1)) by lia.
      replace (i - 1 + 1) with i by lia. apply Z.mod_small. lia.
  - intros k. apply Hiter.
  - destruct (Hiter (length (phrases currentSet))) as [-> _]. f_equal. fold n.
    replace (i + n) with (i + 1 * n) by lia.
    rewrite Z.mod_add by lia. apply Z.mod_small. lia.
Qed.

(** The render that follows a change of set or of index loads the phrase
    found there, or throws when there is none. *)
Lemma commit_loads (prev : Session) (w : World) currentSet phrase :
  ~ (currentSetKey (state w) = currentSetKey prev
     /\ currentPhraseIndex (state w) = currentPhraseIndex prev) ->
  currentSetKey (state w) <> [] ->
  availableSets !! currentSetKey (state w) = Some currentSet ->
  phraseAt (phrases currentSet) (currentPhraseIndex (state w)) = Some phrase ->
  fst (commit prev w) = Normal tt
  /\ displayPhrase (state (snd (commit prev w))) = phrase
  /\ typingPhrase (state (snd (commit prev w))) = typing (setupPhrase phrase).
Proof.
  intros Hdeps Hkey Hset Hphrase. unfold commit.
  assert (exists w1, runEffects prev (state w) w = (Normal tt, w1)
                     /\ displayPhrase (state w1) = phrase
                     /\ typingPhrase (state w1) = typing (setupPhrase phrase)
                     /\ currentSetKey (state w1) = currentSetKey (state w)
                     /\ currentPhraseIndex (state w1) = currentPhraseIndex (state w))
    as (w1 & -> & Hd & Ht & Hk & Hi).
  { unfold runEffects, bind, effect_loadPreviousTime.
    rewrite (bool_decide_eq_false_2 (_ /\ _)) by done. cbn [negb].
    rewrite (effect_loadPhrase_loads _ _ _ _ Hkey Hset Hphrase).
    destruct (negb (bool_decide (_ = _)));
      [rewrite loadPreviousTime_world|unfold ret]; eexists; (split; [reflexivity|]);
      by cbn. }
  rewrite (runEffects_same_deps (state w) w1 Hk Hi).
  destruct (bool_decide (_ = _)); cbn; by rewrite ?Hd, ?Ht.
Qed.

Lemma commit_throws (prev : Session) (w : World) currentSet :
  ~ (currentSetKey (state w) = currentSetKey prev
     /\ currentPhraseIndex (state w) = currentPhraseIndex prev) ->
  currentSetKey (state w) <> [] ->
  availableSets !! currentSetKey (state w) = Some currentSet ->
  phrases currentSet <> [] ->
  phraseAt (phrases currentSet) (currentPhraseIndex (state w)) = None ->
  commit prev w = (Throw TypeError, w).
Proof.
  intros Hdeps Hkey Hset Hne Hphrase. unfold commit, runEffects, bind.
  rewrite (bool_decide_eq_false_2 (_ /\ _)) by done. cbn [negb].
  by rewrite (effect_loadPhrase_throws _ _ _ Hkey Hset Hne Hphrase).
Qed.

Lemma phraseAt_in_range (l : list jsstring) (j : Z) :
  0 <= j < Z.of_nat (length l) ->
  exists phrase, l !! Z.to_nat j = Some phrase /\ phraseAt l (Num j) = Some phrase.
Proof.
  intros Hj. destruct (lookup_lt_is_Some_2 l (Z.to_nat j)) as [phrase Hp]; [lia|].
  exists phrase. split; [done|]. cbn [phraseAt].
  destruct (Z.leb_spec 0 j); [done|lia].
Qed.

Lemma phraseAt_out_of_range (l : list jsstring) (j : Z) :
  Z.of_nat (length l) <= j -> phraseAt l (Num j) = None.
Proof.
  intros Hj. cbn [phraseAt]. destruct (Z.leb_spec 0 j); [|done].
  apply lookup_ge_None. lia.
Qed.

(** X13. In a set of several phrases, Next and Previous put on display the
    phrase at the new index and make its typing form the typing phrase.  In a
    set of one phrase the index does not move, so no phrase is loaded: the
    phrase on display stays, a custom phrase included, and the previous time
    is forgotten. *)
Theorem navigation_loads_phrase (w : World) (currentSet : PhraseSet) (i : Z) :
  let n := Z.of_nat (length (phrases currentSet)) in
  currentSetKey (state w) <> [] ->
  availableSets !! currentSetKey (state w) = Some currentSet ->
  currentPhraseIndex (state w) = Num i ->
  0 <= i < n ->
  (1 < n ->
   (exists phrase,
      phrases currentSet !! Z.to_nat ((i + 1) mod n) = Some phrase
      /\ displayPhrase (state (step w ClickNext)) = phrase
      /\ typingPhrase (state (step w ClickNext)) = typing (setupPhrase phrase)
      /\ fst (dispatch ClickNext w) = Normal tt)
   /\ (exists phrase,
         phrases currentSet !! Z.to_nat ((i - 1 + n) mod n) = Some phrase
         /\ displayPhrase (state (step w ClickPrevious)) = phrase
         /\ typingPhrase (state (step w ClickPrevious)) = typing (setupPhrase phrase)
         /\ fst (dispatch ClickPrevious w) = Normal tt))
  /\ (n = 1 ->
      displayPhrase (state (step w ClickNext)) = displayPhrase (state w)
      /\ typingPhrase (state (step w ClickNext)) = typingPhrase (state w)
      /\ previousTime (state (step w ClickNext)) = None).
Proof.
  intros n Hkey Hset Hidx Hi.
  assert (forall (e : Event) (j : Z),
            handle (state w) e w = (Normal tt, with_state (navigated (Num j)) w) ->
            0 <= j < n -> j <> i ->
            exists phrase,
              phrases currentSet !! Z.to_nat j = Some phrase
              /\ displayPhrase (state (step w e)) = phrase
              /\ typingPhrase (state (step w e)) = typing (setupPhrase phrase)
              /\ fst (dispatch e w) = Normal tt) as Hload.
  { intros e j He Hj Hne.
    destruct (phraseAt_in_range (phrases currentSet) j Hj) as (phrase & Hl & Hp).
    exists phrase. split; [done|].
    unfold step, dispatch. rewrite He.
    destruct (commit_loads (state w) (with_state (navigated (Num j)) w)
                currentSet phrase) as (Hn & Hd & Ht); try done.
    - cbn. rewrite Hidx. intros [_ [=]]. congruence. }
  split.
  - intros Hn. split.
    + apply Hload.
      * cbn [handle]. rewrite goToNextPhrase_world, Hset, Hidx. cbn. fold n.
        destruct (Z.eqb_spec n 0); [lia|]. by rewrite Z.rem_mod_nonneg by lia.
      * apply Z.mod_pos_bound. lia.
      * destruct (decide (i = n - 1)) as [->|Hne].
        -- replace (n - 1 + 1) with n by lia. rewrite Z.mod_same by lia. lia.
        -- rewrite Z.mod_small by lia. lia.
    + apply Hload.
      * cbn [handle]. rewrite goToPrevPhrase_world, Hset, Hidx. cbn. fold n.
        destruct (Z.eqb_spec n 0); [lia|]. by rewrite Z.rem_mod_nonneg by lia.
      * apply Z.mod_pos_bound. lia.
      * destruct (decide (i = 0)) as [->|Hne].
        -- replace (0 - 1 + n) with (n - 1) by lia. rewrite Z.mod_small by lia. lia.
        -- replace (i - 1 + n) with (i - 1 + 1 * n) by lia.
           rewrite Z.mod_add by lia. rewrite Z.mod_small by lia. lia.
  - intros Hn. assert (i = 0) as -> by lia.
    rewrite step_commit. cbn [handle].
    rewrite goToNextPhrase_world, Hset, Hidx. cbn [snd]. fold n. rewrite Hn.
    rewrite commit_nothing; [done|done|by cbn; rewrite Hidx|done].
Qed.

(** X14. Selecting an available set with at least one phrase puts that set's
    first phrase on display, unless the set is already the current one with
    the index at 0: then nothing is loaded, and a custom phrase stays on
    display. *)
Theorem selecting_a_set_loads_its_first_phrase
  (w : World) (value : jsstring) (newSet : PhraseSet) (first : jsstring)
  (others : list jsstring) :
  value <> [] ->
  availableSets !! value = Some newSet ->
  phrases newSet = first :: others ->
  (value <> currentSetKey (state w) \/ currentPhraseIndex (state w) <> Num 0 ->
   currentSetKey (state (step w (SelectSet value))) = value
   /\ currentPhraseIndex (state (step w (SelectSet value))) = Num 0
   /\ displayPhrase (state (step w (SelectSet value))) = first
   /\ typingPhrase (state (step w (SelectSet value))) = typing (setupPhrase first))
  /\ (value = currentSetKey (state w) /\ currentPhraseIndex (state w) = Num 0 ->
      displayPhrase (state (step w (SelectSet value))) = displayPhrase (state w)
      /\ typingPhrase (state (step w (SelectSet value))) = typingPhrase (state w)).
Proof.
  intros Hvalue Hset Hphrases. split.
  - intros Hnew. rewrite step_commit.
    destruct (commit_frame (state w) (snd (handle (state w) (SelectSet value) w)))
      as [-> -> _ _ _ _ _ _ _ _ _ _].
    cbn [handle]. unfold handleSetChange. run_eff.
    destruct (commit_loads (state w) (with_state (selected value) w) newSet first)
      as (_ & Hd & Ht); try done.
    + cbn. intros [Hk Hi]. destruct Hnew as [Hnew|Hnew]; congruence.
    + by rewrite Hphrases.
  - intros [Hk Hi]. rewrite step_commit.
    cbn [handle]. unfold handleSetChange. run_eff.
    rewrite commit_nothing; [done|by cbn|by cbn|done].
Qed.

(** X15. The automatic advance reads the set and the index of the render
    that armed it.  When the set was changed in the meantime, to a set with
    fewer phrases than the index the stale callback computes, the callback
    sets the phrase index out of range of the current set and the effect of
    the render that follows, finding no phrase at that index, throws a
    [TypeError]. *)
Theorem stale_advance_overruns_shorter_set
  (w : World) (t : Timeout) (pending : list Timeout)
  (armedSet currentSet : PhraseSet) (i : Z) :
  let n := Z.of_nat (length (phrases armedSet)) in
  let j := (i + 1) mod n in
  timeouts w = t :: pending ->
  availableSets !! currentSetKey (closure t) = Some armedSet ->
  currentPhraseIndex (closure t) = Num i ->
  0 <= i < n ->
  currentSetKey (state w) <> [] ->
  availableSets !! currentSetKey (state w) = Some currentSet ->
  phrases currentSet <> [] ->
  Z.of_nat (length (phrases currentSet)) <= j ->
  currentPhraseIndex (state w) <> Num j ->
  handle (state w) TimeoutFires w
  = (Normal tt, with_state (navigated (Num j)) (with_timeouts pending w))
  /\ currentPhraseIndex (state (snd (handle (state w) TimeoutFires w))) = Num j
  /\ phraseAt (phrases currentSet) (Num j) = None
  /\ fst (dispatch TimeoutFires w) = Throw TypeError.
Proof.
  intros n j Ht Harmed Hidx Hi Hkey Hset Hne Hover Hdiff.
  assert (handle (state w) TimeoutFires w
          = (Normal tt, with_state (navigated (Num j)) (with_timeouts pending w)))
    as Hh.
  { cbn [handle]. rewrite Ht.
    rewrite goToNextPhrase_world, Harmed, Hidx. cbn [number_add number_rem]. fold n.
    destruct (Z.eqb_spec n 0); [lia|]. by rewrite Z.rem_mod_nonneg by lia. }
  split; [done|]. rewrite Hh. split; [done|].
  split; [apply phraseAt_out_of_range; lia|].
  unfold dispatch. rewrite Hh.
  rewrite (commit_throws _ _ currentSet); try done.
  - cbn. intros [_ Heq]. congruence.
  - cbn. apply phraseAt_out_of_range. lia.
Qed.

(* =================================================================== *)
(** ** More on the keyboard locator *)
(* =================================================================== *)

Lemma number_row_complete (row : list jsstring) (r k j : nat) (key : jsstring) :
  row !! j = Some key ->
  In ({| rowIndex := r; keyIndex := k + j |}, key) (number_row r k row).
Proof.
  revert k j. induction row as [|key' row IH]; intros k j Hj; [done|].
  destruct j as [|j]; simpl in Hj.
  - injection Hj as ->. left. by rewrite Nat.add_0_r.
  - right. replace (k + S j)%nat with (S k + j)%nat by lia. by apply IH.
Qed.

Lemma number_rows_complete (rows : list (list jsstring)) (r i j : nat)
  (row : list jsstring) (key : jsstring) :
  rows !! i = Some row -> row !! j = Some key ->
  In ({| rowIndex := r + i; keyIndex := j |}, key) (number_rows r rows).
Proof.
  revert r i. induction rows as [|row' rows IH]; intros r i Hi Hj; [done|].
  cbn [number_rows]. apply in_or_app. destruct i as [|i]; simpl in Hi.
  - injection Hi as ->. left. rewrite Nat.add_0_r.
    by apply (number_row_complete row r 0 j).
  - right. replace (r + S i)%nat with (S r + i)%nat by lia. by apply IH.
Qed.

Lemma layout_labels_distinct :
  forallb (fun cell => bool_decide (first_cell (snd cell) = Some (fst cell)))
          layout_cells = true.
Proof. by vm_compute. Qed.

Lemma shift_symbols_distinct :
  forallb (fun entry =>
             bool_decide (first_cell (snd entry) = None)
             && bool_decide (List.find (fun entry' => bool_decide (snd entry' = snd entry))
                                       shiftSymbolEntries = Some entry)
             && bool_decide (shiftVersion (fst entry) = Some (snd entry)))
          shiftSymbolEntries = true.
Proof. by vm_compute. Qed.

Lemma first_cell_of_cell (i j : nat) (row : list jsstring) (key : jsstring) :
  keyboardLayout !! i = Some row -> row !! j = Some key ->
  first_cell key = Some {| rowIndex := i; keyIndex := j |}.
Proof.
  intros Hi Hj.
  pose proof (number_rows_complete keyboardLayout 0 i j row key Hi Hj) as Hin.
  pose proof (proj1 (forallb_forall _ _) layout_labels_distinct _ Hin) as H.
  by apply bool_decide_eq_true_1 in H.
Qed.

Lemma first_cell_none (x : jsstring) :
  first_cell x = None <-> forall row, In row keyboardLayout -> ~ In x row.
Proof.
  unfold first_cell. split.
  - intros Hnone row Hrow Hx.
    apply list_elem_of_In, list_elem_of_lookup_1 in Hrow as [i Hi].
    apply list_elem_of_In, list_elem_of_lookup_1 in Hx as [j Hj].
    pose proof (first_cell_of_cell i j row x Hi Hj) as H.
    unfold first_cell in H. by rewrite H in Hnone.
  - intros Hno.
    destruct (List.find _ layout_cells) as [[pos key]|] eqn:Hfind; [|done].
    exfalso. apply find_some in Hfind as [Hin Hkey]. simpl in Hkey.
    apply bool_decide_eq_true_1 in Hkey as ->.
    destruct (In_number_rows _ _ _ _ Hin) as (_ & row & Hrow & Hl).
    apply (Hno row).
    + rewrite <- list_elem_of_In. by eapply list_elem_of_lookup_2.
    + rewrite <- list_elem_of_In. by eapply list_elem_of_lookup_2.
Qed.

(** X16. A character whose lower-case form is the label of a key is located
    on that very key, whatever its case: every key of the layout is found at
    its own row and column. *)
Theorem layout_keys_are_found_in_place
  (char : jsstring) (i j : nat) (row : list jsstring) (key : jsstring) :
  keyboardLayout !! i = Some row ->
  row !! j = Some key ->
  toLowerCase char = key ->
  findKeyPosition toLowerCase char = Some {| rowIndex := i; keyIndex := j |}.
Proof.
  intros Hi Hj Hlow. unfold findKeyPosition.
  by rewrite Hlow, findInRows_first_cell, (first_cell_of_cell i j row key).
Qed.

Lemma shift_symbols_are_found_on_base_key_aux (baseKey shiftSymbol : jsstring) :
  In (baseKey, shiftSymbol) shiftSymbolEntries ->
  toLowerCase shiftSymbol = shiftSymbol ->
  exists pos,
    findKeyPosition toLowerCase shiftSymbol = Some pos
    /\ first_cell baseKey = Some pos.
Proof.
  intros Hin Hlow.
  pose proof (proj1 (forallb_forall _ _) shift_symbols_distinct _ Hin) as H.
  apply andb_prop in H as [H _]. apply andb_prop in H as [Hnot Hfind].
  apply bool_decide_eq_true_1 in Hnot. apply bool_decide_eq_true_1 in Hfind.
  cbn [fst snd] in *.
  pose proof (proj1 (List.Forall_forall _ _) base_keys_in_layout _ Hin) as [pos Hpos].
  cbn [fst] in Hpos.
  exists pos. split; [|done].
  unfold findKeyPosition.
  rewrite Hlow, findInRows_first_cell, Hnot.
  by rewrite (findShifted_find _ _ base_keys_in_layout), Hfind.
Qed.

(** X17. A shifted symbol that lower-casing leaves alone is located on its
    base key: the position returned is a cell of the layout that carries the
    base key of the symbol's entry in the shift table. *)
Theorem shift_symbols_are_found_on_base_key (baseKey shiftSymbol : jsstring) :
  In (baseKey, shiftSymbol) shiftSymbolEntries ->
  toLowerCase shiftSymbol = shiftSymbol ->
  exists pos row,
    findKeyPosition toLowerCase shiftSymbol = Some pos
    /\ keyboardLayout !! rowIndex pos = Some row
    /\ row !! keyIndex pos = Some baseKey
    /\ first_cell baseKey = Some pos.
Proof.
  intros Hin Hlow.
  destruct (shift_symbols_are_found_on_base_key_aux _ _ Hin Hlow) as (pos & Hfind & Hpos).
  destruct (first_cell_holds _ _ Hpos) as (row & Hrow & Hl).
  by exists pos, row.
Qed.

(** X18. The locator finds nothing exactly when the lower-case form of the
    character labels no key and the character is no shifted symbol. *)
Theorem findKeyPosition_none_iff (char : jsstring) :
  findKeyPosition toLowerCase char = None
  <-> (forall row, In row keyboardLayout -> ~ In (toLowerCase char) row)
      /\ (forall baseKey, ~ In (baseKey, char) shiftSymbolEntries).
Proof.
  unfold findKeyPosition.
  rewrite findInRows_first_cell, (findShifted_find _ _ base_keys_in_layout).
  rewrite <- first_cell_none. split.
  - destruct (first_cell (toLowerCase char)); [done|]. intros Hnone.
    split; [done|]. intros baseKey Hin.
    destruct (List.find _ shiftSymbolEntries) as [entry|] eqn:Hfind.
    + apply find_some in Hfind as [Hentry _].
      pose proof (proj1 (List.Forall_forall _ _) base_keys_in_layout _ Hentry)
        as [pos Hpos].
      by rewrite Hpos in Hnone.
    + apply (find_none _ _ Hfind) in Hin. cbn in Hin.
      by rewrite bool_decide_eq_true_2 in Hin.
  - intros [-> Hno].
    destruct (List.find _ shiftSymbolEntries) as [[baseKey sym]|] eqn:Hfind; [|done].
    apply find_some in Hfind as [Hentry Hsym]. cbn in Hsym.
    apply bool_decide_eq_true_1 in Hsym as ->. by apply Hno in Hentry.
Qed.

(** X19. The keyboard paints at most one key as the active one.  When
    lower-casing leaves the shifted symbols alone, a key painted because the
    next character is its shifted symbol is the key the locator returns, so
    the two tests of [renderKey] never light two different keys. *)
Theorem one_active_key
  (r : Session) (i j : nat) (row : list jsstring) (key : jsstring) :
  (forall baseKey shiftSymbol,
     In (baseKey, shiftSymbol) shiftSymbolEntries ->
     toLowerCase shiftSymbol = shiftSymbol) ->
  keyboardLayout !! i = Some row ->
  row !! j = Some key ->
  (isShiftActive r key = true -> isActive r i j = true)
  /\ (isActive r i j || isShiftActive r key = true
      <-> keyPosition r = Some {| rowIndex := i; keyIndex := j |}).
Proof.
  intros Hfix Hi Hj.
  assert (isShiftActive r key = true -> isActive r i j = true) as Hshift.
  { unfold isShiftActive, isActive, keyPosition.
    destruct (nextChar r) as [char|] eqn:Hnext; [|done].
    unfold shiftVersion.
    destruct (List.find _ shiftSymbolEntries) as [[baseKey sym]|] eqn:Hfind;
      cbn [fmap option_fmap option_map snd]; [|done].
    intros Heq.
    apply bool_decide_eq_true_1 in Heq. subst char.
    apply find_some in Hfind as [Hin Hbase]. cbn in Hbase.
    apply bool_decide_eq_true_1 in Hbase. subst baseKey.
    destruct (shift_symbols_are_found_on_base_key_aux key sym Hin (Hfix _ _ Hin))
      as (pos & Hpos & Hcell).
    rewrite (first_cell_of_cell i j row key Hi Hj) in Hcell.
    injection Hcell as <-.
    assert (truthy_string sym = true) as ->.
    { unfold nextChar in Hnext. destruct (_ <? _)%nat; [|done].
      unfold charAt in Hnext.
      destruct (typingPhrase r !! currentIndex r) as [c|]; [|done].
      cbn in Hnext. by injection Hnext as <-. }
    rewrite Hpos. cbn. by rewrite !Nat.eqb_refl. }
  split; [done|]. split.
  - intros H. apply orb_prop in H as [H|H]; [|apply Hshift in H];
      unfold isActive in H;
      destruct (keyPosition r) as [[pi pj]|]; try done;
      cbn in H; apply andb_prop in H as [H1 H2];
      apply Nat.eqb_eq in H1; apply Nat.eqb_eq in H2; by subst.
  - intros H. unfold isActive. rewrite H. cbn. by rewrite !Nat.eqb_refl.
Qed.

(* =================================================================== *)
(** ** More on the word under the cursor *)
(* =================================================================== *)





(* =================================================================== *)
(** ** The phrase on display and the time *)
(* =================================================================== *)

Lemma split_space_nonempty (s : jsstring) : split_space s <> [].
Proof.
  induction s as [|c s IH]; [done|]. cbn.
  destruct (c =? 32)%N; [done|]. by destruct (split_space s).
Qed.

Lemma renderWords_cons (word : jsstring) (words : list jsstring) (charIndex : nat) :
  renderWords (word :: words) charIndex
  = (imap (fun i char => CharSpan (charIndex + i) [char]) word
       ++ (if match words with [] => false | _ => true end
           then [SpaceSpan (charIndex + length word)] else []))
      :: renderWords words
           (charIndex + (length word
                         + (if match words with [] => false | _ => true end
                            then 1 else 0))).
Proof. reflexivity. Qed.

Lemma renderWords_cells (d : jsstring) (offset : nat) :
  List.map span_cell (concat (renderWords (split_space d) offset))
  = imap (fun i c => ((offset + i)%nat, [c])) d.
Proof.
  revert offset. induction d as [|c d IH]; intros offset; [done|].
  pose proof (split_space_nonempty d) as Hne.
  cbn [split_space imap]. destruct (N.eqb_spec c 32) as [->|Hc].
  - rewrite renderWords_cons.
    assert (match split_space d with [] => false | _ => true end = true) as ->
      by (by destruct (split_space d)).
    cbn [imap length app concat List.map span_cell].
    rewrite IH. rewrite !Nat.add_0_r. f_equal.
    apply imap_ext. intros i x _. cbn. f_equal. lia.
  - specialize (IH (S offset)).
    destruct (split_space d) as [|w ws]; [done|].
    rewrite renderWords_cons in *.
    cbn [imap length concat] in *.
    rewrite <- !app_assoc in *. rewrite <- app_comm_cons.
    cbn [List.map span_cell]. rewrite Nat.add_0_r. f_equal.
    etransitivity; [|etransitivity; [exact IH|]].
    + rewrite !List.map_app. f_equal; [|f_equal].
      * f_equal. apply imap_ext. intros i x _. cbn. f_equal. lia.
      * by replace (offset + S (length w))%nat with (S offset + length w)%nat by lia.
      * do 3 f_equal. destruct ws; lia.
    + apply imap_ext. intros i x _. cbn. f_equal. lia.
Qed.

(** X21. The spans of the phrase on display, word after word and space after
    space, are the characters of the phrase in order, each painted by its own
    position in the phrase: splitting on spaces and counting [charIndex] along
    loses and shifts nothing. *)
Theorem rendered_spans_follow_positions (d : jsstring) :
  List.map span_cell (concat (renderPhrase d)) = imap (fun i c => (i, [c])) d
  /\ (forall s, In s (concat (renderPhrase d)) ->
        charAt d (fst (span_cell s)) = Some (snd (span_cell s)))
  /\ NoDup (List.map (fun s => fst (span_cell s)) (concat (renderPhrase d))).
Proof.
  pose proof (renderWords_cells d 0) as H. fold (renderPhrase d) in H.
  assert (List.map span_cell (concat (renderPhrase d))
          = imap (fun i c => (i, [c])) d) as Hcells by exact H.
  split; [done|]. split.
  - intros s Hs. apply (in_map span_cell) in Hs. rewrite Hcells in Hs.
    apply list_elem_of_In, list_elem_of_lookup_1 in Hs as [k Hk].
    rewrite list_lookup_imap in Hk.
    destruct (d !! k) as [c|] eqn:Hd; [|done]. cbn in Hk. injection Hk as <-.
    cbn. unfold charAt. by rewrite Hd.
  - replace (List.map (fun s => fst (span_cell s)) (concat (renderPhrase d)))
      with (List.map fst (List.map span_cell (concat (renderPhrase d))))
      by (by rewrite List.map_map).
    rewrite Hcells. clear.
    assert (forall start,
              List.map fst (imap (fun i c => ((start + i)%nat, [c])) d)
              = seq start (length d)) as Hgen.
    { induction d as [|c d IH]; intros start; [done|].
      cbn. rewrite Nat.add_0_r. f_equal. rewrite <- IH. f_equal.
      apply imap_ext. intros i x _. cbn. f_equal. lia. }
    change (imap (fun i c => (i, [c])) d)
      with (imap (fun i c => ((0 + i)%nat, [c])) d).
    rewrite (Hgen 0%nat). apply NoDup_ListNoDup, List.seq_NoDup.
Qed.

Lemma two_digits_below_100 :
  forallb (fun z => match padStart2 (Z_toString z) with
                    | [d1; d2] => is_digit d1 && is_digit d2
                                  && bool_decide (parseInt10 [d1; d2] = Num z)
                    | _ => false
                    end)
          (List.map Z.of_nat (seq 0 100)) = true.
Proof. by vm_compute. Qed.

Lemma padStart2_below_100 (z : Z) :
  0 <= z < 100 ->
  exists d1 d2, padStart2 (Z_toString z) = [d1; d2]
                /\ is_digit d1 = true /\ is_digit d2 = true
                /\ parseInt10 [d1; d2] = Num z.
Proof.
  intros Hz.
  assert (In z (List.map Z.of_nat (seq 0 100))) as Hin.
  { apply in_map_iff. exists (Z.to_nat z). split; [lia|]. apply in_seq. lia. }
  pose proof (proj1 (forallb_forall _ _) two_digits_below_100 z Hin) as H.
  cbv beta in H.
  destruct (padStart2 (Z_toString z)) as [|d1 [|d2 [|d3 l]]]; try done.
  apply andb_prop in H as [H Hp]. apply andb_prop in H as [H1 H2].
  apply bool_decide_eq_true_1 in Hp. by exists d1, d2.
Qed.

Lemma Z_toString_long (z : Z) : 10 <= z -> (2 <= length (Z_toString z))%nat.
Proof.
  intros Hz. destruct z as [|p|p]; try lia.
  unfold Z_toString. cbn [Z.to_int NilZero.string_of_int].
  pose proof (DecimalPos.Unsigned.of_to p) as Hof.
  destruct (Pos.to_uint p) as [|d|d|d|d|d|d|d|d|d|d]; [done|..];
    (destruct d;
     [cbn in Hof; first [discriminate Hof|injection Hof as Hof; lia]|..]);
    cbn [NilZero.string_of_uint NilEmpty.string_of_uint];
    rewrite !js_cons; cbn [length]; lia.
Qed.

(** X22. For a whole number of seconds that is not negative and below 2^53,
    the range in which the doubles of the source are exact, [formatTime]
    writes the minutes, a colon and two digits of seconds; the minutes take at
    least two digits, exactly two below 6000 seconds; read back, the minutes
    and the seconds give the time again. *)
Theorem formatTime_reads_back (t : Z) :
  0 <= t < 2 ^ 53 ->
  exists mm s1 s2,
    formatTime (Num t) = Some (mm ++ [58%N; s1; s2])
    /\ (2 <= length mm)%nat
    /\ (t < 6000 -> length mm = 2%nat)
    /\ is_digit s1 = true /\ is_digit s2 = true
    /\ exists minutes seconds,
         parseInt10 mm = Num minutes
         /\ parseInt10 [s1; s2] = Num seconds
         /\ 0 <= seconds < 60
         /\ 60 * minutes + seconds = t.
Proof.
  intros Ht. unfold formatTime, isSafeInteger.
  rewrite (proj2 (Z.ltb_lt (Z.abs t) (2 ^ 53))) by lia.
  rewrite Z.rem_mod_nonneg by lia.
  destruct (padStart2_below_100 (t mod 60)) as (s1 & s2 & -> & Hs1 & Hs2 & Hsec).
  { pose proof (Z.mod_pos_bound t 60). lia. }
  exists (padStart2 (Z_toString (t / 60))), s1, s2.
  split; [done|].
  assert (0 <= t / 60) as Hm by (apply Z.div_pos; lia).
  assert ((2 <= length (padStart2 (Z_toString (t / 60))))%nat
          /\ (t < 6000 -> length (padStart2 (Z_toString (t / 60))) = 2%nat)
          /\ parseInt10 (padStart2 (Z_toString (t / 60))) = Num (t / 60))
    as (Hlen & Hshort & Hparse).
  { destruct (Z_lt_le_dec (t / 60) 100) as [Hlt|Hge].
    - destruct (padStart2_below_100 (t / 60)) as (m1 & m2 & -> & _ & _ & Hp); [lia|].
      by cbn.
    - pose proof (Z_toString_long (t / 60)) as Hlong.
      unfold padStart2.
      destruct (Nat.ltb_spec (length (Z_toString (t / 60))) 2) as [Hl|Hl]; [lia|].
      split; [done|]. split.
      + intros Hsmall. exfalso.
        assert (t / 60 < 100); [|lia].
        apply Z.div_lt_upper_bound; lia.
      + apply Z_toString_parses. }
  split; [done|]. split; [done|]. split; [done|]. split; [done|].
  exists (t / 60), (t mod 60). split; [done|]. split; [done|].
  pose proof (Z.mod_pos_bound t 60). split; [lia|].
  pose proof (Z.div_mod t 60). lia.
Qed.

(* =================================================================== *)
(** ** The polling interval *)
(* =================================================================== *)


(* =================================================================== *)
(** ** Submitting a custom phrase *)
(* =================================================================== *)

Lemma trimStart_split (s : jsstring) :
  exists blank,
    s = blank ++ trimStart s
    /\ Forall (fun c => is_whitespace c = true) blank
    /\ (forall c l, trimStart s = c :: l -> is_whitespace c = false).
Proof.
  induction s as [|c s (blank & Hs & Hblank & Hhead)].
  - exists []. by repeat split.
  - cbn [trimStart]. destruct (is_whitespace c) eqn:Hc.
    + exists (c :: blank). split; [by rewrite Hs at 1|]. split; [by constructor|done].
    + exists []. split; [done|]. split; [constructor|].
      intros c' l [= <- _]. done.
Qed.

(** [trim] removes a run of white space at each end, and what is left
    neither starts nor ends with white space. *)
Lemma trim_split (s : jsstring) :
  exists before after,
    s = before ++ trim s ++ after
    /\ Forall (fun c => is_whitespace c = true) before
    /\ Forall (fun c => is_whitespace c = true) after
    /\ (forall c, head (trim s) = Some c -> is_whitespace c = false)
    /\ (forall c, last (trim s) = Some c -> is_whitespace c = false).
Proof.
  unfold trim, trimEnd.
  destruct (trimStart_split s) as (before & Hs & Hbefore & Hhead).
  destruct (trimStart_split (rev (trimStart s))) as (blank & Hr & Hblank & Hlast).
  assert (trimStart s = rev (trimStart (rev (trimStart s))) ++ rev blank) as Ht.
  { rewrite <- rev_app_distr, <- Hr. by rewrite rev_involutive. }
  exists before, (rev blank). split; [by rewrite <- Ht|].
  split; [done|]. split; [by apply Forall_rev|]. split.
  - intros c Hc.
    destruct (rev (trimStart (rev (trimStart s)))) as [|c' l] eqn:Hrev; [done|].
    cbn in Hc. injection Hc as ->. by apply (Hhead c (l ++ rev blank)).
  - intros c Hc.
    destruct (trimStart (rev (trimStart s))) as [|c' l] eqn:Hts; [done|].
    cbn [rev] in Hc. rewrite last_snoc in Hc.
    injection Hc as ->. by apply (Hlast c l).
Qed.

Lemma commit_same_deps (prev : Session) (w : World) :
  currentSetKey (state w) = currentSetKey prev ->
  currentPhraseIndex (state w) = currentPhraseIndex prev ->
  fst (commit prev w) = Normal tt
  /\ displayPhrase (state (snd (commit prev w))) = displayPhrase (state w)
  /\ typingPhrase (state (snd (commit prev w))) = typingPhrase (state w)
  /\ (previousTime (state w) = storedTime (localStorage w) (typingPhrase (state w)) ->
      previousTime (state (snd (commit prev w))) = previousTime (state w)).
Proof.
  intros Hk Hi. unfold commit.
  rewrite (runEffects_same_deps prev w Hk Hi).
  destruct (bool_decide (typingPhrase (state w) = typingPhrase prev)).
  - rewrite runEffects_same_deps by done.
    rewrite bool_decide_eq_true_2 by done. by cbn.
  - rewrite runEffects_same_deps by done.
    cbn [state with_state typingPhrase with_previousTime].
    rewrite bool_decide_eq_true_2 by done. cbn.
    by repeat split.
Qed.

Lemma handlePhraseSubmit_stored (r : Session) (w : World) :
  trim (customPhrase r) <> [] ->
  handlePhraseSubmit r w
  = (Normal tt,
     with_state
       (submitted (setupPhrase (trim (customPhrase r)))
          (storedTime (localStorage w)
             (typing (setupPhrase (trim (customPhrase r)))))) w).
Proof.
  intros Hne. unfold handlePhraseSubmit.
  destruct (trim (customPhrase r)) as [|c l] eqn:Ht; [done|].
  change (truthy_string (c :: l)) with true.
  run_eff. unfold storedTime.
  destruct (localStorage w !! _) as [saved|];
    [destruct (truthy_string saved)|]; reflexivity.
Qed.

(** X24. Submitting a custom phrase that is empty once trimmed changes
    nothing at all.  Otherwise the phrase on display becomes the custom phrase
    without the white space at its two ends (it neither starts nor ends with
    white space), the typing phrase becomes its typing form, the custom field
    is cleared, the set and the phrase index stay, and the previous time is
    the one stored for the new typing phrase. *)
Theorem custom_phrase_submission (w : World) :
  (trim (customPhrase (state w)) = [] ->
   dispatch SubmitPhrase w = (Normal tt, w))
  /\ (trim (customPhrase (state w)) <> [] ->
      fst (dispatch SubmitPhrase w) = Normal tt
      /\ displayPhrase (state (step w SubmitPhrase)) = trim (customPhrase (state w))
      /\ typingPhrase (state (step w SubmitPhrase))
         = typing (setupPhrase (trim (customPhrase (state w))))
      /\ customPhrase (state (step w SubmitPhrase)) = []
      /\ currentSetKey (state (step w SubmitPhrase)) = currentSetKey (state w)
      /\ currentPhraseIndex (state (step w SubmitPhrase))
         = currentPhraseIndex (state w)
      /\ previousTime (state (step w SubmitPhrase))
         = storedTime (localStorage w) (typingPhrase (state (step w SubmitPhrase)))
      /\ exists before after,
           customPhrase (state w)
           = before ++ displayPhrase (state (step w SubmitPhrase)) ++ after
           /\ Forall (fun c => is_whitespace c = true) before
           /\ Forall (fun c => is_whitespace c = true) after
           /\ (forall c, head (displayPhrase (state (step w SubmitPhrase))) = Some c ->
                         is_whitespace c = false)
           /\ (forall c, last (displayPhrase (state (step w SubmitPhrase))) = Some c ->
                         is_whitespace c = false)).
Proof.
  split.
  - intros Hblank. unfold dispatch. cbn [handle].
    rewrite handlePhraseSubmit_ignored by done. by rewrite commit_nothing.
  - intros Hne.
    pose proof (handlePhraseSubmit_stored (state w) w Hne) as Hw1.
    unfold step, dispatch. cbn [handle]. rewrite Hw1.
    destruct (commit_same_deps (state w)
                (with_state
                   (submitted (setupPhrase (trim (customPhrase (state w))))
                      (storedTime (localStorage w)
                         (typing (setupPhrase (trim (customPhrase (state w))))))) w))
      as (Hn & Hd & Ht & Hp); [done|done|].
    destruct (commit_frame (state w)
                (with_state
                   (submitted (setupPhrase (trim (customPhrase (state w))))
                      (storedTime (localStorage w)
                         (typing (setupPhrase (trim (customPhrase (state w))))))) w))
      as [Fk Fi _ _ Fc _ _ _ _ _ _ _].
    rewrite Hd, Ht, Fk, Fi, Fc, Hp by done.
    split; [by destruct (commit _ _) as [[[]|] ?]|].
    repeat (split; [done|]).
    apply trim_split.
Qed.

(* =================================================================== *)
(** ** Typing a whole phrase *)
(* =================================================================== *)

Lemma step_accepted (w : World) (key : jsstring) (now : Z) (c : N) :
  typingPhrase (state w) !! currentIndex (state w) = Some c ->
  toLowerCase key = toLowerCase [c] ->
  (currentIndex (state w) + 1)%nat <> length (typingPhrase (state w)) ->
  let w' := step w (KeyDown key now) in
  currentIndex (state w') = S (currentIndex (state w))
  /\ userInput (state w') = userInput (state w) ++ [c]
  /\ typingPhrase (state w') = typingPhrase (state w)
  /\ elapsedTime (state w') = elapsedTime (state w)
  /\ currentSetKey (state w') = currentSetKey (state w)
  /\ currentPhraseIndex (state w') = currentPhraseIndex (state w)
  /\ localStorage w' = localStorage w
  /\ timeouts w' = timeouts w.
Proof.
  intros Hexp Heq Hn w'. subst w'. unfold step. rewrite dispatch_KeyDown.
  rewrite (handleKeyPress_accept _ _ _ _ _ (charAt_lookup _ _ _ Hexp) Heq Hn).
  cbn [snd]. rewrite speakLetter_world.
  destruct (startTimerOnFirstKey_cases (state w) now w) as [[-> _]|[_ ->]];
    cbn; repeat (split; [done || lia|]); done.
Qed.

Lemma step_completed (w : World) (key : jsstring) (now : Z) (c : N) :
  typingPhrase (state w) !! currentIndex (state w) = Some c ->
  toLowerCase key = toLowerCase [c] ->
  S (currentIndex (state w)) = length (typingPhrase (state w)) ->
  let w' := step w (KeyDown key now) in
  currentIndex (state w') = S (currentIndex (state w))
  /\ userInput (state w') = userInput (state w) ++ [c]
  /\ typingPhrase (state w') = typingPhrase (state w)
  /\ isTimerRunning (state w') = false
  /\ localStorage w'
     = <[typingTimeKey (typingPhrase (state w))
           := Z_toString (elapsedTime (state w))]> (localStorage w)
  /\ timeouts w' = timeouts w ++ [{| closure := state w; delay := 3000 |}].
Proof.
  intros Hexp Heq Hlen w'. subst w'.
  rewrite (step_complete w key now c Hexp Heq Hlen). cbv zeta.
  destruct (startTimerOnFirstKey_cases (state w) now w) as [[-> _]|[_ ->]];
    cbn; repeat (split; [done || lia|]); done.
Qed.

Lemma typing_run (keys : list jsstring) :
  forall (w : World) (times : nat -> Z),
    keys <> [] ->
    Forall2 (fun key c => toLowerCase key = toLowerCase [c])
            keys (drop (currentIndex (state w)) (typingPhrase (state w))) ->
    let w' := fold_left step (imap (fun i key => KeyDown key (times i)) keys) w in
    currentIndex (state w') = length (typingPhrase (state w))
    /\ userInput (state w')
       = userInput (state w) ++ drop (currentIndex (state w)) (typingPhrase (state w))
    /\ typingPhrase (state w') = typingPhrase (state w)
    /\ isTimerRunning (state w') = false
    /\ localStorage w'
       = <[typingTimeKey (typingPhrase (state w))
             := Z_toString (elapsedTime (state w))]> (localStorage w)
    /\ exists t,
         timeouts w' = timeouts w ++ [t]
         /\ delay t = 3000
         /\ currentSetKey (closure t) = currentSetKey (state w)
         /\ currentPhraseIndex (closure t) = currentPhraseIndex (state w)
         /\ typingPhrase (closure t) = typingPhrase (state w).
Proof.
  induction keys as [|key keys IH]; intros w times Hne Hkeys; [done|].
  destruct (drop (currentIndex (state w)) (typingPhrase (state w)))
    as [|c rest] eqn:Hdrop; [by inversion Hkeys|].
  apply Forall2_cons in Hkeys as [Hkey Hrest].
  assert (typingPhrase (state w) !! currentIndex (state w) = Some c) as Hexp.
  { rewrite <- (Nat.add_0_r (currentIndex (state w))), <- lookup_drop.
    by rewrite Hdrop. }
  assert (drop (S (currentIndex (state w))) (typingPhrase (state w)) = rest)
    as Hdrop'.
  { replace (S (currentIndex (state w))) with (currentIndex (state w) + 1)%nat by lia.
    by rewrite <- drop_drop, Hdrop. }
  assert (length (typingPhrase (state w))
          = (currentIndex (state w) + S (length rest))%nat) as Hlen.
  { pose proof (f_equal length Hdrop) as Hl. rewrite length_drop in Hl.
    cbn in Hl. pose proof (lookup_lt_Some _ _ _ Hexp). lia. }
  cbn [imap fold_left].
  destruct keys as [|key' keys'].
  - apply Forall2_nil_inv_l in Hrest. subst rest. cbn [imap fold_left].
    destruct (step_completed w key (times 0%nat) c Hexp Hkey)
      as (Hc & Hu & Ht & Hr & Hs & Hto); [cbn in Hlen; lia|].
    rewrite Hc. split; [cbn in Hlen; lia|]. split; [done|].
    repeat (split; [done|]). by eexists.
  - destruct rest as [|c' rest']; [by inversion Hrest|].
    destruct (step_accepted w key (times 0%nat) c Hexp Hkey)
      as (Hc & Hu & Ht & He & Hk & Hi & Hs & Hto); [cbn in Hlen; lia|].
    specialize (IH (step w (KeyDown key (times 0%nat))) (fun i => times (S i))).
    rewrite Hc, Ht, Hdrop', Hu, He, Hk, Hi, Hs, Hto in IH.
    cbv zeta in IH |- *. unfold compose. cbv beta.
    set (w2 := fold_left _ _ _) in IH |- *. clearbody w2.
    destruct IH as (Hc' & Hu' & Ht' & Hr' & Hs' & t & Hto' & Hd & Htk & Hti & Htt);
      [done|done|].
    split; [done|]. split; [by rewrite Hu', <- app_assoc|].
    repeat (split; [done|]). by exists t.
Qed.

(** X25. Starting from a phrase of which nothing is typed, pressing in order
    keys whose lower-case forms are those of its characters types the whole
    phrase: the cursor ends at the length, [userInput] is the typing phrase
    itself, the timer is stopped, the elapsed time is stored under the key of
    the phrase, and exactly one automatic advance is pending for the current
    set and index. *)
Theorem typing_the_phrase_completes_it
  (w : World) (keys : list jsstring) (times : nat -> Z) :
  currentIndex (state w) = 0%nat ->
  userInput (state w) = [] ->
  typingPhrase (state w) <> [] ->
  Forall2 (fun key c => toLowerCase key = toLowerCase [c])
          keys (typingPhrase (state w)) ->
  let w' := fold_left step (imap (fun i key => KeyDown key (times i)) keys) w in
  currentIndex (state w') = length (typingPhrase (state w))
  /\ userInput (state w') = typingPhrase (state w)
  /\ typingPhrase (state w') = typingPhrase (state w)
  /\ isTimerRunning (state w') = false
  /\ localStorage w'
     = <[typingTimeKey (typingPhrase (state w))
           := Z_toString (elapsedTime (state w))]> (localStorage w)
  /\ exists t,
       timeouts w' = timeouts w ++ [t]
       /\ delay t = 3000
       /\ currentSetKey (closure t) = currentSetKey (state w)
       /\ currentPhraseIndex (closure t) = currentPhraseIndex (state w).
Proof.
  intros Hc Hu Hne Hkeys.
  destruct (typing_run keys w times) as (Hc' & Hu' & Ht' & Hr' & Hs' & t & Hto & Hd & Hk & Hi & _).
  - intros ->. apply Forall2_nil_inv_l in Hkeys. done.
  - by rewrite Hc.
  - rewrite Hc, Hu in Hu'. cbn in Hu'.
    repeat (split; [done|]). by exists t.
Qed.

(** The cursor after a key: one more when the key matches, the same when it
    does not. *)
Lemma step_KeyDown_cursor (w : World) (key : jsstring) (now : Z) (c : N) :
  typingPhrase (state w) !! currentIndex (state w) = Some c ->
  (toLowerCase key = toLowerCase [c] ->
   currentIndex (state (step w (KeyDown key now))) = S (currentIndex (state w)))
  /\ (toLowerCase key <> toLowerCase [c] ->
      currentIndex (state (step w (KeyDown key now))) = currentIndex (state w)).
Proof.
  intros Hexp. split.
  - intros Heq.
    destruct (decide (S (currentIndex (state w)) = length (typingPhrase (state w))))
      as [Hlen|Hlen].
    + by destruct (step_completed w key now c Hexp Heq Hlen) as (Hc & _).
    + destruct (step_accepted w key now c Hexp Heq) as (Hc & _); [lia|done].
  - intros Hne. unfold step. rewrite dispatch_KeyDown.
    rewrite (handleKeyPress_reject _ _ _ _ _ (charAt_lookup _ _ _ Hexp) Hne).
    cbn [snd].
    by destruct (startTimerOnFirstKey_cases (state w) now w) as [[-> _]|[_ ->]].
Qed.

End TypingGame.

(* ===================================================================== *)
(** ** The first version of the component *)
(* ===================================================================== *)

Section FirstVersionProperties.

Variable toLowerCase : jsstring -> jsstring.
Variable speechSynthesis_in_window : bool.

Lemma first_version_speak_frame (u : Utterance) (w : FirstVersion.World) :
  FirstVersion.state (FirstVersion.speak speechSynthesis_in_window u w)
  = FirstVersion.state w
  /\ FirstVersion.timeouts (FirstVersion.speak speechSynthesis_in_window u w)
     = FirstVersion.timeouts w.
Proof. unfold FirstVersion.speak. by destruct speechSynthesis_in_window. Qed.

Lemma first_version_key_accepted (w : FirstVersion.World) (key : jsstring) (c : N) :
  let r := FirstVersion.state w in
  let w' := FirstVersion.step toLowerCase speechSynthesis_in_window w
              (FirstVersion.KeyDown key) in
  FirstVersion.phrase r !! FirstVersion.currentIndex r = Some c ->
  toLowerCase key = [c] ->
  FirstVersion.state w'
  = {| FirstVersion.phrase := FirstVersion.phrase r;
       FirstVersion.userInput := FirstVersion.userInput r ++ [c];
       FirstVersion.currentIndex := S (FirstVersion.currentIndex r);
       FirstVersion.customPhrase := FirstVersion.customPhrase r;
       FirstVersion.showKeyboard := FirstVersion.showKeyboard r |}
  /\ FirstVersion.timeouts w'
     = FirstVersion.timeouts w
       ++ (if decide (S (FirstVersion.currentIndex r)
                      = length (FirstVersion.phrase r))
           then [3000] else []).
Proof.
  intros r w' Hexp Heq. subst w'.
  cbn [FirstVersion.step]. unfold FirstVersion.handleKeyPress. fold r.
  rewrite Heq, (charAt_lookup _ _ _ Hexp).
  rewrite decide_True by done.
  unfold FirstVersion.speakLetter, FirstVersion.speakPhrase.
  replace (FirstVersion.currentIndex r + 1)%nat
    with (S (FirstVersion.currentIndex r)) by lia.
  destruct (decide (S (FirstVersion.currentIndex r)
                    = length (FirstVersion.phrase r))) as [Hlen|Hlen].
  - rewrite (proj2 (Nat.eqb_eq _ _) Hlen).
    unfold FirstVersion.setTimeout. cbn [FirstVersion.state FirstVersion.timeouts].
    destruct (first_version_speak_frame
                (PhraseUtterance (js "Great job! You finished the phrase!"))
                (FirstVersion.with_state
                   (fun s => {| FirstVersion.phrase := FirstVersion.phrase s;
                                FirstVersion.userInput := FirstVersion.userInput r ++ [c];
                                FirstVersion.currentIndex := S (FirstVersion.currentIndex r);
                                FirstVersion.customPhrase := FirstVersion.customPhrase s;
                                FirstVersion.showKeyboard := FirstVersion.showKeyboard s |})
                   (FirstVersion.speak speechSynthesis_in_window
                      (LetterUtterance (if decide ([c] = space) then js "space" else [c]))
                      w))) as [-> ->].
    unfold FirstVersion.with_state. cbn [FirstVersion.state FirstVersion.timeouts].
    destruct (first_version_speak_frame
                (LetterUtterance (if decide ([c] = space) then js "space" else [c]))
                w) as [-> ->].
    done.
  - rewrite (proj2 (Nat.eqb_neq _ _) Hlen).
    unfold FirstVersion.with_state. cbn [FirstVersion.state FirstVersion.timeouts].
    destruct (first_version_speak_frame
                (LetterUtterance (if decide ([c] = space) then js "space" else [c]))
                w) as [-> ->].
    by rewrite app_nil_r.
Qed.

Lemma first_version_key_ignored (w : FirstVersion.World) (key : jsstring) :
  Some (toLowerCase key)
    <> charAt (FirstVersion.phrase (FirstVersion.state w))
              (FirstVersion.currentIndex (FirstVersion.state w)) ->
  FirstVersion.step toLowerCase speechSynthesis_in_window w (FirstVersion.KeyDown key)
  = w.
Proof.
  intros Hne. cbn [FirstVersion.step]. unfold FirstVersion.handleKeyPress.
  by rewrite decide_False.
Qed.

(** X26. In the first version a key is accepted exactly when its lower-case
    form is the character under the cursor, as it stands in the phrase: the
    character is appended, the cursor moves by one and a timeout of 3000 ms
    is armed at the last character.  Any other key changes nothing, and so
    does every key once the cursor is at the end of the phrase: the
    comparison with [undefined] is false and nothing is thrown. *)
Theorem first_version_accepts_exact_match
  (w : FirstVersion.World) (key : jsstring) :
  let r := FirstVersion.state w in
  let w' := FirstVersion.step toLowerCase speechSynthesis_in_window w
              (FirstVersion.KeyDown key) in
  (forall c,
     FirstVersion.phrase r !! FirstVersion.currentIndex r = Some c ->
     toLowerCase key = [c] ->
     FirstVersion.state w'
     = {| FirstVersion.phrase := FirstVersion.phrase r;
          FirstVersion.userInput := FirstVersion.userInput r ++ [c];
          FirstVersion.currentIndex := S (FirstVersion.currentIndex r);
          FirstVersion.customPhrase := FirstVersion.customPhrase r;
          FirstVersion.showKeyboard := FirstVersion.showKeyboard r |}
     /\ FirstVersion.timeouts w'
        = FirstVersion.timeouts w
          ++ (if decide (S (FirstVersion.currentIndex r)
                         = length (FirstVersion.phrase r))
              then [3000] else []))
  /\ (forall c,
        FirstVersion.phrase r !! FirstVersion.currentIndex r = Some c ->
        toLowerCase key <> [c] ->
        w' = w)
  /\ ((length (FirstVersion.phrase r) <= FirstVersion.currentIndex r)%nat ->
      w' = w).
Proof.
  intros r w'. repeat apply conj.
  - intros c Hexp Heq. by apply first_version_key_accepted.
  - intros c Hexp Hne. apply first_version_key_ignored.
    fold r. rewrite (charAt_lookup _ _ _ Hexp). congruence.
  - intros Hend. apply first_version_key_ignored.
    fold r. by rewrite charAt_past_end.
Qed.

(** X27. In every world the first version can be in, what has been typed is
    the part of the phrase before the cursor, the cursor is within the
    phrase, and every pending timeout waits 3000 ms. *)
Theorem first_version_userInput_is_typed_prefix (w : FirstVersion.World) :
  FirstVersion.reachable toLowerCase speechSynthesis_in_window w ->
  FirstVersion.userInput (FirstVersion.state w)
  = take (FirstVersion.currentIndex (FirstVersion.state w))
         (FirstVersion.phrase (FirstVersion.state w))
  /\ (FirstVersion.currentIndex (FirstVersion.state w)
      <= length (FirstVersion.phrase (FirstVersion.state w)))%nat
  /\ Forall (fun delay => delay = 3000) (FirstVersion.timeouts w).
Proof.
  induction 1 as [|w e Hr (Hin & Hle & Hto)].
  - cbn. repeat split; [lia|constructor].
  - destruct e as [key|value| | |].
    + destruct (FirstVersion.phrase (FirstVersion.state w)
                  !! FirstVersion.currentIndex (FirstVersion.state w))
        as [c|] eqn:Hexp.
      * destruct (decide (toLowerCase key = [c])) as [Heq|Hne].
        -- destruct (first_version_key_accepted w key c Hexp Heq) as [-> ->].
           cbn [FirstVersion.phrase FirstVersion.userInput
                  FirstVersion.currentIndex].
           split; [|split].
           ++ rewrite Hin. by rewrite (take_S_r _ _ _ Hexp).
           ++ apply lookup_lt_Some in Hexp. lia.
           ++ apply Forall_app_2; [done|].
              destruct (decide _); by repeat constructor.
        -- rewrite first_version_key_ignored; [done|].
           rewrite (charAt_lookup _ _ _ Hexp). congruence.
      * rewrite first_version_key_ignored; [done|].
        unfold charAt. by rewrite Hexp.
    + done.
    + cbn [FirstVersion.step]. unfold FirstVersion.handlePhraseSubmit.
      destruct (truthy_string _); [|done].
      cbn. repeat split; [lia|done].
    + done.
    + cbn [FirstVersion.step].
      destruct (FirstVersion.timeouts w) as [|d pending] eqn:Hpending.
      * rewrite Hpending. done.
      * cbn. repeat split; [lia|]. by inversion Hto.
Qed.

(** X28. Where the character under the cursor is its own lower-case form,
    the two versions accept the same keys.  Where it is not (an upper-case
    letter), the first version accepts no key at all while the component
    accepts the character itself. *)
Theorem versions_accept_the_same_keys
  (availableSets : gmap jsstring PhraseSet)
  (w : World) (v : FirstVersion.World) (key : jsstring) (now : Z) (c : N) :
  typingPhrase (state w) !! currentIndex (state w) = Some c ->
  FirstVersion.phrase (FirstVersion.state v)
    !! FirstVersion.currentIndex (FirstVersion.state v) = Some c ->
  (toLowerCase [c] = [c] ->
   (currentIndex (state (step toLowerCase availableSets speechSynthesis_in_window
                           w (KeyDown key now)))
    = S (currentIndex (state w))
    <-> FirstVersion.currentIndex
          (FirstVersion.state
             (FirstVersion.step toLowerCase speechSynthesis_in_window v
                (FirstVersion.KeyDown key)))
        = S (FirstVersion.currentIndex (FirstVersion.state v))))
  /\ ((forall s, toLowerCase (toLowerCase s) = toLowerCase s) ->
      toLowerCase [c] <> [c] ->
      FirstVersion.step toLowerCase speechSynthesis_in_window v
        (FirstVersion.KeyDown key) = v
      /\ currentIndex (state (step toLowerCase availableSets
                                speechSynthesis_in_window w (KeyDown [c] now)))
         = S (currentIndex (state w))).
Proof.
  intros Hw Hv.
  destruct (step_KeyDown_cursor toLowerCase availableSets speechSynthesis_in_window
              w key now c Hw) as [Hacc Hrej].
  split.
  - intros Hfix. rewrite Hfix in Hacc, Hrej.
    destruct (decide (toLowerCase key = [c])) as [Heq|Hne].
    + destruct (first_version_key_accepted v key c Hv Heq) as [-> _].
      cbn [FirstVersion.currentIndex]. by rewrite Hacc.
    + rewrite Hrej by done.
      rewrite first_version_key_ignored
        by (rewrite (charAt_lookup _ _ _ Hv); congruence).
      lia.
  - intros Hidem Hmoved. split.
    + apply first_version_key_ignored.
      rewrite (charAt_lookup _ _ _ Hv). intros [= Heq].
      apply Hmoved. by rewrite <- Heq, Hidem.
    + by apply (step_KeyDown_cursor toLowerCase availableSets
                  speechSynthesis_in_window w [c] now c Hw).
Qed.

End FirstVersionProperties.

(* ===================================================================== *)
(** ** The statements on sample runs *)
(* ===================================================================== *)

(** On the first phrase of the sample set, [Hi!], the key [h] is accepted:
    the upper-case [H] of the phrase is stored and the cursor is 1. *)
Lemma handleKeyPress_accepts_iff_match_witness :
  userInput (state (step toLowerCase_latin sampleSets true
                      (mount sampleSets ∅ true) (KeyDown (js "h") 1000)))
    = js "H"
  /\ currentIndex (state (step toLowerCase_latin sampleSets true
                            (mount sampleSets ∅ true) (KeyDown (js "h") 1000)))
    = 1%nat.
Proof.
  destruct (handleKeyPress_accepts_iff_match toLowerCase_latin sampleSets true
              (mount sampleSets ∅ true) (js "h") 1000)
    as (expected & Hexp & Hacc & _ & _).
  - vm_compute. lia.
  - vm_compute in Hexp. injection Hexp as <-.
    apply Hacc. reflexivity.
Defined.

(** C2 as stated fails: on the fresh session, whose phrase starts with [H],
    the key [x] is rejected, and yet the start time is set and the timer
    runs afterwards. *)
Lemma rejected_key_starts_timer_counterexample :
  typingPhrase (state (mount sampleSets ∅ true))
    !! currentIndex (state (mount sampleSets ∅ true)) = Some 72%N
  /\ toLowerCase_latin (js "x") <> toLowerCase_latin [72%N]
  /\ startTime (state (mount sampleSets ∅ true)) = None
  /\ isTimerRunning (state (mount sampleSets ∅ true)) = false
  /\ startTime (state (step toLowerCase_latin sampleSets true
                         (mount sampleSets ∅ true) (KeyDown (js "x") 1000)))
     = Some 1000
  /\ isTimerRunning (state (step toLowerCase_latin sampleSets true
                              (mount sampleSets ∅ true) (KeyDown (js "x") 1000)))
     = true.
Proof. vm_compute. repeat split; try reflexivity. discriminate. Qed.

Lemma rejected_key_only_starts_timer_witness :
  step toLowerCase_latin sampleSets true
       (mount sampleSets ∅ true) (KeyDown (js "x") 1000)
  = with_state (fun s => with_isTimerRunning true (with_startTime (Some 1000) s))
      (mount sampleSets ∅ true).
Proof.
  destruct (rejected_key_only_starts_timer toLowerCase_latin sampleSets true
              (mount sampleSets ∅ true) (js "x") 1000 72%N)
    as (_ & Hstart & _).
  - vm_compute. reflexivity.
  - vm_compute. discriminate.
  - apply Hstart. vm_compute. split; reflexivity.
Defined.


Lemma userInput_is_typed_prefix_witness :
  userInput (state (step toLowerCase_latin sampleSets true
                      (mount sampleSets ∅ true) (KeyDown (js "h") 1000)))
  = take (currentIndex (state (step toLowerCase_latin sampleSets true
                                 (mount sampleSets ∅ true) (KeyDown (js "h") 1000))))
         (typingPhrase (state (step toLowerCase_latin sampleSets true
                                 (mount sampleSets ∅ true) (KeyDown (js "h") 1000)))).
Proof.
  apply (userInput_is_typed_prefix toLowerCase_latin sampleSets true).
  apply reachable_step, reachable_mount.
Defined.

(** The sample set has three phrases: from the first, Next goes to the
    second and Previous wraps to the third. *)
Lemma navigation_wraps_around_witness :
  currentPhraseIndex (state (step toLowerCase_latin sampleSets true
                               (mount sampleSets ∅ true) ClickNext)) = Num 1
  /\ currentPhraseIndex (state (step toLowerCase_latin sampleSets true
                                  (mount sampleSets ∅ true) ClickPrevious)) = Num 2.
Proof.
  destruct (navigation_wraps_around toLowerCase_latin sampleSets true
              (mount sampleSets ∅ true)
              {| name := js "Family"; phrases := [js "Hi!"; js "cat"; js "a b"] |} 0)
    as (Hnext & Hprev & _ & _).
  - vm_compute. reflexivity.
  - vm_compute. reflexivity.
  - vm_compute. split; [discriminate|reflexivity].
  - split; [exact Hnext|exact Hprev].
Defined.

(** After the key [h] on the page of the sample sets, Next resets the
    session. *)
Lemma resets_clear_session_witness :
  currentIndex (state (step toLowerCase_latin sampleSets true (step toLowerCase_latin sampleSets true (mount sampleSets ∅ true) (KeyDown (js "h") 1000)) ClickNext)) = 0%nat
  /\ userInput (state (step toLowerCase_latin sampleSets true (step toLowerCase_latin sampleSets true (mount sampleSets ∅ true) (KeyDown (js "h") 1000)) ClickNext)) = []
  /\ startTime (state (step toLowerCase_latin sampleSets true (step toLowerCase_latin sampleSets true (mount sampleSets ∅ true) (KeyDown (js "h") 1000)) ClickNext)) = None
  /\ elapsedTime (state (step toLowerCase_latin sampleSets true (step toLowerCase_latin sampleSets true (mount sampleSets ∅ true) (KeyDown (js "h") 1000)) ClickNext)) = 0
  /\ isTimerRunning (state (step toLowerCase_latin sampleSets true (step toLowerCase_latin sampleSets true (mount sampleSets ∅ true) (KeyDown (js "h") 1000)) ClickNext)) = false.
Proof.
  destruct (resets_clear_session toLowerCase_latin sampleSets true
              (step toLowerCase_latin sampleSets true (mount sampleSets ∅ true) (KeyDown (js "h") 1000)) ClickNext) as [_ Hpage].
  apply Hpage.
  - vm_compute. eexists. reflexivity.
  - apply page_step; [apply page_mount|exact I].
  - right. left. reflexivity.
Defined.

Lemma findKeyPosition_follows_spec_witness :
  toLowerCase_latin (js "@") = js "@"
  /\ findKeyPosition toLowerCase_latin (js "@")
     = Some {| rowIndex := 0; keyIndex := 1 |}.
Proof.
  split; [reflexivity|].
  destruct (findKeyPosition_follows_spec toLowerCase_latin (js "@")) as (_ & _ & Hat).
  apply Hat. reflexivity.
Defined.

(** C7 as stated fails: at the start of [cat] nothing is typed, so the
    characters not yet typed are [c], [a], [t], but the scanner lists only
    [a] and [t]. *)
Lemma remainingLetters_skip_cursor_counterexample :
  remainingLetters (getCurrentWordInfo (js "cat") 0) = [js "a"; js "t"]
  /\ untyped_of_current_word (js "cat") 0 = [js "c"; js "a"; js "t"]
  /\ remainingLetters (getCurrentWordInfo (js "cat") 0)
     <> untyped_of_current_word (js "cat") 0.
Proof. vm_compute. repeat split; try reflexivity. discriminate. Qed.

(** In [the cat] with the cursor on [a], the word is [cat] and the letters
    are [t] alone. *)
Lemma getCurrentWordInfo_scans_word_witness :
  (5 < length (js "the cat"))%nat
  /\ currentWord (getCurrentWordInfo (js "the cat") 5) = js "cat"
  /\ remainingLetters (getCurrentWordInfo (js "the cat") 5) = [js "t"]
  /\ exists wordStart wordEnd : nat,
       currentWord (getCurrentWordInfo (js "the cat") 5)
         = take (wordEnd - wordStart) (drop wordStart (js "the cat"))
       /\ remainingLetters (getCurrentWordInfo (js "the cat") 5)
         = split_chars (take (wordEnd - (5 + 1)) (drop (5 + 1) (js "the cat"))).
Proof.
  split; [vm_compute; lia|]. split; [reflexivity|]. split; [reflexivity|].
  destruct (getCurrentWordInfo_scans_word (js "the cat") 5) as [_ Hin].
  destruct Hin as (wordStart & wordEnd & _ & _ & _ & _ & _ & _ & Hw & Hl).
  - vm_compute. lia.
  - exists wordStart, wordEnd. split; [exact Hw|exact Hl].
Defined.


(** After [Hi!] is completed the cursor is 3, the length of the phrase: the
    next key, whatever it is, makes the handler throw. *)
Lemma handleKeyPress_reads_past_end_witness :
  currentIndex (state (fold_left (step toLowerCase_latin sampleSets true)
                         (typed ["h"; "i"; "!"]%string)
                         (mount sampleSets ∅ true))) = 3%nat
  /\ typingPhrase (state (fold_left (step toLowerCase_latin sampleSets true)
                            (typed ["h"; "i"; "!"]%string)
                            (mount sampleSets ∅ true))) = js "Hi!"
  /\ fst (dispatch toLowerCase_latin sampleSets true (KeyDown (js "z") 1000)
            (fold_left (step toLowerCase_latin sampleSets true)
               (typed ["h"; "i"; "!"]%string) (mount sampleSets ∅ true)))
     = Throw TypeError.
Proof.
  split; [reflexivity|]. split; [reflexivity|].
  destruct (handleKeyPress_reads_past_end toLowerCase_latin sampleSets true
              (fold_left (step toLowerCase_latin sampleSets true)
                 (typed ["h"; "i"; "!"]%string) (mount sampleSets ∅ true))
              (js "z") 1000)
    as (_ & Hthrow & _ & _).
  - vm_compute. lia.
  - exact Hthrow.
Defined.

(** An empty typing phrase is reachable: the custom phrase made of the trade
    mark sign alone is not empty and is typed as nothing.  The first key then
    starts the timer and throws. *)
Lemma empty_typing_phrase_reachable :
  typingPhrase (state (fold_left (step toLowerCase_latin sampleSets true)
                         [EditCustomPhrase [8482%N]; SubmitPhrase]
                         (mount sampleSets ∅ true))) = []
  /\ dispatch toLowerCase_latin sampleSets true (KeyDown (js "a") 1000)
       (fold_left (step toLowerCase_latin sampleSets true)
          [EditCustomPhrase [8482%N]; SubmitPhrase] (mount sampleSets ∅ true))
     = (Throw TypeError,
        with_state (fun s => with_isTimerRunning true (with_startTime (Some 1000) s))
          (fold_left (step toLowerCase_latin sampleSets true)
             [EditCustomPhrase [8482%N]; SubmitPhrase] (mount sampleSets ∅ true))).
Proof. vm_compute. split; reflexivity. Qed.

(* ===================================================================== *)
(** ** The further properties on sample runs *)
(* ===================================================================== *)

(** The phrase [cat] has no character of the table: it is typed as it is. *)
Lemma setupPhrase_leaves_no_special_witness :
  typing (setupPhrase (js "cat")) = js "cat".
Proof.
  destruct (setupPhrase_leaves_no_special (js "cat")) as (_ & _ & Hsame).
  apply Hsame. repeat constructor.
Defined.

Lemma setupPhrase_length_witness :
  charAt (typing (setupPhrase (js "cat"))) 1 = Some (typable 97%N).
Proof.
  destruct (setupPhrase_length (js "cat")) as (_ & _ & _ & Hat).
  apply Hat; [repeat constructor|reflexivity].
Defined.

Lemma typing_phrase_is_setup_of_display_witness :
  typingPhrase (state (mount sampleSets ∅ true))
  = typing (setupPhrase (displayPhrase (state (mount sampleSets ∅ true)))).
Proof.
  destruct (typing_phrase_is_setup_of_display toLowerCase_latin sampleSets true (mount sampleSets ∅ true))
    as (Hsetup & _ & _).
  - apply reachable_mount.
  - exact Hsetup.
Defined.

(** After the key [h] on [Hi!] the timer runs: the start time is set and the
    cursor, 1, is inside the phrase. *)
Lemma timer_runs_only_while_typing_witness :
  is_Some (startTime (state (step toLowerCase_latin sampleSets true (mount sampleSets ∅ true) (KeyDown (js "h") 1000))))
  /\ ((currentIndex (state (step toLowerCase_latin sampleSets true (mount sampleSets ∅ true) (KeyDown (js "h") 1000)))
       < length (typingPhrase (state (step toLowerCase_latin sampleSets true (mount sampleSets ∅ true) (KeyDown (js "h") 1000)))))%nat
      \/ typingPhrase (state (step toLowerCase_latin sampleSets true (mount sampleSets ∅ true) (KeyDown (js "h") 1000))) = []).
Proof.
  apply (timer_runs_only_while_typing toLowerCase_latin sampleSets true).
  - apply reachable_step, reachable_mount.
  - vm_compute. reflexivity.
Defined.

Lemma no_start_time_means_untouched_witness :
  (0 < currentIndex (state (step toLowerCase_latin sampleSets true (mount sampleSets ∅ true) (KeyDown (js "h") 1000))))%nat
  /\ is_Some (startTime (state (step toLowerCase_latin sampleSets true (mount sampleSets ∅ true) (KeyDown (js "h") 1000)))).
Proof.
  destruct (no_start_time_means_untouched toLowerCase_latin sampleSets true (step toLowerCase_latin sampleSets true (mount sampleSets ∅ true) (KeyDown (js "h") 1000)))
    as [_ Hstarted].
  - apply reachable_step, reachable_mount.
  - split; [vm_compute; lia|]. apply Hstarted. vm_compute. lia.
Defined.

(** Once [Hi!] is typed a timeout is pending: it waits 3000 ms and was armed
    at the last character. *)
Lemma timeouts_come_from_completions_witness :
  Forall (fun t => delay t = 3000
                   /\ S (currentIndex (closure t))
                      = length (typingPhrase (closure t)))
         (timeouts (step toLowerCase_latin sampleSets true (step toLowerCase_latin sampleSets true (step toLowerCase_latin sampleSets true (mount sampleSets ∅ true) (KeyDown (js "h") 1000)) (KeyDown (js "i") 1000)) (KeyDown (js "!") 1000))).
Proof.
  destruct (timeouts_come_from_completions toLowerCase_latin sampleSets true (step toLowerCase_latin sampleSets true (step toLowerCase_latin sampleSets true (step toLowerCase_latin sampleSets true (mount sampleSets ∅ true) (KeyDown (js "h") 1000)) (KeyDown (js "i") 1000)) (KeyDown (js "!") 1000)) ClickNext)
    as [Harmed _].
  - do 3 apply reachable_step. apply reachable_mount.
  - exact Harmed.
Defined.

(** The key [!] completes [Hi!] before any tick: the time stored, 0, is read
    back as the number 0. *)
Lemma completion_time_reads_back_witness :
  storedTime (localStorage (step toLowerCase_latin sampleSets true (fold_left (step toLowerCase_latin sampleSets true) (typed ["h"; "i"]%string) (mount sampleSets ∅ true)) (KeyDown (js "!") 1000)))
             (typingPhrase (state (fold_left (step toLowerCase_latin sampleSets true) (typed ["h"; "i"]%string) (mount sampleSets ∅ true))))
  = Some (Num (elapsedTime (state (fold_left (step toLowerCase_latin sampleSets true) (typed ["h"; "i"]%string) (mount sampleSets ∅ true))))).
Proof.
  destruct (completion_time_reads_back toLowerCase_latin sampleSets true (fold_left (step toLowerCase_latin sampleSets true) (typed ["h"; "i"]%string) (mount sampleSets ∅ true)) (js "!") 1000 33%N)
    as [Hback _].
  - vm_compute. reflexivity.
  - vm_compute. reflexivity.
  - vm_compute. reflexivity.
  - exact Hback.
Defined.

(** Next replaces [Hi!] by [cat]: the previous time is the one stored for
    [cat]. *)
Lemma previous_time_follows_phrase_witness :
  previousTime (state (step toLowerCase_latin sampleSets true (mount sampleSets ∅ true) ClickNext))
  = storedTime (localStorage (step toLowerCase_latin sampleSets true (mount sampleSets ∅ true) ClickNext))
               (typingPhrase (state (step toLowerCase_latin sampleSets true (mount sampleSets ∅ true) ClickNext))).
Proof.
  destruct (previous_time_follows_phrase toLowerCase_latin sampleSets true (mount sampleSets ∅ true) ClickNext)
    as [Hprev _].
  - vm_compute. discriminate.
  - exact Hprev.
Defined.

(** Without speech synthesis an accepted key says nothing. *)
Lemma speech_only_on_accepted_keys_witness :
  spoken (step toLowerCase_latin sampleSets false (mount sampleSets ∅ true) (KeyDown (js "h") 1000))
  = spoken (mount sampleSets ∅ true).
Proof.
  destruct (speech_only_on_accepted_keys toLowerCase_latin sampleSets false
              (mount sampleSets ∅ true) (KeyDown (js "h") 1000)) as (_ & _ & Hmute).
  apply Hmute. reflexivity.
Defined.

Lemma next_and_previous_are_inverse_witness :
  currentPhraseIndex (state (step toLowerCase_latin sampleSets true (step toLowerCase_latin sampleSets true (mount sampleSets ∅ true) ClickNext) ClickPrevious)) = Num 0
  /\ currentPhraseIndex (state (step toLowerCase_latin sampleSets true (step toLowerCase_latin sampleSets true (mount sampleSets ∅ true) ClickPrevious) ClickNext)) = Num 0.
Proof.
  destruct (next_and_previous_are_inverse toLowerCase_latin sampleSets true (mount sampleSets ∅ true)
              {| name := js "Family"; phrases := [js "Hi!"; js "cat"; js "a b"] |} 0)
    as (Hnp & Hpn & _ & _).
  - vm_compute. reflexivity.
  - vm_compute. reflexivity.
  - vm_compute. split; [discriminate|reflexivity].
  - split; [exact Hnp|exact Hpn].
Defined.

(** From [Hi!], the first phrase of three, Next puts [cat] on display. *)
Lemma navigation_loads_phrase_witness :
  displayPhrase (state (step toLowerCase_latin sampleSets true (mount sampleSets ∅ true) ClickNext)) = js "cat".
Proof.
  destruct (navigation_loads_phrase toLowerCase_latin sampleSets true (mount sampleSets ∅ true)
              {| name := js "Family"; phrases := [js "Hi!"; js "cat"; js "a b"] |} 0)
    as [Hmany _].
  - vm_compute. discriminate.
  - vm_compute. reflexivity.
  - vm_compute. reflexivity.
  - vm_compute. split; [discriminate|reflexivity].
  - destruct Hmany as [(phrase & Hat & Hshown & _) _]; [vm_compute; reflexivity|].
    vm_compute in Hat. injection Hat as <-. exact Hshown.
Defined.

(** Selecting the set [short] puts its only phrase, [ok], on display. *)
Lemma selecting_a_set_loads_its_first_phrase_witness :
  displayPhrase (state (step toLowerCase_latin twoSets true (mount twoSets ∅ true) (SelectSet (js "short")))) = js "ok".
Proof.
  destruct (selecting_a_set_loads_its_first_phrase toLowerCase_latin twoSets true
              (mount twoSets ∅ true) (js "short") {| name := js "Short"; phrases := [js "ok"] |} (js "ok") [])
    as [Hfresh _].
  - vm_compute. discriminate.
  - vm_compute. reflexivity.
  - reflexivity.
  - destruct Hfresh as (_ & _ & Hshown & _); [left; vm_compute; discriminate|].
    exact Hshown.
Defined.

(** [Hi!] is completed in the set of three phrases, then the set of one
    phrase is selected: the advance armed on [Hi!] goes to index 1, which the
    new set does not have, and the effect throws. *)
Lemma stale_advance_overruns_shorter_set_witness :
  fst (dispatch toLowerCase_latin twoSets true TimeoutFires (fold_left (step toLowerCase_latin twoSets true) (typed ["h"; "i"; "!"]%string ++ [SelectSet (js "short")]) (mount twoSets ∅ true)))
  = Throw TypeError.
Proof.
  destruct (stale_advance_overruns_shorter_set toLowerCase_latin twoSets true
              (fold_left (step toLowerCase_latin twoSets true) (typed ["h"; "i"; "!"]%string ++ [SelectSet (js "short")]) (mount twoSets ∅ true))
              {| closure := state (fold_left (step toLowerCase_latin twoSets true) (typed ["h"; "i"]%string) (mount twoSets ∅ true)); delay := 3000 |} []
              {| name := js "Family"; phrases := [js "Hi!"; js "cat"; js "a b"] |} {| name := js "Short"; phrases := [js "ok"] |} 0)
    as (_ & _ & _ & Hthrows).
  - vm_compute. reflexivity.
  - vm_compute. reflexivity.
  - vm_compute. reflexivity.
  - vm_compute. split; [discriminate|reflexivity].
  - vm_compute. discriminate.
  - vm_compute. reflexivity.
  - discriminate.
  - vm_compute. discriminate.
  - vm_compute. discriminate.
  - exact Hthrows.
Defined.

(** The upper-case [Q] is located on the key [q], first of the second row. *)
Lemma layout_keys_are_found_in_place_witness :
  findKeyPosition toLowerCase_latin (js "Q")
  = Some {| rowIndex := 1; keyIndex := 0 |}.
Proof.
  eapply (layout_keys_are_found_in_place toLowerCase_latin (js "Q") 1 0 _ (js "q"));
    reflexivity.
Defined.

Lemma shift_symbols_are_found_on_base_key_witness :
  exists pos row,
    findKeyPosition toLowerCase_latin (js "@") = Some pos
    /\ keyboardLayout !! rowIndex pos = Some row
    /\ row !! keyIndex pos = Some (js "2")
    /\ first_cell (js "2") = Some pos.
Proof.
  apply (shift_symbols_are_found_on_base_key toLowerCase_latin (js "2") (js "@")).
  - vm_compute. repeat first [left; reflexivity | right].
  - reflexivity.
Defined.

(** On the fresh session the next character is [H]: the key [h], sixth of the
    third row, is the active one. *)
Lemma one_active_key_witness :
  isActive toLowerCase_latin (state (mount sampleSets ∅ true)) 2 5
  || isShiftActive (state (mount sampleSets ∅ true)) (js "h") = true.
Proof.
  destruct (one_active_key toLowerCase_latin (state (mount sampleSets ∅ true)) 2 5
              [js "a"; js "s"; js "d"; js "f"; js "g"; js "h"; js "j"; js "k";
               js "l"; js ";"; js "'"] (js "h"))
    as [_ Hpainted].
  - intros baseKey shiftSymbol Hin.
    assert (Forall (fun entry => toLowerCase_latin (snd entry) = snd entry)
                   shiftSymbolEntries) as Hfixed by (repeat constructor).
    exact (proj1 (List.Forall_forall _ _) Hfixed (baseKey, shiftSymbol) Hin).
  - reflexivity.
  - reflexivity.
  - apply Hpainted. reflexivity.
Defined.


(** 125 seconds are written with two digits of minutes at least, a colon and
    two digits of seconds. *)
Lemma formatTime_reads_back_witness :
  exists mm s1 s2,
    formatTime (Num 125) = Some (mm ++ [58%N; s1; s2]) /\ (2 <= length mm)%nat.
Proof.
  destruct (formatTime_reads_back 125) as (mm & s1 & s2 & Hshape & Hlong & _);
    [lia|].
  exists mm, s1, s2. split; [exact Hshape|exact Hlong].
Defined.


(** The custom phrase [ ok ], with a space on each side, is put on display
    trimmed. *)
Lemma custom_phrase_submission_witness :
  displayPhrase (state (step toLowerCase_latin sampleSets true (step toLowerCase_latin sampleSets true (mount sampleSets ∅ true) (EditCustomPhrase (js " ok "))) SubmitPhrase))
  = trim (customPhrase (state (step toLowerCase_latin sampleSets true (mount sampleSets ∅ true) (EditCustomPhrase (js " ok "))))).
Proof.
  destruct (custom_phrase_submission toLowerCase_latin sampleSets true (step toLowerCase_latin sampleSets true (mount sampleSets ∅ true) (EditCustomPhrase (js " ok ")))) as [_ Hsubmit].
  destruct Hsubmit as (_ & Hshown & _).
  - vm_compute. discriminate.
  - exact Hshown.
Defined.

(** The keys [h], [i] and [!] type the whole of [Hi!]. *)
Lemma typing_the_phrase_completes_it_witness :
  userInput (state (fold_left (step toLowerCase_latin sampleSets true)
                      (imap (fun (i : nat) key => KeyDown key 1000) [js "h"; js "i"; js "!"])
                      (mount sampleSets ∅ true)))
  = typingPhrase (state (mount sampleSets ∅ true)).
Proof.
  destruct (typing_the_phrase_completes_it toLowerCase_latin sampleSets true (mount sampleSets ∅ true)
              [js "h"; js "i"; js "!"] (fun _ => 1000))
    as (_ & Htyped & _).
  - reflexivity.
  - reflexivity.
  - vm_compute. discriminate.
  - assert (typingPhrase (state (mount sampleSets ∅ true)) = js "Hi!") as -> by reflexivity.
    repeat constructor.
  - exact Htyped.
Defined.

(** In the first version the key [T] types the [t] of [the quick brown fox
    jumps over the lazy dog]. *)
Lemma first_version_userInput_is_typed_prefix_witness :
  FirstVersion.userInput (FirstVersion.state (FirstVersion.step toLowerCase_latin true FirstVersion.mount (FirstVersion.KeyDown (js "T"))))
  = take (FirstVersion.currentIndex (FirstVersion.state (FirstVersion.step toLowerCase_latin true FirstVersion.mount (FirstVersion.KeyDown (js "T")))))
         (FirstVersion.phrase (FirstVersion.state (FirstVersion.step toLowerCase_latin true FirstVersion.mount (FirstVersion.KeyDown (js "T"))))).
Proof.
  apply (first_version_userInput_is_typed_prefix toLowerCase_latin true).
  apply FirstVersion.reachable_step, FirstVersion.reachable_mount.
Defined.

(** With the cursor on the [i] of [Hi!] in the component and of [hi!] in the
    first version, the key [I] is accepted by both. *)
Lemma versions_accept_the_same_keys_witness :
  currentIndex (state (step toLowerCase_latin sampleSets true (step toLowerCase_latin sampleSets true (mount sampleSets ∅ true) (KeyDown (js "h") 1000)) (KeyDown (js "I") 2000)))
  = S (currentIndex (state (step toLowerCase_latin sampleSets true (mount sampleSets ∅ true) (KeyDown (js "h") 1000))))
  <-> FirstVersion.currentIndex
        (FirstVersion.state
           (FirstVersion.step toLowerCase_latin true
              (fold_left (FirstVersion.step toLowerCase_latin true)
        [FirstVersion.EditCustomPhrase (js "Hi!"); FirstVersion.SubmitPhrase;
         FirstVersion.KeyDown (js "h")]
        FirstVersion.mount)
              (FirstVersion.KeyDown (js "I"))))
      = S (FirstVersion.currentIndex
             (FirstVersion.state
                (fold_left (FirstVersion.step toLowerCase_latin true)
        [FirstVersion.EditCustomPhrase (js "Hi!"); FirstVersion.SubmitPhrase;
         FirstVersion.KeyDown (js "h")]
        FirstVersion.mount))).
Proof.
  destruct (versions_accept_the_same_keys toLowerCase_latin true sampleSets
              (step toLowerCase_latin sampleSets true (mount sampleSets ∅ true) (KeyDown (js "h") 1000))
              (fold_left (FirstVersion.step toLowerCase_latin true)
        [FirstVersion.EditCustomPhrase (js "Hi!"); FirstVersion.SubmitPhrase;
         FirstVersion.KeyDown (js "h")]
        FirstVersion.mount)
              (js "I") 2000 105%N) as [Hsame _].
  - vm_compute. reflexivity.
  - vm_compute. reflexivity.
  - apply Hsame. reflexivity.
Defined.
